(** * RepoMind: markdown fence repair and Mermaid diagram sanitization

    A shallow embedding of [src/lib/markdown-utils.ts] and
    [src/lib/diagram-utils.ts], with the properties of the fence-repair
    engine and of the diagram sanitizer stated and proved on it.

    JavaScript strings are sequences of UTF-16 code units.  A code unit is
    modelled as a number ([N]) and a string as a list of code units, so
    that the white-space and line-terminator classes used by [trim], [\s]
    and [.] are the ECMAScript ones and not an 8-bit approximation.

    The regular expressions of the source are kept as they are written
    there, as terms of a small regular-expression language with the
    backtracking semantics of ECMAScript; what each of them computes on
    the strings the code gives it is then worked out once, as a lemma.
    Where a comment quotes a regular expression of the source, a space
    separates a star from a closing parenthesis, and [\x22] and [\x27]
    stand for the double and the single quote. *)

From Stdlib Require Import NArith List Ascii String Bool Lia Sorted.
From stdpp Require Import base option list.

Open Scope N_scope.
Open Scope nat_scope.
Open Scope list_scope.

(** ** Strings *)

Module Str.

Definition char := N.
Definition str := list char.

(** An ASCII literal as a JavaScript string. *)
Definition lit (s : string) : str := map N_of_ascii (list_ascii_of_string s).

Definition NL : char := 10%N.
Definition CR : char := 13%N.
Definition TAB : char := 9%N.
Definition SPACE : char := 32%N.
Definition BACKTICK : char := 96%N.
Definition DQUOTE : char := 34%N.

Definition inRange (lo hi c : char) : bool := (lo <=? c)%N && (c <=? hi)%N.
Arguments inRange (lo hi c)%_N.

(** ECMAScript [LineTerminator]: LF, CR, LS, PS.  The regexp atom [.]
    (without the [s] flag) matches every code unit but these. *)
Definition isLineTerminator (c : char) : bool :=
  (c =? 10)%N || (c =? 13)%N || (c =? 8232)%N || (c =? 8233)%N.

(** ECMAScript [WhiteSpace]: TAB, VT, FF, SP, NBSP, ZWNBSP and the
    Unicode space separators. *)
Definition isWhiteSpace (c : char) : bool :=
  ((c =? 9) || (c =? 11) || (c =? 12) || (c =? 32) || (c =? 160)
   || (c =? 5760) || inRange 8192 8202 c || (c =? 8239)
   || (c =? 8287) || (c =? 12288) || (c =? 65279))%N.

(** The class [\s], which is also what [String.prototype.trim] strips. *)
Definition isSpace (c : char) : bool := isWhiteSpace c || isLineTerminator c.

Definition isTick (c : char) : bool := (c =? BACKTICK)%N.

Fixpoint takeWhile (p : char -> bool) (s : str) : str :=
  match s with
  | [] => []
  | c :: s' => if p c then c :: takeWhile p s' else []
  end.

Fixpoint dropWhile (p : char -> bool) (s : str) : str :=
  match s with
  | [] => []
  | c :: s' => if p c then dropWhile p s' else s
  end.

Definition trimStart (s : str) : str := dropWhile isSpace s.
Definition trimEnd (s : str) : str := rev (dropWhile isSpace (rev s)).
Definition trim (s : str) : str := trimEnd (trimStart s).

Definition isEmpty (s : str) : bool :=
  match s with [] => true | _ => false end.

Fixpoint eqb (s t : str) : bool :=
  match s, t with
  | [], [] => true
  | c :: s', d :: t' => (c =? d)%N && eqb s' t'
  | _, _ => false
  end.

Fixpoint startsWith (p s : str) : bool :=
  match p, s with
  | [], _ => true
  | _ :: _, [] => false
  | c :: p', d :: s' => (c =? d)%N && startsWith p' s'
  end.

Fixpoint includes (p s : str) : bool :=
  startsWith p s || match s with [] => false | _ :: s' => includes p s' end.

(** [s.split(sep)] for a one-unit separator: never an empty array, the
    empty string gives one empty line. *)
Fixpoint splitOn (sep : char) (s : str) : list str :=
  match s with
  | [] => [[]]
  | c :: s' =>
      if (c =? sep)%N then [] :: splitOn sep s'
      else match splitOn sep s' with
           | [] => [[c]]
           | l :: ls => (c :: l) :: ls
           end
  end.

(** [ls.join(sep)]. *)
Fixpoint join (sep : str) (ls : list str) : str :=
  match ls with
  | [] => []
  | l :: ls' => match ls' with
                | [] => l
                | _ :: _ => l ++ sep ++ join sep ls'
                end
  end.

(** ['`'.repeat(n)] *)
Definition ticks (n : nat) : str := repeat BACKTICK n.

(** [ls.slice(a, b)] for [a], [b] within the array (empty when [b <= a]). *)
Definition slice {A} (a b : nat) (ls : list A) : list A := take (b - a) (drop a ls).

End Str.
Import Str.

(** ** Numbers

    What the components and the chat export do with numbers: they write a
    counter or an array index into a string, and they hash a string with
    the 32-bit integer operators. *)

From Stdlib Require Import ZArith.

Module Num.

(** The digit [d] as [Number.prototype.toString] writes it: [0] to [9],
    then [a] to [z]. *)
Definition digitChar (d : N) : char := (if d <? 10 then 48 + d else 87 + d)%N.

(** The digits of [n] in front of [acc], the most significant first.
    [fuel] bounds their number. *)
Fixpoint digitsOf (fuel : nat) (radix n : N) (acc : str) : str :=
  match fuel with
  | 0 => acc
  | S fuel' =>
      let acc' := digitChar (n mod radix)%N :: acc in
      if (n / radix =? 0)%N then acc' else digitsOf fuel' radix (n / radix)%N acc'
  end.

(** [n.toString(radix)] for a natural number [n] that a double holds
    exactly and a radix from 2 to 36.  A number has no more digits than
    it has bits. *)
Definition toStringRadix (radix n : N) : str :=
  digitsOf (S (N.size_nat n)) radix n [].

(** [`${i}`] for an array index or a counter [i]. *)
Definition decimal (i : nat) : str := toStringRadix 10 (N.of_nat i).

(** [ToInt32]: the conversion that [<<] and [&] apply to their operands
    and to their result. *)
Definition toInt32 (x : Z) : Z := ((x + 2 ^ 31) mod 2 ^ 32 - 2 ^ 31)%Z.

End Num.
Import Num.
(** ** Regular expressions

    The part of ECMAScript regular expressions that the two files use,
    with the backtracking semantics of the language: alternatives
    are tried left to right, a greedy quantifier tries one more iteration
    before it tries to go on, a lazy one the other way round, and an
    iteration that consumes nothing is rejected. *)

Module Regex.

Inductive re : Type :=
  | Eps                              (* the empty pattern *)
  | Chr (p : char -> bool)           (* a literal, a class, [.] *)
  | Seq (a b : re)
  | Alt (a b : re)
  | Star (greedy : bool) (a : re)    (* [a*] and [a*?] *)
  | Group (n : nat) (a : re)         (* the n-th capturing group *)
  | NotAhead (a : re)                (* [(?!a)] *)
  | Bol                              (* [^] *)
  | Eol.                             (* [$] *)

(** The captures made so far, the latest first. *)
Definition caps := list (nat * str).

Definition group (n : nat) (c : caps) : str :=
  match find (fun e => fst e =? n) c with
  | Some (_, v) => v
  | None => []
  end.

Definition mstate : Type := str * nat * caps.
Definition cont := str -> nat -> caps -> option mstate.

(** The iterations of a quantifier whose body is matched by [body]:
    [fuel] bounds their number, and the length of the input left is
    enough, because an iteration that does not advance is rejected. *)
Fixpoint iterate (body : str -> nat -> caps -> cont -> option mstate)
    (greedy : bool) (k : cont) (fuel : nat) (s : str) (pos : nat) (c : caps)
    {struct fuel} : option mstate :=
  match fuel with
  | 0 => k s pos c
  | S fuel' =>
      let more :=
        body s pos c
             (fun s' pos' c' =>
                if pos <? pos' then iterate body greedy k fuel' s' pos' c'
                else None) in
      if greedy then
        match more with Some m => Some m | None => k s pos c end
      else
        match k s pos c with Some m => Some m | None => more end
  end.

(** [run r s pos c k]: match [r] against [s], the input from position
    [pos] on, then continue with [k]. *)
Fixpoint run (r : re) (s : str) (pos : nat) (c : caps) (k : cont) {struct r}
  : option mstate :=
  match r with
  | Eps => k s pos c
  | Chr p =>
      match s with
      | x :: s' => if p x then k s' (S pos) c else None
      | [] => None
      end
  | Seq a b => run a s pos c (fun s' pos' c' => run b s' pos' c' k)
  | Alt a b =>
      match run a s pos c k with
      | Some m => Some m
      | None => run b s pos c k
      end
  | Star greedy a => iterate (run a) greedy k (S (length s)) s pos c
  | Group n a =>
      run a s pos c (fun s' pos' c' => k s' pos' ((n, take (pos' - pos) s) :: c'))
  | NotAhead a =>
      match run a s pos c (fun s' pos' c' => Some (s', pos', c')) with
      | Some _ => None
      | None => k s pos c
      end
  | Bol => if pos =? 0 then k s pos c else None
  | Eol => match s with [] => k s pos c | _ :: _ => None end
  end.

(** A match that starts at [pos]: the length of the match and the
    captures. *)
Definition matchAt (r : re) (s : str) (pos : nat) : option (nat * caps) :=
  match run r s pos [] (fun s' pos' c' => Some (s', pos', c')) with
  | Some (_, e, c) => Some (e - pos, c)
  | None => None
  end.

(** [s.match(r)] for a pattern without the [g] flag: the leftmost match,
    as the matched text and the captures. *)
Fixpoint searchFrom (r : re) (s : str) (pos : nat) : option (str * caps) :=
  match matchAt r s pos with
  | Some (n, c) => Some (take n s, c)
  | None =>
      match s with
      | [] => None
      | _ :: s' => searchFrom r s' (S pos)
      end
  end.

Definition search (r : re) (s : str) : option (str * caps) := searchFrom r s 0.

(** [r.test(s)] *)
Definition test (r : re) (s : str) : bool :=
  match search r s with Some _ => true | None => false end.

(** [s.replace(r, f)] for a pattern with the [g] flag; [f] gets the
    matched text and the captures. *)
Fixpoint replaceFrom (fuel : nat) (r : re) (f : str -> caps -> str)
    (s : str) (pos : nat) : str :=
  match fuel with
  | 0 => s
  | S fuel' =>
      let skip :=
        match s with
        | [] => []
        | x :: s' => x :: replaceFrom fuel' r f s' (S pos)
        end in
      match matchAt r s pos with
      | Some (0, c) => f [] c ++ skip
      | Some (n, c) => f (take n s) c ++ replaceFrom fuel' r f (drop n s) (pos + n)
      | None => skip
      end
  end.

Definition replaceAll (r : re) (f : str -> caps -> str) (s : str) : str :=
  replaceFrom (S (length s)) r f s 0.

(** [s.replace(r, f)] for a pattern without the [g] flag: the leftmost
    match only. *)
Fixpoint replaceFirstFrom (r : re) (f : str -> caps -> str) (s : str) (pos : nat)
  : str :=
  match matchAt r s pos with
  | Some (n, c) => f (take n s) c ++ drop n s
  | None =>
      match s with
      | [] => []
      | x :: s' => x :: replaceFirstFrom r f s' (S pos)
      end
  end.

Definition replaceFirst (r : re) (f : str -> caps -> str) (s : str) : str :=
  replaceFirstFrom r f s 0.

(** Building blocks. *)
Definition chr (c : char) : re := Chr (N.eqb c).
Definition inClass (cls : str) (c : char) : bool := existsb (N.eqb c) cls.
Definition oneOf (cls : string) : re := Chr (inClass (lit cls)).
Definition noneOf (cls : str) : re := Chr (fun c => negb (inClass cls c)).
Definition dot : re := Chr (fun c => negb (isLineTerminator c)).
Definition ws : re := Chr isSpace.
Definition plus (greedy : bool) (a : re) : re := Seq a (Star greedy a).
Definition opt (a : re) : re := Alt a Eps.
Definition seqs (rs : list re) : re := fold_right Seq Eps rs.
Definition alts (a : re) (rs : list re) : re := fold_left Alt rs a.
Definition text (s : str) : re := seqs (map chr s).

(** The class [\w]. *)
Definition isWord (c : char) : bool :=
  inRange 97 122 c || inRange 65 90 c || inRange 48 57 c || (c =? 95)%N.

End Regex.

(** ** The fence repair engine ([markdown-utils.ts]) *)

Module Markdown.
Import Regex.

Definition tick : re := Chr isTick.

(** [/^(`+)(.* )$/] *)
Definition fenceRe : re :=
  seqs [Bol; Group 1 (plus true tick); Group 2 (Star true dot); Eol].

(** [/^(`{3,})(.* )$/] *)
Definition fence3Re : re :=
  seqs [Bol; Group 1 (Seq tick (Seq tick (plus true tick)));
        Group 2 (Star true dot); Eol].

(** [/^(\s* )/] *)
Definition indentRe : re := seqs [Bol; Group 1 (Star true ws)].

(** [/^(\s* )(`+)/] *)
Definition indentTicksRe : re :=
  seqs [Bol; Group 1 (Star true ws); Group 2 (plus true tick)].

(** [/^(\s* )(`+)(.* )$/] *)
Definition indentTicksRestRe : re :=
  seqs [Bol; Group 1 (Star true ws); Group 2 (plus true tick);
        Group 3 (Star true dot); Eol].

(** The object built for a fence line: [{index, length, info, raw}]. *)
Record Fence := mkFence
  { f_index : nat; f_length : nat; f_info : str; f_raw : str }.

(** [{start, end, fenceLength}] *)
Record Block := mkBlock
  { b_start : nat; b_end : nat; b_fenceLength : nat }.

(** The callback of [lines.map] in the fence scan. *)
Definition fenceOf (idx : nat) (line : str) : option Fence :=
  let trimmed := trim line in
  if negb (startsWith (ticks 3) trimmed) then None
  else match search fenceRe trimmed with
       | None => None
       | Some (_, m) =>
           Some (mkFence idx (length (group 1 m)) (trim (group 2 m)) line)
       end.

(** [lines.map(...).filter(Boolean)] *)
Definition scanFences (lines : list str) : list Fence :=
  omap (fun o : option Fence => o) (imap fenceOf lines).

(** One iteration of the pairing loop over [fenceLines]; the state is
    [(blocks, currentBlockStartFence)]. *)
Definition pairStep (st : list Block * option Fence) (fence : Fence)
  : list Block * option Fence :=
  let '(blocks, current) := st in
  match current with
  | None => (blocks, Some fence)
  | Some c =>
      if (f_length c <=? f_length fence) && isEmpty (f_info fence)
      then (blocks ++ [mkBlock (f_index c) (f_index fence) (f_length c)], None)
      else (blocks, Some c)
  end.

Definition pairFences (fenceLines : list Fence) : list Block * option Fence :=
  fold_left pairStep fenceLines ([], None).

(** Step 2.5, entered with a dangling opener [c].  [inl lines'] is
    [changesMade = true; continue]; [inr blocks'] falls through to the
    later steps.  Here and below [lines[i]] is read and assigned at the
    index of a fence line only, which is within the array, so that the
    reading is never [undefined] and the assignment never extends the
    array. *)
Definition unclosedStep (lines : list str) (fenceLines : list Fence)
    (blocks : list Block) (c : Fence) : list str + list Block :=
  let nextFence :=
    find (fun f => (f_index c <? f_index f) && isEmpty (f_info f)
                   && (f_length c <=? f_length f)) fenceLines in
  match nextFence with
  | Some nf =>
      if f_length nf <? f_length c then
        let endLine := nth (f_index nf) lines [] in
        let endIndent :=
          match search indentTicksRe endLine with
          | Some (_, m) => group 1 m
          | None => []
          end in
        inl (<[f_index nf := endIndent ++ ticks (f_length c)]> lines)
      else
        inr (blocks ++ [mkBlock (f_index c) (f_index nf) (f_length c)])
  | None =>
      let startLine := nth (f_index c) lines [] in
      let indent :=
        match search indentRe startLine with
        | Some (_, m) => group 1 m
        | None => []
        end in
      inl (lines ++ [indent ++ ticks (f_length c)])
  end.

(** The two assignments shared by steps 3 and 4: the opener at [start]
    becomes [indent + fence + info], the line at [other] becomes
    [endIndent + fence].  [None] when [startMatch] is null. *)
Definition widen (lines : list str) (start other newLength : nat)
  : option (list str) :=
  let startLine := nth start lines [] in
  match search indentTicksRestRe startLine with
  | None => None
  | Some (_, m) =>
      let indent := group 1 m in
      let info := group 3 m in
      let lines1 := <[start := indent ++ ticks newLength ++ info]> lines in
      let endLine := nth other lines1 [] in
      let endIndent :=
        match search indentTicksRe endLine with
        | Some (_, m') => group 1 m'
        | None => indent
        end in
      Some (<[other := endIndent ++ ticks newLength]> lines1)
  end.

(** Step 3 (fragmentation): the loop over [blocks], from the block it has
    reached; [Some lines'] is the [break] after a rewrite. *)
Fixpoint fragmentationLoop (lines : list str) (fenceLines : list Fence)
    (blocks todo : list Block) : option (list str) :=
  match todo with
  | [] => None
  | block :: todo' =>
      match find (fun f => b_end block <? f_index f) fenceLines with
      | None => fragmentationLoop lines fenceLines blocks todo'
      | Some nextFence =>
          let isNextFenceStart :=
            existsb (fun b => b_start b =? f_index nextFence) blocks in
          let contentBetween :=
            trim (concat (slice (b_end block + 1) (f_index nextFence) lines)) in
          if (negb isNextFenceStart || isEmpty contentBetween)
             && isEmpty (f_info nextFence)
          then
            match widen lines (b_start block) (f_index nextFence)
                        (b_fenceLength block + 1) with
            | Some lines' => Some lines'
            | None => fragmentationLoop lines fenceLines blocks todo'
            end
          else fragmentationLoop lines fenceLines blocks todo'
      end
  end.

(** The inner loop of step 4: the longest info-less fence among the
    lines [j], [start < j < end]. *)
Definition innerTicks (line : str) : nat :=
  match search fence3Re (trim line) with
  | Some (_, m) => if isEmpty (trim (group 2 m)) then length (group 1 m) else 0
  | None => 0
  end.

Definition maxInnerBackticks (lines : list str) (block : Block) : nat :=
  fold_left (fun m line => Nat.max m (innerTicks line))
            (slice (b_start block + 1) (b_end block) lines) 0.

(** Step 4 (nested backticks). *)
Fixpoint nestedLoop (lines : list str) (todo : list Block) : option (list str) :=
  match todo with
  | [] => None
  | block :: todo' =>
      let inner := maxInnerBackticks lines block in
      if b_fenceLength block <=? inner then
        match widen lines (b_start block) (b_end block) (inner + 1) with
        | Some lines' => Some lines'
        | None => nestedLoop lines todo'
        end
      else nestedLoop lines todo'
  end.

(** The body of the [for (pass ...)] loop: the new [lines] and
    [changesMade]. *)
Definition repairPass (lines : list str) : list str * bool :=
  let fenceLines := scanFences lines in
  let '(blocks, current) := pairFences fenceLines in
  let afterUnclosed :=
    match current with
    | Some c => unclosedStep lines fenceLines blocks c
    | None => inr blocks
    end in
  match afterUnclosed with
  | inl lines' => (lines', true)
  | inr blocks' =>
      match fragmentationLoop lines fenceLines blocks' blocks' with
      | Some lines' => (lines', true)
      | None =>
          match nestedLoop lines blocks' with
          | Some lines' => (lines', true)
          | None => (lines, false)
          end
      end
  end.

(** [for (let pass = 0; pass < n; pass++)] from the state
    [(lines, changesMade)]; a pass that changed nothing leaves the loop by
    the final [break].  The result is the state at the loop's exit. *)
Fixpoint repairLoop (n : nat) (lines : list str) (changesMade : bool)
  : list str * bool :=
  match n with
  | 0 => (lines, changesMade)
  | S n' =>
      let '(lines', changed) := repairPass lines in
      if changed then repairLoop n' lines' true else (lines', false)
  end.

Definition repairMarkdown (content : str) : str :=
  if negb (includes (ticks 3) content) then content
  else join [NL] (fst (repairLoop 3 (splitOn NL content) false)).

End Markdown.
Import Markdown.

(** ** The diagram sanitizer ([diagram-utils.ts]) *)

Module Diagram.
Import Regex.

Definition LT : char := 60%N.
Definition GT : char := 62%N.
Definition SQUOTE : char := 39%N.
Definition BACKSLASH : char := 92%N.
Definition SLASH : char := 47%N.

(** [{ valid: boolean; error?: string }] *)
Record Validation := mkValidation { valid : bool; error : option str }.

Definition validTypes : list str :=
  map lit ["graph"; "flowchart"; "sequenceDiagram"; "classDiagram";
           "stateDiagram"; "erDiagram"; "gantt"]%string.

(** Nothing in the [try] block throws, so the [catch] is not modelled. *)
Definition validateMermaidSyntax (code : str) : Validation :=
  let trimmed := trim code in
  if isEmpty trimmed then mkValidation false (Some (lit "Empty diagram code"))
  else
    let hasValidType := existsb (fun type => includes type trimmed) validTypes in
    if negb hasValidType
    then mkValidation false (Some (lit "Invalid or missing diagram type"))
    else mkValidation true None.

(** The replacement callbacks ['']  and [' ']. *)
Definition nothing : str -> caps -> str := fun _ _ => [].
Definition space : str -> caps -> str := fun _ _ => [SPACE].

(** [/<[^>]*>/] *)
Definition tagRe : re := seqs [chr LT; Star true (noneOf [GT]); chr GT].

(** The class [a-zA-Z0-9] *)
Definition isAlnum (c : char) : bool :=
  inRange 97 122 c || inRange 65 90 c || inRange 48 57 c.

(** The class [a-zA-Z0-9 .,;:!?()\-_] *)
Definition isSafe (c : char) : bool :=
  isAlnum c || inClass (lit " .,;:!?()-_") c.

(** The chain of [.replace] calls of the source, then [.trim()]. *)
Definition sanitizeMermaidText (text : str) : str :=
  let s1 := replaceAll tagRe space text in
  let s2 := replaceAll (Chr (inClass [BACKTICK; DQUOTE; SQUOTE; LT; GT])) nothing s1 in
  let s3 := replaceAll (Chr (inClass [BACKSLASH; SLASH])) space s2 in
  let s4 := replaceAll (Chr (inClass [NL; TAB])) space s3 in
  let s5 := replaceAll (Chr (fun c => negb (isSafe c))) nothing s4 in
  let s6 := replaceAll (plus true ws) space s5 in
  trim s6.

(** [line.indexOf('%%')] and [line.substring(0, commentIndex)] *)
Fixpoint stripComment (line : str) : str :=
  match line with
  | [] => []
  | c :: line' =>
      if startsWith (lit "%%") line then [] else c :: stripComment line'
  end.

(** [s.split(/\s+/)] *)
Fixpoint splitSpaces (inRun : bool) (s : str) : list str :=
  match s with
  | [] => [[]]
  | c :: s' =>
      if isSpace c then
        if inRun then splitSpaces true s' else [] :: splitSpaces true s'
      else
        match splitSpaces false s' with
        | [] => [[c]]
        | w :: ws => (c :: w) :: ws
        end
  end.

(** [s.replace(';', '')]: the first occurrence only. *)
Fixpoint removeFirst (x : char) (s : str) : str :=
  match s with
  | [] => []
  | c :: s' => if (c =? x)%N then s' else c :: removeFirst x s'
  end.

(** [s.replace(/;$/, '')] *)
Definition dropFinalSemicolon (s : str) : str :=
  replaceFirst (Seq (chr 59%N) Eol) nothing s.

Definition endsWith (p s : str) : bool := startsWith (rev p) (rev s).

(** [/^(graph|flowchart)\s/] *)
Definition graphDecl : re :=
  seqs [Bol; Group 1 (Alt (text (lit "graph")) (text (lit "flowchart"))); ws].

Definition arrowPatterns : list re :=
  [ text (lit "-->"); text (lit "---"); text (lit ".->"); text (lit "==>");
    text (lit "--") ].

(** [/(\||[=-]+>?\||[.-]+>?\|)\s*(?!\x22|\x27)(.*?)\s*(\|)/g]; here and
    below [\x22] stands for the double quote of the source and [\x27] for
    the single quote. *)
Definition pipeLabel : re :=
  let bar := chr 124%N in
  seqs [ Group 1 (alts bar
                    [ seqs [plus true (oneOf "=-"); opt (chr GT); bar];
                      seqs [plus true (oneOf ".-"); opt (chr GT); bar] ]);
         Star true ws;
         NotAhead (Alt (chr DQUOTE) (chr SQUOTE));
         Group 2 (Star false dot);
         Star true ws;
         Group 3 bar ].

(** [/(--+|\.\.+|==+)\s+(?!\x22|\x27)(.+?)\s+(--+>?|\.\.+>?|==+>?)/g] *)
Definition spaceLabel : re :=
  let dash := chr 45%N in
  let period := chr 46%N in
  let equal := chr 61%N in
  seqs [ Group 1 (alts (Seq dash (plus true dash))
                       [ Seq period (plus true period);
                         Seq equal (plus true equal) ]);
         plus true ws;
         NotAhead (Alt (chr DQUOTE) (chr SQUOTE));
         Group 2 (plus false dot);
         plus true ws;
         Group 3 (alts (seqs [dash; plus true dash; opt (chr GT)])
                       [ seqs [period; plus true period; opt (chr GT)];
                         seqs [equal; plus true equal; opt (chr GT)] ]) ].

(** [/(-->|\.->|==>)\s*\x22([^\x22]+)\x22(?!\s*[)\]}>]|\s*--|\s*\.\.|\s*==)/g] *)
Definition bareLabel : re :=
  seqs [ Group 1 (alts (text (lit "-->")) [text (lit ".->"); text (lit "==>")]);
         Star true ws;
         chr DQUOTE;
         Group 2 (plus true (noneOf [DQUOTE]));
         chr DQUOTE;
         NotAhead (alts (Seq (Star true ws) (oneOf ")]}>"))
                        [ Seq (Star true ws) (text (lit "--"));
                          Seq (Star true ws) (text (lit ".."));
                          Seq (Star true ws) (text (lit "==")) ]) ].

(** The table [shapes]: [o] and [c] are the brackets written out; the
    fields [start] and [end] of the source are the same brackets, escaped
    for [new RegExp]. *)
Definition shapes : list (str * str) :=
  [ (lit "[(", lit ")]");               (* Database *)
    (lit "[[", lit "]]");               (* Subroutine *)
    (lit "((", lit "))");               (* Circle *)
    (lit "{{", lit "}}");               (* Hexagon *)
    (lit "[/", lit "/]");               (* Parallelogram *)
    (lit "[\", lit "\]");               (* Parallelogram alt *)
    (lit "[/", lit "\]");               (* Trapezoid *)
    (lit "[\", lit "/]");               (* Trapezoid alt *)
    (lit "(", lit ")");                 (* Round *)
    (lit "[", lit "]");                 (* Square *)
    (lit "{", lit "}");                 (* Rhombus *)
    (lit ">", lit "]") ]%string.        (* Asymmetric *)

(** [[\w-]] *)
Definition isIdChar (c : char) : bool := isWord c || (c =? 45)%N.

(** [new RegExp(`([\\w-]+)\\s*${shape.start}(${quantifier})${shape.end}`, 'g')] *)
Definition shapeRe (greedy : bool) (shape : str * str) : re :=
  seqs [ Group 1 (plus true (Chr isIdChar));
         Star true ws;
         text (fst shape);
         Group 2 (Star greedy dot);
         text (snd shape) ].

(** [/^([\w-]+)\s+(.+)$/] *)
Definition idLabel : re :=
  seqs [ Bol; Group 1 (plus true (Chr isIdChar)); plus true ws;
         Group 2 (plus true dot); Eol ].

Definition quoted (s : str) : str := DQUOTE :: s ++ [DQUOTE].

Definition isDirective (trimmed : str) : bool :=
  startsWith (lit "classDef") trimmed
  || startsWith (lit "class ") trimmed
  || startsWith (lit "click ") trimmed
  || startsWith (lit "style ") trimmed
  || startsWith (lit "linkStyle ") trimmed.

(** The edge-label rewrites made when the line has an arrow. *)
Definition fixEdgeLabels (trimmed : str) : str :=
  let t1 :=
    replaceAll pipeLabel
      (fun m c =>
         if isEmpty (trim (group 2 c)) then m
         else group 1 c ++ quoted (sanitizeMermaidText (group 2 c)) ++ group 3 c)
      trimmed in
  let t2 :=
    replaceAll spaceLabel
      (fun m c =>
         if isEmpty (trim (group 2 c)) then m
         else if test (oneOf "[({") (group 2 c) then m
         else group 1 c ++ [SPACE] ++ quoted (sanitizeMermaidText (group 2 c))
                        ++ [SPACE] ++ group 3 c)
      t1 in
  replaceAll bareLabel
    (fun m c =>
       let label := group 2 c in
       let nodeId :=
         lit "N" ++ take 10 (replaceAll (Chr (fun x => negb (isAlnum x))) nothing
                                        (sanitizeMermaidText label)) in
       let safeLabel := sanitizeMermaidText label in
       group 1 c ++ [SPACE] ++ nodeId ++ lit "[" ++ quoted safeLabel ++ lit "]")
    t2.

(** One turn of the loop over [shapes]. *)
Definition fixShape (hasArrow : bool) (processedLine : str) (shape : str * str) : str :=
  replaceAll (shapeRe (negb hasArrow) shape)
    (fun m c =>
       let text := trim (group 2 c) in
       let text :=
         if startsWith [DQUOTE] text && endsWith [DQUOTE] text
         then slice 1 (length text - 1) text else text in
       group 1 c ++ fst shape ++ quoted (sanitizeMermaidText text) ++ snd shape)
    processedLine.

(** The callback of [lines.map] in step 3. *)
Definition processLine (line : str) : str :=
  let trimmed := trim line in
  if isEmpty trimmed then []
  else if isDirective trimmed then trimmed
  else if startsWith (lit "subgraph ") trimmed then
    let title := trim (drop 9 trimmed) in
    if negb (startsWith [DQUOTE] title)
    then lit "subgraph " ++ quoted (sanitizeMermaidText title)
    else trimmed
  else if test graphDecl trimmed then
    let trimmed := dropFinalSemicolon trimmed in
    let parts := splitSpaces false trimmed in
    let type := nth 0 parts [] in
    let dir := match parts !! 1 with
               | Some (c :: d) => c :: d
               | _ => lit "TD"
               end in
    let cleanDir := removeFirst 59%N dir in
    let validDirs := map lit ["TB"; "TD"; "BT"; "RL"; "LR"]%string in
    let safeDir := if existsb (eqb cleanDir) validDirs then cleanDir else lit "TD" in
    type ++ [SPACE] ++ safeDir
  else
    let hasArrow := existsb (fun pattern => test pattern trimmed) arrowPatterns in
    let trimmed := if hasArrow then fixEdgeLabels trimmed else trimmed in
    let processedLine := fold_left (fixShape hasArrow) shapes trimmed in
    let fallback :=
      if eqb processedLine trimmed && negb hasArrow then
        match search idLabel trimmed with
        | Some (_, c) =>
            let id := group 1 c in
            let label := trim (group 2 c) in
            if negb (eqb id (lit "end"))
            then Some (id ++ lit "[" ++ quoted (sanitizeMermaidText label) ++ lit "]")
            else None
        | None => None
        end
      else None in
    match fallback with
    | Some out => out
    | None => processedLine
    end.

(** [code.replace(/\r\n/g, '\n')] *)
Definition normalizeNewlines (s : str) : str :=
  replaceAll (text [CR; NL]) (fun _ _ => [NL]) s.

(** The array [processedLines] of the source. *)
Definition processedLines (code : str) : list str :=
  let sanitized := normalizeNewlines code in
  let sanitized := join [NL] (map stripComment (splitOn NL sanitized)) in
  let lines := splitOn NL sanitized in
  map processLine lines.

Definition sanitizeMermaidCode (code : str) : str :=
  join [NL] (List.filter (fun l => negb (isEmpty l)) (processedLines code)).

(** The graph description that arrives as JSON.  A field that may be
    absent, or that the code tests for being absent, is an [option]. *)
Record MermaidNode := mkNode
  { n_id : str; n_label : option str; n_shape : option str }.

Record MermaidEdge := mkEdge
  { e_from : str; e_to : str; e_label : option str; e_type : option str }.

Record MermaidDiagramData := mkData
  { d_title : option str;
    d_direction : option str;
    d_nodes : option (list MermaidNode);
    d_edges : option (list MermaidEdge) }.

(** The value of [text] as a condition: a string that is there and not
    empty. *)
Definition truthy (text : option str) : bool :=
  match text with
  | Some (_ :: _) => true
  | _ => false
  end.

(** [text ? text.replace(/[\x22\n\r]/g, ' ').trim() : ''] *)
Definition cleanLabel (text : option str) : str :=
  match text with
  | Some (c :: t) => trim (replaceAll (Chr (inClass [DQUOTE; NL; CR])) space (c :: t))
  | _ => []
  end.

(** [id.replace(/[^a-zA-Z0-9]/g, '_')] *)
Definition cleanId (id : str) : str :=
  replaceAll (Chr (fun c => negb (isAlnum c))) (fun _ _ => [95%N]) id.

Definition getShape (id : str) (label : option str) (shape : option str) : str :=
  let safeId := cleanId id in
  let clean := cleanLabel (if truthy label then label else Some safeId) in
  let named name := match shape with Some s => eqb s (lit name) | None => false end in
  if named "rounded"%string then safeId ++ lit "(" ++ quoted clean ++ lit ")"
  else if named "circle"%string then safeId ++ lit "((" ++ quoted clean ++ lit "))"
  else if named "diamond"%string then safeId ++ lit "{" ++ quoted clean ++ lit "}"
  else if named "database"%string then safeId ++ lit "[(" ++ quoted clean ++ lit ")]"
  else if named "cloud"%string then safeId ++ lit "((" ++ quoted clean ++ lit "))"
  else if named "hexagon"%string then safeId ++ lit "{{" ++ quoted clean ++ lit "}}"
  else safeId ++ lit "[" ++ quoted clean ++ lit "]".

Definition getEdge (type : option str) (label : option str) : str :=
  let clean := if truthy label then cleanLabel label else [] in
  let labelPart := if isEmpty clean then [] else lit "|" ++ quoted clean ++ lit "|" in
  let named name := match type with Some s => eqb s (lit name) | None => false end in
  if named "dotted"%string then lit "-.->" ++ labelPart
  else if named "thick"%string then lit "==>" ++ labelPart
  else if named "line"%string then lit "---" ++ labelPart
  else lit "-->" ++ labelPart.

(** The array [lines] of [generateMermaidFromJSON]. *)
Definition generatedLines (data : MermaidDiagramData) : list str :=
  let direction := default (lit "TD") (d_direction data) in
  let nodes := default [] (d_nodes data) in
  let edges := default [] (d_edges data) in
  [lit "graph " ++ direction]
  ++ map (fun n => lit "  " ++ getShape (n_id n) (n_label n) (n_shape n)) nodes
  ++ map (fun e => lit "  " ++ cleanId (e_from e) ++ [SPACE]
                   ++ getEdge (e_type e) (e_label e) ++ [SPACE] ++ cleanId (e_to e))
         edges.

Definition generateMermaidFromJSON (data : MermaidDiagramData) : str :=
  join [NL] (generatedLines data).

End Diagram.
Import Regex Diagram.
(** ** The fallback templates and the diagram type ([diagram-utils.ts]) *)

Module Templates.
Import Regex Diagram.

(** [x || d] for a string [x] that may be [undefined]. *)
Definition orElse (x : option str) (d : str) : str :=
  match x with
  | Some (c :: t) => c :: t
  | _ => d
  end.

(** [/[\x22\x27`<>]/g] *)
Definition quoteRe : re := Chr (inClass [DQUOTE; SQUOTE; BACKTICK; LT; GT]).

(** The callback of [components.map] in [basicFlow].  Its last class,
    [[^a-zA-Z0-9 .,;:!?()\_-]], is the complement of the one of
    [sanitizeMermaidText]. *)
Definition sanitizeComponent (c : str) : str :=
  trim (replaceAll (Chr (fun x => negb (isSafe x))) nothing
          (replaceAll (Chr (inClass [BACKSLASH; SLASH])) space
             (replaceAll quoteRe nothing c))).

(** [templates.basicFlow] *)
Definition basicFlow (components : list str) : str :=
  let sanitized :=
    List.filter (fun c => 0 <? length c) (map sanitizeComponent components) in
  let sanitized :=
    if length sanitized =? 0 then sanitized ++ map lit ["Start"; "Process"; "End"]%string
    else sanitized in
  lit "graph TD" ++ [NL]
  ++ join [NL] (imap (fun i c => lit "  N" ++ decimal i ++ lit "[" ++ quoted c ++ lit "]")
                     sanitized)
  ++ [NL]
  ++ join [NL] (imap (fun i _ => lit "  N" ++ decimal i ++ lit " --> N" ++ decimal (i + 1))
                     (slice 0 (length sanitized - 1) sanitized)).

(** The helper [clean] of [layeredArch]. *)
Definition clean (s : str) : str :=
  trim (replaceAll (Chr (fun x => negb (isAlnum x || (x =? SPACE)%N))) space
          (replaceAll quoteRe nothing s)).

(** [templates.layeredArch] *)
Definition layeredArch (layers : list str) : str :=
  join [NL]
    [ lit "graph TB";
      lit "  subgraph Frontend";
      lit "    UI[" ++ quoted (clean (orElse (layers !! 0) (lit "User Interface"))) ++ lit "]";
      lit "  end";
      lit "  subgraph Backend";
      lit "    API[" ++ quoted (clean (orElse (layers !! 1) (lit "API Layer"))) ++ lit "]";
      lit "  end";
      lit "  subgraph Data";
      lit "    DB[" ++ quoted (clean (orElse (layers !! 2) (lit "Database"))) ++ lit "]";
      lit "  end";
      lit "  UI --> API";
      lit "  API --> DB" ].

(** [{ name: string; deps?: string[] }] *)
Record Component := mkComponent { c_name : str; c_deps : option (list str) }.

(** [s.replace(/[^a-zA-Z0-9]/g, '_')] *)
Definition underscored (s : str) : str :=
  replaceAll (Chr (fun c => negb (isAlnum c))) (fun _ _ => [95%N]) s.

(** [templates.componentDiagram]: the template starts with a line break
    and ends with a line of two spaces. *)
Definition componentDiagram (components : list Component) : str :=
  [NL] ++ lit "graph LR" ++ [NL]
  ++ join [NL] (map (fun c => lit "  " ++ underscored (c_name c)
                              ++ lit "[" ++ quoted (c_name c) ++ lit "]")
                    components)
  ++ [NL]
  ++ join [NL] (flat_map (fun c =>
                            map (fun d => lit "  " ++ underscored (c_name c)
                                          ++ lit " --> " ++ underscored d)
                                (default [] (c_deps c)))
                         components)
  ++ [NL] ++ lit "  ".

(** [templates.serviceArch] *)
Definition serviceArch : str :=
  join [NL]
    [ [];
      lit "graph TB";
      lit "  Client[" ++ quoted (lit "Client/Browser") ++ lit "]";
      lit "  LB[" ++ quoted (lit "Load Balancer") ++ lit "]";
      lit "  App1[" ++ quoted (lit "App Server 1") ++ lit "]";
      lit "  App2[" ++ quoted (lit "App Server 2") ++ lit "]";
      lit "  Cache[" ++ quoted (lit "Redis Cache") ++ lit "]";
      lit "  DB[" ++ quoted (lit "Database") ++ lit "]";
      lit "  ";
      lit "  Client --> LB";
      lit "  LB --> App1";
      lit "  LB --> App2";
      lit "  App1 --> Cache";
      lit "  App2 --> Cache";
      lit "  App1 --> DB";
      lit "  App2 --> DB";
      lit "  " ].

(** [/(graph|flowchart|sequenceDiagram|classDiagram|stateDiagram|erDiagram|gantt)/] *)
Definition diagramTypeRe : re :=
  Group 1 (alts (text (lit "graph"))
                (map (fun t => text (lit t))
                     ["flowchart"; "sequenceDiagram"; "classDiagram";
                      "stateDiagram"; "erDiagram"; "gantt"]%string)).

Definition extractDiagramType (code : str) : str :=
  match search diagramTypeRe code with
  | Some (_, m) => group 1 m
  | None => lit "unknown"
  end.

(** [getFallbackTemplate].  [String.prototype.toLowerCase] follows the
    case mappings of Unicode; the function is taken as it is, and what is
    proved of [getFallbackTemplate] holds whatever it returns. *)
Section Fallback.

Variable toLowerCase : str -> str.

Definition getFallbackTemplate (context : option str) : str :=
  match context with
  | Some (c :: t) =>
      let lower := toLowerCase (c :: t) in
      if includes (lit "layer") lower || includes (lit "tier") lower
      then layeredArch (map lit ["Frontend"; "Backend"; "Database"]%string)
      else if includes (lit "service") lower || includes (lit "microservice") lower
      then serviceArch
      else if includes (lit "component") lower || includes (lit "dependency") lower
      then componentDiagram
             [ mkComponent (lit "Component A") (Some [lit "Component B"]);
               mkComponent (lit "Component B") (Some [lit "Component C"]);
               mkComponent (lit "Component C") (Some []) ]
      else basicFlow (map lit ["Start"; "Process"; "End"]%string)
  | _ => basicFlow (map lit ["Start"; "Process"; "End"]%string)
  end.

End Fallback.

End Templates.
Import Templates.
(** ** The components that call the two libraries

    [MessageContent] of [ChatInterface.tsx] repairs the markdown of a
    message and chooses, for each code element, what displays it; the
    [Mermaid] component names the diagram by a hash of its source,
    sanitizes and validates the source, and cleans the error message of a
    failed rendering. *)

Module View.
Import Regex Diagram Templates.

(** [/language-(\w+)/] *)
Definition languageRe : re :=
  Seq (text (lit "language-")) (Group 1 (plus true (Chr isWord))).

(** [String(children).replace(/\n$/, '')] *)
Definition dropFinalNewline (children : str) : str :=
  replaceFirst (Seq (chr NL) Eol) nothing children.

(** What the [code] renderer returns: the [Mermaid] component for a
    chart, the branch that parses the content as JSON and gives the
    generated chart to [Mermaid], a [CodeBlock], or the inline [code]
    element. *)
Inductive CodeView : Type :=
  | MermaidChart (chart : str)
  | MermaidJson (jsonContent : str)
  | CodeBlock (language value : str)
  | InlineCode (children : str).

Definition codeView (className : option str) (children : str) : CodeView :=
  let found := search languageRe (orElse className []) in
  let isMermaid :=
    match found with
    | Some (_, m) => eqb (group 1 m) (lit "mermaid")
    | None => false
    end in
  let isMermaidJson :=
    match found with
    | Some (_, m) => eqb (group 1 m) (lit "mermaid-json")
    | None => false
    end in
  if isMermaid then MermaidChart (dropFinalNewline children)
  else if isMermaidJson then MermaidJson (dropFinalNewline children)
  else match found with
       | Some (_, m) => CodeBlock (group 1 m) (dropFinalNewline children)
       | None => InlineCode children
       end.

(** The body of the loop over the code units of [chart]:
    [hash = ((hash << 5) - hash) + char; hash = hash & hash]. *)
Definition hashStep (hash : Z) (char : char) : Z :=
  let hash := (toInt32 (toInt32 hash * 2 ^ 5) - hash + Z.of_N char)%Z in
  Z.land (toInt32 hash) (toInt32 hash).

Definition chartHash (chart : str) : Z := fold_left hashStep chart 0%Z.

(** [`mermaid-${Math.abs(hash).toString(36)}`] *)
Definition chartId (chart : str) : str :=
  lit "mermaid-" ++ toStringRadix 36 (Z.to_N (Z.abs (chartHash chart))).

(** The message shown when the rendering fails; [message] is
    [renderError.message]. *)
Definition sanitizedError (message : option str) : str :=
  let errorMessage := orElse message (lit "Syntax error in diagram") in
  let isInternalError :=
    includes (lit "dmermaid") errorMessage
    || includes (lit "#") errorMessage
    || startsWith (lit "Parse error") errorMessage in
  if isInternalError then lit "Syntax error in diagram" else errorMessage.

(** Layer 1 of [renderDiagram], after the detection of JSON content:
    the code given to [mermaid.render] and the outcome of the validation,
    which is only logged. *)
Definition layer1 (codeToRender : str) : str * Validation :=
  let sanitized := sanitizeMermaidCode codeToRender in
  (sanitized, validateMermaidSyntax sanitized).

End View.
Import View.
(** ** The chat export

    The export of a conversation as a markdown file: the charts of the
    messages are turned into images, by the renderer and by the converter
    of JSON charts that the chat components pass
    ([generateMermaidFromJSON] after [JSON.parse]), and the messages are
    laid out under numbered headings. *)

Module ChatExport.
Import Regex Diagram Templates.

(** The class [[a-z0-9._-]] under the flag [i].  Without the flag [u] the
    canonicalisation of the flag [i] takes [a]-[z] to [A]-[Z] and no code
    unit outside ASCII to one inside, so the class holds the ASCII
    letters of both cases, the digits and the three signs. *)
Definition isFilenameChar (c : char) : bool := isAlnum c || inClass (lit "._-") c.

(** [label.replace(/[^a-z0-9._-]+/gi, '-')] *)
Definition sanitizeFilenameLabel (label : str) : str :=
  replaceAll (plus true (Chr (fun c => negb (isFilenameChar c))))
             (fun _ _ => lit "-") label.

(** [buildChatExportFilename]; [exportedAt] stands for
    [exportedAt.toISOString()], the only use made of the date. *)
Definition buildChatExportFilename (label exportedAt : str) : str :=
  let safeLabel := sanitizeFilenameLabel label in
  let stamp := replaceAll (Chr (inClass (lit ":."))) (fun _ _ => lit "-") exportedAt in
  safeLabel ++ lit "-chat-export-" ++ stamp ++ lit ".md".

(** [/```(mermaid|mermaid-json)\n([\s\S]*?)```/g] *)
Definition chartPattern : re :=
  seqs [ text (ticks 3);
         Group 1 (Alt (text (lit "mermaid")) (text (lit "mermaid-json")));
         chr NL;
         Group 2 (Star false (Chr (fun _ => true)));
         text (ticks 3) ].

(** [pattern.exec(content)] for a pattern with the flag [g] whose
    [lastIndex] is [pos]; [s] is [content] from [pos] on.  The result is
    the text in front of the match, the match, the captures and the text
    behind the match. *)
Fixpoint execFrom (r : re) (s : str) (pos : nat) : option (str * str * caps * str) :=
  match matchAt r s pos with
  | Some (n, c) => Some ([], take n s, c, drop n s)
  | None =>
      match s with
      | [] => None
      | x :: s' =>
          match execFrom r s' (S pos) with
          | Some (skipped, m, c, rest) => Some (x :: skipped, m, c, rest)
          | None => None
          end
      end
  end.

Section Convert.

(** The renderer and the converter given in [options].  [None] is a
    rejected promise for the first and [null] for the second; the field
    [convertMermaidJson] may be absent. *)
Variable renderMermaid : str -> str -> option str.
Variable convertMermaidJson : option (str -> option str).

(** [Date.now()], as it is written into the identifier of the chart
    numbered [index], and [encodeURIComponent], which throws on a lone
    surrogate. *)
Variable now : nat -> str.
Variable encodeURIComponent : str -> option str.

(** The [try] block: the image written for a chart, [None] when the
    block throws. *)
Definition chartImage (mermaidCode : str) (index : nat) : option str :=
  match renderMermaid mermaidCode
          (lit "export-" ++ now index ++ lit "-" ++ decimal index) with
  | Some svg =>
      match encodeURIComponent svg with
      | Some encoded =>
          let dataUri := lit "data:image/svg+xml;utf8," ++ encoded in
          Some (lit "![Mermaid chart " ++ decimal (index + 1) ++ lit "]("
                ++ dataUri ++ lit ")")
      | None => None
      end
  | None => None
  end.

(** The [while] loop, from the state [(result, lastIndex, index)];
    [rest] is [content] from [lastIndex] on.  [None] stands for a loop
    that does not end, which is what a match of no length would cause. *)
Fixpoint convertLoop (fuel : nat) (rest : str) (lastIndex index : nat) (result : str)
  : option str :=
  match fuel with
  | 0 => None
  | S fuel' =>
      match execFrom chartPattern rest lastIndex with
      | None => Some (result ++ rest)
      | Some (skipped, block, m, rest') =>
          let language := group 1 m in
          let code := group 2 m in
          let result := result ++ skipped in
          let lastIndex := lastIndex + length skipped + length block in
          let mermaidCode := trim code in
          let toRender :=
            if eqb language (lit "mermaid-json") then
              match convertMermaidJson with
              | Some convert =>
                  match convert mermaidCode with
                  | Some (c :: t) => Some (c :: t)
                  | _ => None
                  end
              | None => None
              end
            else Some mermaidCode in
          match toRender with
          | None => convertLoop fuel' rest' lastIndex index (result ++ block)
          | Some mermaidCode =>
              let result :=
                match chartImage mermaidCode index with
                | Some image => result ++ image
                | None => result ++ block
                end in
              convertLoop fuel' rest' lastIndex (index + 1) result
          end
      end
  end.

Definition convertChartsToImages (content : str) : option str :=
  convertLoop (S (length content)) content 0 0 [].

End Convert.

(** [role: 'user' | 'model'] *)
Inductive Role : Type := user | model.

(** [ExportMessage] *)
Record ExportMessage := mkMessage
  { m_role : Role; m_content : str; m_relevantFiles : option (list str) }.

(** The callback of [options.messages.forEach] in [buildChatMarkdown], on
    the state [(lines, userTurn, assistantTurn)]. *)
Definition pushMessage (st : list str * nat * nat) (message : ExportMessage)
  : list str * nat * nat :=
  let '(lines, userTurn, assistantTurn) := st in
  let '(userTurn, assistantTurn) :=
    match m_role message with
    | user => (userTurn + 1, assistantTurn)
    | model => (userTurn, assistantTurn + 1)
    end in
  let lines := lines ++ [lit "---"] in
  let lines := lines ++ [[]] in
  let lines :=
    match m_role message with
    | user => lines ++ [lit "## User Query " ++ decimal userTurn]
    | model => lines ++ [lit "## AI Response " ++ decimal assistantTurn]
    end in
  let lines := lines ++ [[]] in
  let lines :=
    lines ++ [orElse (Some (trim (m_content message))) (lit "_(empty message)_")] in
  let lines := lines ++ [[]] in
  let lines :=
    match m_relevantFiles message with
    | Some (f :: fs) =>
        let lines := lines ++ [lit "**Relevant files**"] in
        let lines := lines ++ [[]] in
        let lines :=
          fold_left (fun lines file => lines ++ [lit "- `" ++ file ++ lit "`"])
                    (f :: fs) lines in
        lines ++ [[]]
    | _ => lines
    end in
  (lines, userTurn, assistantTurn).

(** The array [lines] of [buildChatMarkdown]; [exportedAt] stands for
    [exportedAt.toISOString()]. *)
Definition chatLines (title contextLabel : str) (messages : list ExportMessage)
    (exportedAt : str) : list str :=
  let lines := [] in
  let lines := lines ++ [lit "# " ++ title] in
  let lines := lines ++ [[]] in
  let lines := lines ++ [lit "- Context: " ++ contextLabel] in
  let lines := lines ++ [lit "- Exported: " ++ exportedAt] in
  let lines := lines ++ [lit "- Messages: " ++ decimal (length messages)] in
  let lines := lines ++ [[]] in
  fst (fst (fold_left pushMessage messages (lines, 0, 0))).

Definition buildChatMarkdown (title contextLabel : str) (messages : list ExportMessage)
    (exportedAt : str) : str :=
  join [NL] (chatLines title contextLabel messages exportedAt).

End ChatExport.
Import ChatExport.
(** ** The server action that reads the input of the search box

    [fetchGitHubData] stands in [markdown-utils.ts] behind the repair
    engine.  The requests to GitHub are taken as they are: [None] is a
    request that throws. *)

Module Actions.

Section Fetch.

Variables Profile Repo Tree : Type.
Variable getProfile : str -> option Profile.
Variable getRepo : str -> str -> option Repo.
Variable getRepoFileTree : str -> str -> option Tree.

(** [{ type: 'profile', data }], [{ type: 'repo', data, fileTree }] and
    [{ error }]. *)
Inductive Fetched : Type :=
  | FetchedProfile (data : Profile)
  | FetchedRepo (data : Repo) (fileTree : Tree)
  | FetchError (error : str).

Definition fetchGitHubData (input : str) : Fetched :=
  let parts := splitOn 47%N input in
  if length parts =? 1 then
    let username := nth 0 parts [] in
    match getProfile username with
    | Some profile => FetchedProfile profile
    | None => FetchError (lit "User not found")
    end
  else if length parts =? 2 then
    let owner := nth 0 parts [] in
    let repo := nth 1 parts [] in
    match getRepo owner repo with
    | Some repoData =>
        match getRepoFileTree owner repo with
        | Some fileTree => FetchedRepo repoData fileTree
        | None => FetchError (lit "Repository not found")
        end
    | None => FetchError (lit "Repository not found")
    end
  else FetchError (lit "Invalid input format").

End Fetch.

End Actions.
Import Actions.

(** ** Vocabulary of the properties

    The notions in which the properties below are stated. *)

Module Props.

(** What [/^(`+)(.* )$/] matches: the greedy run of backticks, then the
    rest, which [.] accepts only when it holds no line terminator ([$] is
    the end of the string, there is no [m] flag). *)
Definition matchTicksRest (s : str) : option (str * str) :=
  let run := takeWhile isTick s in
  let rest := dropWhile isTick s in
  if isEmpty run then None
  else if forallb (fun c => negb (isLineTerminator c)) rest then Some (run, rest)
  else None.

(** What [/^(`{3,})(.* )$/] matches. *)
Definition matchTicks3Rest (s : str) : option (str * str) :=
  let run := takeWhile isTick s in
  let rest := dropWhile isTick s in
  if (3 <=? length run) && forallb (fun c => negb (isLineTerminator c)) rest
  then Some (run, rest) else None.

(** What [/^(\s* )/] matches: it always does. *)
Definition matchIndent (s : str) : str := takeWhile isSpace s.

(** What [/^(\s* )(`+)/] matches: the leading white space and the backtick
    run that follows it. *)
Definition matchIndentTicks (s : str) : option (str * str) :=
  let indent := takeWhile isSpace s in
  let run := takeWhile isTick (dropWhile isSpace s) in
  if isEmpty run then None else Some (indent, run).

(** What [/^(\s* )(`+)(.* )$/] matches. *)
Definition matchIndentTicksRest (s : str) : option (str * str * str) :=
  let indent := takeWhile isSpace s in
  match matchTicksRest (dropWhile isSpace s) with
  | Some (run, rest) => Some (indent, run, rest)
  | None => None
  end.

(** The final continuation of a match. *)
Definition accept : cont := fun s pos c => Some (s, pos, c).

(** What [.] accepts. *)
Definition notTerminator (c : char) : bool := negb (isLineTerminator c).

(** A greedy star over a class of code units, in front of the
    continuation [k]: the longest run first, then shorter ones. *)
Fixpoint starClass (p : char -> bool) (k : cont) (s : str) (pos : nat) (c : caps)
  : option mstate :=
  match s with
  | x :: s' =>
      if p x then
        match starClass p k s' (S pos) c with
        | Some m => Some m
        | None => k s pos c
        end
      else k s pos c
  | [] => k s pos c
  end.

(** The scan of the lines numbered from [k]. *)
Definition scanFrom (k : nat) (lines : list str) : list Fence :=
  omap (fun o : option Fence => o) (imap (fun i => fenceOf (k + i)) lines).

(** The test of the pairing loop: [fence] closes the block opened by [c]. *)
Definition closes (c fence : Fence) : bool :=
  (f_length c <=? f_length fence) && isEmpty (f_info fence).

(** A paired block runs from a fence of the list to a later fence of the
    list that closes it. *)
Definition blockIn (fl : list Fence) (b : Block) : Prop :=
  exists o c, o ∈ fl /\ c ∈ fl
    /\ f_index o = b_start b /\ f_index c = b_end b
    /\ f_length o = b_fenceLength b /\ closes o c = true
    /\ f_index o < f_index c.

(** What a repair may do to the line [l] at position [i]: nothing when it
    is not a fence line; when it is one, [l'] is a fence line with the
    same info string and the same indentation. *)
Definition sameLine (i : nat) (l l' : str) : Prop :=
  match fenceOf i l with
  | None => l' = l
  | Some f =>
      exists f', fenceOf i l' = Some f' /\ f_info f' = f_info f
                 /\ takeWhile isSpace l' = takeWhile isSpace l
  end.

(** [frame L L']: [L'] is at least as long as [L] and has, at the
    position of each line of [L], that line as a repair may leave it. *)
Definition frame (L L' : list str) : Prop :=
  length L <= length L'
  /\ forall i l, L !! i = Some l -> exists l', L' !! i = Some l' /\ sameLine i l l'.

(** No line holds a line feed. *)
Definition noNL (L : list str) : Prop := Forall (fun l => NL ∉ l) L.

(** What [.replace(/\s+/g, ' ')] returns: [inRun] says that the previous
    code unit was white space, already replaced. *)
Fixpoint collapseSpaces (inRun : bool) (s : str) : str :=
  match s with
  | [] => []
  | c :: s' =>
      if isSpace c then
        if inRun then collapseSpaces true s' else SPACE :: collapseSpaces true s'
      else c :: collapseSpaces false s'
  end.

(** What a replacement of every code unit of a class returns. *)
Definition replaceClass (p : char -> bool) (f : str -> caps -> str) (s : str) : str :=
  flat_map (fun c => if p c then f [c] [] else [c]) s.

(** No two white-space code units in a row. *)
Fixpoint noAdjacentSpaces (s : str) : bool :=
  match s with
  | [] => true
  | a :: t =>
      match t with
      | [] => true
      | b :: _ => negb (isSpace a && isSpace b) && noAdjacentSpaces t
      end
  end.

(** A letter of the ASCII alphabet, a digit or the underscore. *)
Definition isIdUnit (c : char) : bool := isAlnum c || (c =? 95)%N.

(** The brackets that [getShape] puts around the label. *)
Definition bracketsOf (shape : option str) : str * str :=
  let named name := match shape with Some s => eqb s (lit name) | None => false end in
  if named "rounded"%string then (lit "(", lit ")")
  else if named "circle"%string then (lit "((", lit "))")
  else if named "diamond"%string then (lit "{", lit "}")
  else if named "database"%string then (lit "[(", lit ")]")
  else if named "cloud"%string then (lit "((", lit "))")
  else if named "hexagon"%string then (lit "{{", lit "}}")
  else (lit "[", lit "]").

End Props.
Import Props.
(** ** Vocabulary of the further properties *)

Module Notions.

(** Every capture is made of code units that satisfy [P]. *)
Definition capsAll (P : char -> Prop) (c : caps) : Prop :=
  Forall (fun e => Forall P (snd e)) c.

(** What [.replace(/[class]+/g, y)] returns: each run of code units of
    the class becomes one [y]; [inRun] says that the previous code unit
    was of the class, already replaced. *)
Fixpoint collapseClass (p : char -> bool) (y : str) (inRun : bool) (s : str) : str :=
  match s with
  | [] => []
  | c :: s' =>
      if p c then
        if inRun then collapseClass p y true s' else y ++ collapseClass p y true s'
      else c :: collapseClass p y false s'
  end.

(** What a successful match has done when it calls its continuation [k]:
    it has read [n] code units, and the captures it has made are cut out
    of the input. *)
Definition reaches (s : str) (pos : nat) (c : caps) (k : cont) (m : mstate) : Prop :=
  exists n c', n <= length s
    /\ k (drop n s) (pos + n) c' = Some m
    /\ (forall P : char -> Prop, Forall P s -> capsAll P c -> capsAll P c').

(** The first of the words [ts] that [s] starts with. *)
Definition firstPrefix (ts : list str) (s : str) : option str :=
  find (fun t => startsWith t s) ts.

(** The leftmost occurrence of one of the words [ts] in [s]; at the same
    place, the first of the list. *)
Fixpoint firstWord (ts : list str) (s : str) : option str :=
  match firstPrefix ts s with
  | Some t => Some t
  | None =>
      match s with
      | [] => None
      | _ :: s' => firstWord ts s'
      end
  end.

(** The number that a string of digits writes in the radix [radix]. *)
Definition digitValue (c : char) : N :=
  (if c <? 58 then c - 48 else c - 87)%N.

Definition digitsValue (radix : N) (s : str) : N :=
  fold_left (fun a c => (a * radix + digitValue c)%N) s 0%N.

(** A digit or a small letter: what [toString(36)] writes. *)
Definition isBase36 (c : char) : bool := inRange 48 57 c || inRange 97 122 c.

Definition isDigit (c : char) : bool := inRange 48 57 c.

(** The longest backtick run of the fence lines. *)
Definition maxTicks (L : list str) : nat :=
  fold_right Nat.max 0 (map f_length (scanFences L)).

(** What one pass of the repair makes of the lines [L]: nothing; or one
    more line, the closer of an open fence [c]; or the two assignments of
    steps 3 and 4, to an opener [o] and to an info-less fence line [g],
    which get one backtick more than some fence line [h] has. *)
Inductive passResult (L : list str) : list str -> Prop :=
  | pass_same : passResult L L
  | pass_append c :
      c ∈ scanFences L ->
      passResult L (L ++ [takeWhile isSpace (f_raw c) ++ ticks (f_length c)])
  | pass_widen o g h indent t info :
      o ∈ scanFences L -> g ∈ scanFences L -> h ∈ scanFences L ->
      f_index o <> f_index g -> f_info g = [] ->
      matchIndentTicksRest (f_raw o) = Some (indent, t, info) ->
      passResult L
        (<[f_index g := takeWhile isSpace (f_raw g) ++ ticks (S (f_length h))]>
           (<[f_index o := indent ++ ticks (S (f_length h)) ++ info]> L)).

(** A line that is a closing fence and nothing else: white space, then
    backticks. *)
Definition closerLine (l : str) : bool :=
  negb (isEmpty (dropWhile isSpace l)) && forallb isTick (dropWhile isSpace l).

(** What follows the backtick run of a fence line. *)
Definition fenceRest (l : str) : str := dropWhile isTick (dropWhile isSpace l).

(** The fence line [l] with a run of [n] backticks in the place of its
    own: the indentation, the run, and what follows the run in [l]. *)
Definition withTicks (l : str) (n : nat) : str :=
  takeWhile isSpace l ++ ticks n ++ fenceRest l.

(** The fence line [l] as a bare fence of [n] backticks: the indentation
    and the run, without what follows the run in [l]. *)
Definition bareFence (l : str) (n : nat) : str := takeWhile isSpace l ++ ticks n.

(** What a repair makes of the line [l] at position [i].  A line that is
    not a fence line stays as it is.  A fence line stays a fence line
    with the same info string, and is [l] with another run of backticks;
    or else, for a fence line without info string only, the bare fence:
    the white space that followed the run in [l] is gone. *)
Definition repairedLine (i : nat) (l l' : str) : Prop :=
  match fenceOf i l with
  | None => l' = l
  | Some f =>
      exists f',
        fenceOf i l' = Some f' /\ f_info f' = f_info f
        /\ (l' = withTicks l (f_length f')
            \/ (f_info f = [] /\ forallb isSpace (fenceRest l) = true
                /\ l' = bareFence l (f_length f')))
  end.

(** The number of messages of the role [r] among [messages]. *)
Definition countRole (r : Role) (messages : list ExportMessage) : nat :=
  length (List.filter (fun m => match m_role m, r with
                                | user, user | model, model => true
                                | _, _ => false
                                end) messages).

(** The lines of a message in the export, under a heading with the
    number [n]. *)
Definition messageLines (n : nat) (message : ExportMessage) : list str :=
  [ lit "---";
    [];
    match m_role message with
    | user => lit "## User Query " ++ decimal n
    | model => lit "## AI Response " ++ decimal n
    end;
    [];
    orElse (Some (trim (m_content message))) (lit "_(empty message)_");
    [] ]
  ++ match m_relevantFiles message with
     | Some (f :: fs) =>
         [lit "**Relevant files**"; []]
         ++ map (fun file => lit "- `" ++ file ++ lit "`") (f :: fs) ++ [[]]
     | _ => []
     end.

(** The number of code units [x] in [s]. *)
Definition occurrences (x : char) (s : str) : nat :=
  length (List.filter (N.eqb x) s).

End Notions.
Import Notions.

(** ** Facts about strings *)

Section StringFacts.

Lemma splitOn_nonempty sep s : splitOn sep s <> [].
Proof.
  destruct s as [|c s]; simpl; [discriminate|].
  destruct (c =? sep)%N; [discriminate|].
  destruct (splitOn sep s); discriminate.
Qed.

Lemma splitOn_no_sep sep s : Forall (fun l => sep ∉ l) (splitOn sep s).
Proof.
  induction s as [|c s IH]; simpl.
  - repeat constructor. apply not_elem_of_nil.
  - destruct (N.eqb_spec c sep) as [->|Hne].
    + constructor; [apply not_elem_of_nil | exact IH].
    + destruct (splitOn sep s) as [|l ls].
      * repeat constructor. rewrite elem_of_cons, elem_of_nil. intuition congruence.
      * inversion IH; subst. constructor; [|assumption].
        rewrite elem_of_cons. intuition congruence.
Qed.

Lemma join_splitOn sep s : join [sep] (splitOn sep s) = s.
Proof.
  induction s as [|c s IH]; simpl; [reflexivity|].
  destruct (N.eqb_spec c sep) as [->|Hne].
  - pose proof (splitOn_nonempty sep s) as Hn.
    destruct (splitOn sep s) as [|l ls]; [congruence|].
    simpl. f_equal. exact IH.
  - pose proof (splitOn_nonempty sep s) as Hn.
    destruct (splitOn sep s) as [|l ls]; [congruence|].
    destruct ls as [|l' ls]; simpl in *; f_equal; exact IH.
Qed.

Lemma splitOn_line sep l : sep ∉ l -> splitOn sep l = [l].
Proof.
  induction l as [|c l IH]; intros Hn; simpl; [reflexivity|].
  rewrite elem_of_cons in Hn.
  destruct (N.eqb_spec c sep) as [->|Hne]; [tauto|].
  rewrite IH by tauto. reflexivity.
Qed.

Lemma splitOn_app_sep sep l s :
  sep ∉ l -> splitOn sep (l ++ sep :: s) = l :: splitOn sep s.
Proof.
  induction l as [|c l IH]; intros Hn; simpl.
  - rewrite N.eqb_refl. reflexivity.
  - rewrite elem_of_cons in Hn.
    destruct (N.eqb_spec c sep) as [->|Hne]; [tauto|].
    rewrite IH by tauto. reflexivity.
Qed.

Lemma splitOn_join sep ls :
  ls <> [] -> Forall (fun l => sep ∉ l) ls ->
  splitOn sep (join [sep] ls) = ls.
Proof.
  induction ls as [|l ls IH]; intros Hne Hall; [congruence|].
  inversion Hall as [|? ? Hl Hls]; subst.
  destruct ls as [|l' ls].
  - simpl. apply splitOn_line; assumption.
  - change (join [sep] (l :: l' :: ls)) with (l ++ sep :: join [sep] (l' :: ls)).
    rewrite splitOn_app_sep by assumption.
    rewrite IH; [reflexivity | discriminate | assumption].
Qed.

Lemma takeWhile_dropWhile p s : takeWhile p s ++ dropWhile p s = s.
Proof.
  induction s as [|c s IH]; simpl; [reflexivity|].
  destruct (p c); simpl; [f_equal; exact IH | reflexivity].
Qed.

Lemma takeWhile_elem p s c : c ∈ takeWhile p s -> c ∈ s.
Proof.
  intros H. rewrite <- (takeWhile_dropWhile p s). apply elem_of_app. auto.
Qed.

Lemma ticks_elem n c : c ∈ ticks n -> c = BACKTICK.
Proof.
  unfold ticks. induction n as [|n IH]; simpl.
  - intros H. apply elem_of_nil in H. destruct H.
  - rewrite elem_of_cons. intros [->|H]; auto.
Qed.

Lemma forallb_impl (p q : char -> bool) s :
  (forall c, p c = true -> q c = true) -> forallb p s = true -> forallb q s = true.
Proof.
  intros Hpq. induction s as [|c s IH]; simpl; [reflexivity|].
  intros H. apply andb_prop in H as [Hc Hs]. rewrite (Hpq _ Hc). auto.
Qed.

Lemma dropWhile_head p s c t : dropWhile p s = c :: t -> p c = false.
Proof.
  induction s as [|d s IH]; simpl; [discriminate|].
  destruct (p d) eqn:Hd; [exact IH|].
  intros H. inversion H; subst. exact Hd.
Qed.

Lemma dropWhile_keeps p s d :
  p d = false -> exists z, dropWhile p (s ++ [d]) = z ++ [d].
Proof.
  intros Hd. induction s as [|c s IH]; simpl.
  - rewrite Hd. exists []. reflexivity.
  - destruct (p c); [exact IH|]. exists (c :: s). reflexivity.
Qed.

Lemma dropWhile_fixed p s :
  match s with [] => True | c :: _ => p c = false end -> dropWhile p s = s.
Proof. destruct s as [|c s]; simpl; [reflexivity|]. intros ->. reflexivity. Qed.

Lemma startsWith_app p s b : startsWith p s = true -> startsWith p (s ++ b) = true.
Proof.
  revert s. induction p as [|c p IH]; intros s; simpl; [reflexivity|].
  destruct s as [|d s]; simpl; [discriminate|].
  intros H. apply andb_prop in H as [-> H]. simpl. auto.
Qed.

Lemma includes_suffix p a b : includes p b = true -> includes p (a ++ b) = true.
Proof.
  intros H. induction a as [|c a IH]; simpl; [exact H|].
  rewrite IH. apply orb_true_r.
Qed.

Lemma includes_prefix p a b : includes p a = true -> includes p (a ++ b) = true.
Proof.
  induction a as [|c a IH]; intros H.
  - simpl in H. rewrite orb_false_r in H.
    destruct p; [|discriminate]. destruct b; reflexivity.
  - simpl in H. apply orb_prop in H as [H|H].
    + change ((c :: a) ++ b) with (c :: (a ++ b)). simpl includes.
      change (c :: a ++ b) with ((c :: a) ++ b).
      rewrite (startsWith_app _ _ b H). reflexivity.
    + change ((c :: a) ++ b) with (c :: (a ++ b)). simpl includes.
      rewrite (IH H). apply orb_true_r.
Qed.

Lemma includes_startsWith p s : startsWith p s = true -> includes p s = true.
Proof. intros H. destruct s; simpl; rewrite H; reflexivity. Qed.

Lemma trim_inside s : exists a b, s = a ++ trim s ++ b.
Proof.
  unfold trim, trimEnd, trimStart.
  exists (takeWhile isSpace s), (rev (takeWhile isSpace (rev (dropWhile isSpace s)))).
  rewrite <- rev_app_distr, takeWhile_dropWhile, rev_involutive.
  symmetry. apply takeWhile_dropWhile.
Qed.

Lemma join_inside sep ls line :
  line ∈ ls -> exists a b, join sep ls = a ++ line ++ b.
Proof.
  induction ls as [|l ls IH]; intros Hin.
  - apply elem_of_nil in Hin. destruct Hin.
  - apply elem_of_cons in Hin as [->|Hin].
    + exists []. destruct ls as [|l' ls].
      * exists []. simpl. rewrite app_nil_r. reflexivity.
      * exists (sep ++ join sep (l' :: ls)). reflexivity.
    + destruct (IH Hin) as (a & b & Heq).
      destruct ls as [|l' ls]; [apply elem_of_nil in Hin; destruct Hin|].
      exists (l ++ sep ++ a), b.
      change (join sep (l :: l' :: ls)) with (l ++ sep ++ join sep (l' :: ls)).
      rewrite Heq, <- !app_assoc. reflexivity.
Qed.

End StringFacts.


(** ** What the regular expressions of the source compute *)

Section RegexFacts.

Lemma iterate_class p k s : forall fuel pos c,
  length s < fuel ->
  iterate (run (Chr p)) true k fuel s pos c = starClass p k s pos c.
Proof.
  induction s as [|x s IH]; intros fuel pos c Hlt;
    destruct fuel as [|fuel]; simpl in Hlt; try lia; simpl.
  - reflexivity.
  - destruct (p x); [|reflexivity].
    assert ((pos <? S pos) = true) as -> by (apply Nat.ltb_lt; lia).
    rewrite IH by lia. reflexivity.
Qed.

Lemma run_star_class p k s pos c :
  run (Star true (Chr p)) s pos c k = starClass p k s pos c.
Proof.
  change (run (Star true (Chr p)) s pos c k)
    with (iterate (run (Chr p)) true k (S (length s)) s pos c).
  apply iterate_class. lia.
Qed.

Lemma starClass_longest p k s : forall pos c m,
  k (dropWhile p s) (pos + length (takeWhile p s)) c = Some m ->
  starClass p k s pos c = Some m.
Proof.
  induction s as [|x s IH]; intros pos c m; simpl.
  - rewrite Nat.add_0_r. auto.
  - destruct (p x); simpl.
    + rewrite Nat.add_succ_r. intros H. rewrite (IH (S pos) c m H). reflexivity.
    + rewrite Nat.add_0_r. auto.
Qed.

Lemma starClass_none p k s : forall pos c,
  (forall n, n <= length (takeWhile p s) -> k (drop n s) (pos + n) c = None) ->
  starClass p k s pos c = None.
Proof.
  induction s as [|x s IH]; intros pos c H; simpl.
  - specialize (H 0). simpl in H. rewrite Nat.add_0_r in H. apply H. lia.
  - pose proof (H 0) as H0. simpl in H0. rewrite Nat.add_0_r in H0.
    destruct (p x) eqn:Hx; [|apply H0; lia].
    rewrite IH; [apply H0; lia|].
    intros n Hn. specialize (H (S n)). simpl in H. rewrite Hx in H. simpl in H.
    rewrite Nat.add_succ_r in H. apply H. lia.
Qed.

Lemma starClass_only_longest p k s : forall pos c,
  (forall n, n < length (takeWhile p s) -> k (drop n s) (pos + n) c = None) ->
  starClass p k s pos c = k (dropWhile p s) (pos + length (takeWhile p s)) c.
Proof.
  induction s as [|x s IH]; intros pos c H; simpl.
  - rewrite Nat.add_0_r. reflexivity.
  - destruct (p x) eqn:Hx; simpl; [|rewrite Nat.add_0_r; reflexivity].
    rewrite Nat.add_succ_r. rewrite IH.
    + destruct (k (dropWhile p s) _ c); [reflexivity|].
      specialize (H 0). simpl in H. rewrite Hx, Nat.add_0_r in H. apply H.
      simpl. lia.
    + intros n Hn. specialize (H (S n)). simpl in H. rewrite Hx in H. simpl in H.
      rewrite Nat.add_succ_r in H. apply H. lia.
Qed.

(** With a continuation that wants the end of the input, the star takes
    everything or fails. *)
Lemma starClass_eol p k s : forall pos c,
  (forall x s' pos' c', k (x :: s') pos' c' = None) ->
  starClass p k s pos c
  = if forallb p s then k [] (pos + length s) c else None.
Proof.
  induction s as [|x s IH]; intros pos c Hk; simpl.
  - rewrite Nat.add_0_r. reflexivity.
  - destruct (p x); simpl; [|apply Hk].
    rewrite (IH (S pos) c Hk), Nat.add_succ_r.
    destruct (forallb p s); [|apply Hk].
    destruct (k [] _ c); [reflexivity | apply Hk].
Qed.

Lemma take_takeWhile p s : take (length (takeWhile p s)) s = takeWhile p s.
Proof.
  induction s as [|x s IH]; simpl; [reflexivity|].
  destruct (p x); simpl; [rewrite IH|]; reflexivity.
Qed.

Lemma drop_takeWhile p s : drop (length (takeWhile p s)) s = dropWhile p s.
Proof.
  induction s as [|x s IH]; simpl; [reflexivity|].
  destruct (p x); simpl; [rewrite IH|]; reflexivity.
Qed.

Lemma take_run_more p s n :
  take (length (takeWhile p s) + n) s = takeWhile p s ++ take n (dropWhile p s).
Proof.
  induction s as [|x s IH]; simpl.
  - destruct n; reflexivity.
  - destruct (p x); simpl; [rewrite IH|]; reflexivity.
Qed.

Lemma drop_in_run p s n :
  n <= length (takeWhile p s) ->
  drop n s = drop n (takeWhile p s) ++ dropWhile p s.
Proof.
  intros Hn. rewrite <- (takeWhile_dropWhile p s) at 1.
  rewrite drop_app_le by exact Hn. reflexivity.
Qed.

Lemma takeWhile_forallb p s : forallb p (takeWhile p s) = true.
Proof.
  induction s as [|x s IH]; simpl; [reflexivity|].
  destruct (p x) eqn:Hx; simpl; [rewrite Hx|]; auto.
Qed.

(** [(.* )$] at the end of a pattern. *)
Lemma run_dots_eol g s pos c :
  run (Group g (Star true dot)) s pos c
      (fun s2 p2 c2 => run (Seq Eol Eps) s2 p2 c2 accept)
  = if forallb notTerminator s then Some ([], pos + length s, (g, s) :: c) else None.
Proof.
  cbn [run]. fold (run (Star true dot)). unfold dot at 1.
  change (iterate (run (Chr (fun c0 => negb (isLineTerminator c0)))) true ?k
                  (S (length s)) s pos c)
    with (run (Star true (Chr notTerminator)) s pos c k).
  rewrite run_star_class, starClass_eol by reflexivity.
  destruct (forallb notTerminator s); [|reflexivity].
  unfold accept. rewrite Nat.add_comm, Nat.add_sub, firstn_all. reflexivity.
Qed.

Lemma tick_notTerminator x : isTick x = true -> notTerminator x = true.
Proof.
  unfold isTick, notTerminator, isLineTerminator, BACKTICK.
  intros H. apply N.eqb_eq in H. subst x. reflexivity.
Qed.

(** The star of [`+], entered at [p0] after the backticks [pre] of the
    input [pre ++ s] of the group, in front of [(.* )$]. *)
Lemma run_ticks_core g1 g2 pre s pos p0 c :
  p0 = pos + length pre ->
  run (Star true tick) s p0 c
      (fun s1 p1 c1 =>
         run (Group g2 (Star true dot)) s1 p1 ((g1, take (p1 - pos) (pre ++ s)) :: c1)
             (fun s2 p2 c2 => run (Seq Eol Eps) s2 p2 c2 accept))
  = if forallb notTerminator (dropWhile isTick s)
    then Some ([], pos + length (pre ++ s),
               (g2, dropWhile isTick s) :: (g1, pre ++ takeWhile isTick s) :: c)
    else None.
Proof.
  intros ->. unfold tick. rewrite run_star_class.
  assert (forall n, n <= length (takeWhile isTick s) ->
            take (pos + length pre + n - pos) (pre ++ s)
            = pre ++ take n (takeWhile isTick s)) as Htake.
  { intros n Hn. replace (pos + length pre + n - pos) with (length pre + n) by lia.
    rewrite take_app_add'; [|reflexivity]. f_equal.
    rewrite <- (takeWhile_dropWhile isTick s) at 1.
    rewrite take_app_le by exact Hn. reflexivity. }
  destruct (forallb notTerminator (dropWhile isTick s)) eqn:Hrest.
  - apply starClass_longest. rewrite run_dots_eol, Hrest.
    rewrite (Htake (length (takeWhile isTick s))) by lia.
    rewrite firstn_all. do 3 f_equal.
    rewrite !length_app. rewrite <- (takeWhile_dropWhile isTick s) at 3.
    rewrite length_app. lia.
  - apply starClass_none. intros n Hn.
    rewrite run_dots_eol.
    rewrite (drop_in_run isTick s n Hn), forallb_app, Hrest, andb_false_r.
    reflexivity.
Qed.

(** [(`+)(.* )$] *)
Lemma run_ticks_dots_eol g1 g2 s pos c :
  run (Group g1 (plus true tick)) s pos c
      (fun s1 p1 c1 =>
         run (Group g2 (Star true dot)) s1 p1 c1
             (fun s2 p2 c2 => run (Seq Eol Eps) s2 p2 c2 accept))
  = match matchTicksRest s with
    | Some (t, rest) => Some ([], pos + length s, (g2, rest) :: (g1, t) :: c)
    | None => None
    end.
Proof.
  destruct s as [|x s]; [reflexivity|].
  change (run (Group g1 (plus true tick)) (x :: s) pos c ?k)
    with (if isTick x
          then run (Star true tick) s (S pos) c
                   (fun s1 p1 c1 =>
                      run (Group g2 (Star true dot)) s1 p1
                          ((g1, take (p1 - pos) ([x] ++ s)) :: c1)
                          (fun s2 p2 c2 => run (Seq Eol Eps) s2 p2 c2 accept))
          else None).
  unfold matchTicksRest. cbn [takeWhile dropWhile].
  destruct (isTick x) eqn:Hx; [|reflexivity].
  rewrite (run_ticks_core g1 g2 [x] s pos (S pos) c) by (simpl; lia).
  cbn [isEmpty]. fold notTerminator.
  change (fun c0 : char => negb (isLineTerminator c0)) with notTerminator.
  destruct (forallb notTerminator (dropWhile isTick s)) eqn:Hrest.
  - assert (forallb notTerminator (x :: takeWhile isTick s ++ dropWhile isTick s) = true)
      as Hall.
    { simpl. rewrite (tick_notTerminator _ Hx), forallb_app, Hrest, andb_true_r.
      eapply forallb_impl; [apply tick_notTerminator | apply takeWhile_forallb]. }
    reflexivity.
  - reflexivity.
Qed.

Lemma searchFrom_Bol r s : forall pos,
  pos <> 0 -> searchFrom (Seq Bol r) s pos = None.
Proof.
  induction s as [|x s IH]; intros pos Hpos; simpl; unfold matchAt; simpl;
    destruct pos as [|pos]; try congruence; simpl; auto.
Qed.

(** An anchored pattern matches at the start or not at all. *)
Lemma search_Bol r s :
  search (Seq Bol r) s =
  match run r s 0 [] accept with
  | Some (_, e, c) => Some (take e s, c)
  | None => None
  end.
Proof.
  unfold search. destruct s as [|x s]; simpl; unfold matchAt; simpl;
    fold accept; destruct (run r _ 0 [] accept) as [[[s' e] c]|];
    rewrite ?Nat.sub_0_r; try reflexivity.
  apply searchFrom_Bol. discriminate.
Qed.

Lemma search_fenceRe s :
  search fenceRe s =
  match matchTicksRest s with
  | Some (t, rest) => Some (s, [(2, rest); (1, t)])
  | None => None
  end.
Proof.
  unfold fenceRe, seqs. cbn [fold_right]. rewrite search_Bol.
  change (run (Seq ?g1 (Seq ?g2 ?e)) s 0 [] accept)
    with (run g1 s 0 [] (fun s1 p1 c1 => run g2 s1 p1 c1
                           (fun s2 p2 c2 => run e s2 p2 c2 accept))).
  rewrite run_ticks_dots_eol.
  destruct (matchTicksRest s) as [[t rest]|]; [|reflexivity].
  simpl. rewrite firstn_all. reflexivity.
Qed.

(** [(`{3,})(.* )$] *)
Lemma run_ticks3_dots_eol g1 g2 s pos c :
  run (Group g1 (Seq tick (Seq tick (plus true tick)))) s pos c
      (fun s1 p1 c1 =>
         run (Group g2 (Star true dot)) s1 p1 c1
             (fun s2 p2 c2 => run (Seq Eol Eps) s2 p2 c2 accept))
  = match matchTicks3Rest s with
    | Some (t, rest) => Some ([], pos + length s, (g2, rest) :: (g1, t) :: c)
    | None => None
    end.
Proof.
  unfold matchTicks3Rest.
  destruct s as [|x s].
  { reflexivity. }
  destruct s as [|y s].
  { change (run _ [x] pos c _) with (if isTick x then @None mstate else None).
    cbn [takeWhile dropWhile]. destruct (isTick x); reflexivity. }
  destruct s as [|z s].
  { change (run _ [x; y] pos c _)
      with (if isTick x then if isTick y then @None mstate else None else None).
    cbn [takeWhile dropWhile]. destruct (isTick x), (isTick y); reflexivity. }
  change (run (Group g1 (Seq tick (Seq tick (plus true tick)))) (x :: y :: z :: s) pos c ?k)
    with (if isTick x then if isTick y then if isTick z
          then run (Star true tick) s (S (S (S pos))) c
                   (fun s1 p1 c1 =>
                      run (Group g2 (Star true dot)) s1 p1
                          ((g1, take (p1 - pos) ([x; y; z] ++ s)) :: c1)
                          (fun s2 p2 c2 => run (Seq Eol Eps) s2 p2 c2 accept))
          else None else None else None).
  cbn [takeWhile dropWhile].
  destruct (isTick x) eqn:Hx; [|reflexivity].
  destruct (isTick y) eqn:Hy; [|reflexivity].
  destruct (isTick z) eqn:Hz; [|reflexivity].
  rewrite (run_ticks_core g1 g2 [x; y; z] s pos (S (S (S pos))) c) by (simpl; lia).
  change (3 <=? length (x :: y :: z :: takeWhile isTick s)) with true.
  cbn [andb].
  change (fun c0 : char => negb (isLineTerminator c0)) with notTerminator.
  destruct (forallb notTerminator (dropWhile isTick s)); reflexivity.
Qed.

Lemma search_fence3Re s :
  search fence3Re s =
  match matchTicks3Rest s with
  | Some (t, rest) => Some (s, [(2, rest); (1, t)])
  | None => None
  end.
Proof.
  unfold fence3Re, seqs. cbn [fold_right]. rewrite search_Bol.
  change (run (Seq ?g1 (Seq ?g2 ?e)) s 0 [] accept)
    with (run g1 s 0 [] (fun s1 p1 c1 => run g2 s1 p1 c1
                           (fun s2 p2 c2 => run e s2 p2 c2 accept))).
  rewrite run_ticks3_dots_eol.
  destruct (matchTicks3Rest s) as [[t rest]|]; [|reflexivity].
  simpl. rewrite firstn_all. reflexivity.
Qed.

Lemma search_indentRe s :
  search indentRe s = Some (takeWhile isSpace s, [(1, takeWhile isSpace s)]).
Proof.
  unfold indentRe, seqs. cbn [fold_right]. rewrite search_Bol.
  change (run (Seq (Group 1 (Star true ws)) Eps) s 0 [] accept)
    with (run (Star true (Chr isSpace)) s 0 []
              (fun s1 p1 c1 => accept s1 p1 ((1, take (p1 - 0) s) :: c1))).
  rewrite run_star_class.
  erewrite starClass_longest; [|reflexivity].
  simpl. rewrite Nat.sub_0_r, take_takeWhile. reflexivity.
Qed.

(** [(`+)] at the end of a pattern. *)
Lemma run_ticks_done g s pos c :
  run (Group g (plus true tick)) s pos c (fun s2 p2 c2 => run Eps s2 p2 c2 accept)
  = if isEmpty (takeWhile isTick s) then None
    else Some (dropWhile isTick s, pos + length (takeWhile isTick s),
               (g, takeWhile isTick s) :: c).
Proof.
  destruct s as [|x s]; [reflexivity|].
  change (run (Group g (plus true tick)) (x :: s) pos c ?k)
    with (if isTick x
          then run (Star true (Chr isTick)) s (S pos) c
                   (fun s1 p1 c1 => accept s1 p1 ((g, take (p1 - pos) (x :: s)) :: c1))
          else None).
  cbn [takeWhile dropWhile]. destruct (isTick x); [|reflexivity].
  rewrite run_star_class. erewrite starClass_longest; [|reflexivity].
  cbn [isEmpty length]. do 3 f_equal; [lia|].
  replace (S pos + length (takeWhile isTick s) - pos)
    with (S (length (takeWhile isTick s))) by lia.
  simpl. rewrite take_takeWhile. reflexivity.
Qed.

Lemma drop_in_run_head p s n :
  n < length (takeWhile p s) -> exists x t, drop n s = x :: t /\ p x = true.
Proof.
  revert n. induction s as [|x s IH]; intros n; simpl; [lia|].
  destruct (p x) eqn:Hx; simpl; [|lia].
  destruct n as [|n]; intros Hn.
  - exists x, s. auto.
  - apply IH. lia.
Qed.

Lemma space_not_tick x : isSpace x = true -> isTick x = false.
Proof.
  unfold isTick. destruct (N.eqb_spec x BACKTICK) as [->|]; [|reflexivity].
  discriminate.
Qed.

Lemma search_indentTicksRe s :
  search indentTicksRe s =
  match matchIndentTicks s with
  | Some (i, t) => Some (i ++ t, [(2, t); (1, i)])
  | None => None
  end.
Proof.
  unfold indentTicksRe, seqs. cbn [fold_right]. rewrite search_Bol.
  change (run (Seq (Group 1 (Star true ws)) (Seq (Group 2 (plus true tick)) Eps))
              s 0 [] accept)
    with (run (Star true (Chr isSpace)) s 0 []
              (fun s1 p1 c1 =>
                 run (Group 2 (plus true tick)) s1 p1 ((1, take (p1 - 0) s) :: c1)
                     (fun s2 p2 c2 => run Eps s2 p2 c2 accept))).
  rewrite run_star_class, starClass_only_longest.
  - rewrite run_ticks_done. unfold matchIndentTicks.
    destruct (isEmpty (takeWhile isTick (dropWhile isSpace s))); [reflexivity|].
    simpl. rewrite Nat.sub_0_r, take_takeWhile. f_equal. f_equal.
    rewrite take_run_more. f_equal. apply take_takeWhile.
  - intros n Hn. rewrite run_ticks_done.
    destruct (drop_in_run_head _ _ _ Hn) as (x & t & -> & Hx).
    cbn [takeWhile]. rewrite (space_not_tick _ Hx). reflexivity.
Qed.

Lemma search_indentTicksRestRe s :
  search indentTicksRestRe s =
  match matchIndentTicksRest s with
  | Some (i, t, rest) => Some (s, [(3, rest); (2, t); (1, i)])
  | None => None
  end.
Proof.
  unfold indentTicksRestRe, seqs. cbn [fold_right]. rewrite search_Bol.
  change (run (Seq (Group 1 (Star true ws)) (Seq ?g2 (Seq ?g3 ?e))) s 0 [] accept)
    with (run (Star true (Chr isSpace)) s 0 []
              (fun s0 p0 c0 =>
                 run g2 s0 p0 ((1, take (p0 - 0) s) :: c0)
                     (fun s1 p1 c1 => run g3 s1 p1 c1
                                        (fun s2 p2 c2 => run e s2 p2 c2 accept)))).
  rewrite run_star_class, starClass_only_longest.
  - rewrite run_ticks_dots_eol. unfold matchIndentTicksRest.
    destruct (matchTicksRest (dropWhile isSpace s)) as [[t rest]|]; [|reflexivity].
    simpl. rewrite Nat.sub_0_r, take_takeWhile. f_equal. f_equal.
    rewrite take_run_more, firstn_all. apply takeWhile_dropWhile.
  - intros n Hn. rewrite run_ticks_dots_eol.
    destruct (drop_in_run_head _ _ _ Hn) as (x & t & -> & Hx).
    unfold matchTicksRest. cbn [takeWhile]. rewrite (space_not_tick _ Hx).
    reflexivity.
Qed.

Lemma matchAt_class p s pos :
  matchAt (Chr p) s pos =
  match s with
  | x :: _ => if p x then Some (1, []) else None
  | [] => None
  end.
Proof.
  unfold matchAt. destruct s as [|x s]; simpl; [reflexivity|].
  destruct (p x); [|reflexivity].
  replace (S pos - pos) with 1 by lia. reflexivity.
Qed.

(** A global replacement of the code units of a class. *)
Lemma replaceFrom_class p f s : forall fuel pos,
  length s < fuel -> replaceFrom fuel (Chr p) f s pos = replaceClass p f s.
Proof.
  induction s as [|x s IH]; intros fuel pos Hlt;
    destruct fuel as [|fuel]; simpl in Hlt; try lia;
    cbn [replaceFrom]; rewrite matchAt_class; [reflexivity|].
  unfold replaceClass. cbn [flat_map]. fold (replaceClass p f s).
  destruct (p x).
  - cbn [take drop]. rewrite IH by lia. reflexivity.
  - rewrite IH by lia. reflexivity.
Qed.

Lemma replaceAll_class p f s : replaceAll (Chr p) f s = replaceClass p f s.
Proof. apply replaceFrom_class. lia. Qed.

Lemma replaceClass_map p (y : char) s :
  replaceClass p (fun _ _ => [y]) s = map (fun c => if p c then y else c) s.
Proof.
  unfold replaceClass. induction s as [|x s IH]; simpl; [reflexivity|].
  rewrite IH. destruct (p x); reflexivity.
Qed.

Lemma replaceClass_filter p s :
  replaceClass p nothing s = List.filter (fun c => negb (p c)) s.
Proof.
  unfold replaceClass, nothing. induction s as [|x s IH]; simpl; [reflexivity|].
  rewrite IH. destruct (p x); reflexivity.
Qed.

Lemma matchAt_spaces s pos :
  matchAt (plus true ws) s pos =
  match s with
  | x :: s' =>
      if isSpace x then Some (S (length (takeWhile isSpace s')), []) else None
  | [] => None
  end.
Proof.
  unfold matchAt. destruct s as [|x s]; [reflexivity|].
  change (run (plus true ws) (x :: s) pos [] ?k)
    with (if isSpace x then run (Star true (Chr isSpace)) s (S pos) [] accept else None).
  destruct (isSpace x); [|reflexivity].
  rewrite run_star_class. erewrite starClass_longest; [|reflexivity].
  cbv beta iota. do 2 f_equal. lia.
Qed.

Lemma collapseSpaces_inRun s :
  collapseSpaces true s = collapseSpaces false (dropWhile isSpace s).
Proof.
  induction s as [|x s IH]; simpl; [reflexivity|].
  destruct (isSpace x) eqn:Hx; [exact IH|].
  simpl. rewrite Hx. reflexivity.
Qed.

Lemma dropWhile_length p s : length (dropWhile p s) <= length s.
Proof.
  induction s as [|x s IH]; simpl; [lia|].
  destruct (p x); simpl; lia.
Qed.

(** [.replace(/\s+/g, ' ')] *)
Lemma replaceFrom_spaces fuel : forall s pos,
  length s < fuel -> replaceFrom fuel (plus true ws) space s pos = collapseSpaces false s.
Proof.
  induction fuel as [|fuel IH]; intros s pos Hlt; [lia|].
  cbn [replaceFrom]. rewrite matchAt_spaces.
  destruct s as [|x s]; [reflexivity|].
  simpl in Hlt. cbn [collapseSpaces]. destruct (isSpace x).
  - cbn [drop]. rewrite drop_takeWhile, IH.
    + rewrite collapseSpaces_inRun. reflexivity.
    + pose proof (dropWhile_length isSpace s). lia.
  - rewrite IH by lia. reflexivity.
Qed.

Lemma replaceAll_spaces s : replaceAll (plus true ws) space s = collapseSpaces false s.
Proof. apply replaceFrom_spaces. lia. Qed.

End RegexFacts.
(** ** What every regular expression does

    A match goes on with the input that is left and with captures cut out
    of the input; a replacement is made of code units of the input and of
    what the callback returns. *)

Section RegexGeneral.

Lemma startsWith_take p s : startsWith p s = true -> take (length p) s = p.
Proof.
  revert s. induction p as [|c p IH]; intros [|d s]; simpl; try congruence.
  intros H. apply andb_true_iff in H as [Hc Hp].
  apply N.eqb_eq in Hc. subst d. rewrite (IH s Hp). reflexivity.
Qed.

Lemma startsWith_self p y : startsWith p (p ++ y) = true.
Proof.
  induction p as [|c p IH]; simpl; [reflexivity|]. rewrite N.eqb_refl. exact IH.
Qed.

(** A literal text in front of the continuation [k]. *)
Lemma run_text t : forall s pos c k,
  run (text t) s pos c k
  = if startsWith t s then k (drop (length t) s) (pos + length t) c else None.
Proof.
  induction t as [|x t IH]; intros s pos c k.
  - simpl. rewrite Nat.add_0_r. reflexivity.
  - change (text (x :: t)) with (Seq (chr x) (text t)).
    cbn [run chr]. destruct s as [|y s]; [reflexivity|].
    cbn [startsWith drop length].
    destruct (x =? y)%N; [|reflexivity].
    cbn [andb]. rewrite IH. rewrite Nat.add_succ_r. reflexivity.
Qed.

Lemma capsAll_cons (P : char -> Prop) g v c :
  Forall P v -> capsAll P c -> capsAll P ((g, v) :: c).
Proof. intros Hv Hc. constructor; [exact Hv | exact Hc]. Qed.

Lemma group_Forall (P : char -> Prop) n c : capsAll P c -> Forall P (group n c).
Proof.
  intros Hc. unfold group.
  induction c as [|[g v] c IH]; simpl; [constructor|].
  inversion Hc; subst. destruct (g =? n); [assumption | auto].
Qed.

Lemma iterate_reaches body greedy k :
  (forall s pos c k' m, body s pos c k' = Some m -> reaches s pos c k' m) ->
  forall fuel s pos c m,
  iterate body greedy k fuel s pos c = Some m -> reaches s pos c k m.
Proof.
  intros Hbody. induction fuel as [|fuel IH]; intros s pos c m H.
  - simpl in H. exists 0, c. rewrite drop_0, Nat.add_0_r.
    repeat split; [lia | exact H | auto].
  - simpl in H.
    assert (Hstay : k s pos c = Some m -> reaches s pos c k m).
    { intros Hk. exists 0, c. rewrite drop_0, Nat.add_0_r.
      repeat split; [lia | exact Hk | auto]. }
    assert (Hmore : body s pos c
                      (fun s' pos' c' =>
                         if pos <? pos' then iterate body greedy k fuel s' pos' c'
                         else None) = Some m -> reaches s pos c k m).
    { intros Hb. apply Hbody in Hb as (n & c1 & Hn & Hk & Hc).
      destruct (pos <? pos + n); [|discriminate].
      apply IH in Hk as (n2 & c2 & Hn2 & Hk2 & Hc2).
      exists (n + n2), c2. rewrite length_drop in Hn2.
      rewrite drop_drop in Hk2. rewrite Nat.add_assoc.
      repeat split; [lia | exact Hk2 |].
      intros P Hs Hcaps. apply Hc2; [apply Forall_drop; exact Hs | apply Hc; assumption]. }
    destruct greedy.
    + destruct (body s pos c _) eqn:Hb.
      * apply Hmore. congruence.
      * apply Hstay. exact H.
    + destruct (k s pos c) eqn:Hk.
      * apply Hstay. congruence.
      * apply Hmore. exact H.
Qed.

Lemma run_reaches r : forall s pos c k m,
  run r s pos c k = Some m -> reaches s pos c k m.
Proof.
  induction r as [|p|a IHa b IHb|a IHa b IHb|greedy a IHa|g a IHa|a IHa| |];
    intros s pos c k m H; cbn [run] in H.
  - exists 0, c. rewrite drop_0, Nat.add_0_r. repeat split; [lia | exact H | auto].
  - destruct s as [|x s]; [discriminate|]. destruct (p x); [|discriminate].
    exists 1, c. rewrite Nat.add_1_r. simpl. rewrite drop_0.
    repeat split; [lia | exact H | auto].
  - apply IHa in H as (n1 & c1 & Hn1 & Hk1 & Hc1).
    apply IHb in Hk1 as (n2 & c2 & Hn2 & Hk2 & Hc2).
    exists (n1 + n2), c2. rewrite length_drop in Hn2.
    rewrite drop_drop in Hk2. rewrite Nat.add_assoc.
    repeat split; [lia | exact Hk2 |].
    intros P Hs Hcaps. apply Hc2; [apply Forall_drop; exact Hs | apply Hc1; assumption].
  - destruct (run a s pos c k) eqn:Ha.
    + apply IHa. congruence.
    + apply IHb. exact H.
  - eapply iterate_reaches; [|exact H]. intros; apply IHa; assumption.
  - apply IHa in H as (n & c1 & Hn & Hk & Hc).
    exists n, ((g, take (pos + n - pos) s) :: c1).
    repeat split; [lia | exact Hk |].
    intros P Hs Hcaps. apply capsAll_cons; [apply Forall_take; exact Hs | auto].
  - destruct (run a s pos c _); [discriminate|].
    exists 0, c. rewrite drop_0, Nat.add_0_r. repeat split; [lia | exact H | auto].
  - destruct (pos =? 0); [|discriminate].
    exists 0, c. rewrite drop_0, Nat.add_0_r. repeat split; [lia | exact H | auto].
  - destruct s; [|discriminate].
    exists 0, c. repeat split; [simpl; lia | rewrite Nat.add_0_r; exact H | auto].
Qed.

Lemma matchAt_reaches r s pos n c :
  matchAt r s pos = Some (n, c) ->
  n <= length s /\ (forall P : char -> Prop, Forall P s -> capsAll P c).
Proof.
  unfold matchAt. intros H.
  destruct (run r s pos [] _) as [[[s1 e] c1]|] eqn:Hr; [|discriminate].
  apply run_reaches in Hr as (n1 & c2 & Hn1 & Hk & Hc).
  inversion Hk; subst. inversion H; subst.
  split; [lia|]. intros P Hs. apply Hc; [exact Hs | constructor].
Qed.

(** The code units of a replacement come from the input or from the
    callback. *)
Lemma replaceFrom_Forall (P : char -> Prop) r f :
  (forall m c, Forall P m -> capsAll P c -> Forall P (f m c)) ->
  forall fuel s pos, Forall P s -> Forall P (replaceFrom fuel r f s pos).
Proof.
  intros Hf. induction fuel as [|fuel IH]; intros s pos Hs; simpl; [exact Hs|].
  assert (Hskip : Forall P match s with
                           | [] => []
                           | x :: s' => x :: replaceFrom fuel r f s' (S pos)
                           end).
  { destruct s as [|x s']; [constructor|]. inversion Hs; subst.
    constructor; [assumption | apply IH; assumption]. }
  destruct (matchAt r s pos) as [[n c]|] eqn:Hm; [|exact Hskip].
  apply matchAt_reaches in Hm as [_ Hc]. specialize (Hc P Hs).
  destruct n as [|n].
  - apply Forall_app. split; [apply Hf; [constructor | exact Hc] | exact Hskip].
  - apply Forall_app. split.
    + apply Hf; [apply Forall_take; exact Hs | exact Hc].
    + apply IH. apply Forall_drop. exact Hs.
Qed.

Lemma replaceAll_Forall (P : char -> Prop) r f s :
  (forall m c, Forall P m -> capsAll P c -> Forall P (f m c)) ->
  Forall P s -> Forall P (replaceAll r f s).
Proof. intros Hf Hs. apply replaceFrom_Forall; assumption. Qed.

Lemma replaceFirstFrom_Forall (P : char -> Prop) r f :
  (forall m c, Forall P m -> capsAll P c -> Forall P (f m c)) ->
  forall s pos, Forall P s -> Forall P (replaceFirstFrom r f s pos).
Proof.
  intros Hf. induction s as [|x s IH]; intros pos Hs; simpl.
  - destruct (matchAt r [] pos) as [[n c]|] eqn:Hm; [|constructor].
    apply matchAt_reaches in Hm as [_ Hc].
    apply Forall_app. split; [|apply Forall_drop; exact Hs].
    apply Hf; [apply Forall_take; exact Hs | apply Hc; exact Hs].
  - destruct (matchAt r (x :: s) pos) as [[n c]|] eqn:Hm.
    + apply matchAt_reaches in Hm as [_ Hc].
      apply Forall_app. split; [|apply Forall_drop; exact Hs].
      apply Hf; [apply Forall_take; exact Hs | apply Hc; exact Hs].
    + inversion Hs; subst. constructor; [assumption | apply IH; assumption].
Qed.

Lemma replaceFirst_Forall (P : char -> Prop) r f s :
  (forall m c, Forall P m -> capsAll P c -> Forall P (f m c)) ->
  Forall P s -> Forall P (replaceFirst r f s).
Proof. intros Hf Hs. apply replaceFirstFrom_Forall; assumption. Qed.

Lemma searchFrom_Forall (P : char -> Prop) r : forall s pos m c,
  searchFrom r s pos = Some (m, c) -> Forall P s -> Forall P m /\ capsAll P c.
Proof.
  induction s as [|x s IH]; intros pos m c H Hs; simpl in H.
  - destruct (matchAt r [] pos) as [[n c1]|] eqn:Hm; [|discriminate].
    inversion H; subst. apply matchAt_reaches in Hm as [_ Hc].
    split; [apply Forall_take; exact Hs | apply Hc; exact Hs].
  - destruct (matchAt r (x :: s) pos) as [[n c1]|] eqn:Hm.
    + inversion H; subst. apply matchAt_reaches in Hm as [_ Hc].
      split; [apply Forall_take; exact Hs | apply Hc; exact Hs].
    + inversion Hs; subst. eapply IH; eassumption.
Qed.

Lemma search_Forall (P : char -> Prop) r s m c :
  search r s = Some (m, c) -> Forall P s -> Forall P m /\ capsAll P c.
Proof. apply searchFrom_Forall. Qed.

(** A callback that returns the match leaves the string as it is. *)
Lemma replaceFrom_same r f :
  (forall m c, f m c = m) ->
  forall fuel s pos, replaceFrom fuel r f s pos = s.
Proof.
  intros Hf. induction fuel as [|fuel IH]; intros s pos; simpl; [reflexivity|].
  assert (Hskip : match s with
                  | [] => []
                  | x :: s' => x :: replaceFrom fuel r f s' (S pos)
                  end = s).
  { destruct s; [reflexivity|]. rewrite IH. reflexivity. }
  destruct (matchAt r s pos) as [[[|n] c]|]; [| |exact Hskip].
  - rewrite Hf. exact Hskip.
  - rewrite Hf, IH. apply take_drop.
Qed.

(** One step of a replacement over a code unit at which the pattern
    does not match. *)
Lemma replaceFrom_skip_step fuel r f x s pos :
  matchAt r (x :: s) pos = None ->
  replaceFrom (S fuel) r f (x :: s) pos = x :: replaceFrom fuel r f s (S pos).
Proof. intros H. cbn [replaceFrom]. rewrite H. reflexivity. Qed.

(** A pattern that matches nowhere leaves the string as it is. *)
Lemma replaceFrom_no_match r f : forall fuel s pos,
  (forall n, matchAt r (drop n s) (pos + n) = None) ->
  replaceFrom fuel r f s pos = s.
Proof.
  induction fuel as [|fuel IH]; intros s pos H; simpl; [reflexivity|].
  pose proof (H 0) as H0. rewrite drop_0, Nat.add_0_r in H0. rewrite H0.
  destruct s as [|x s]; [reflexivity|]. rewrite IH; [reflexivity|].
  intros n. specialize (H (S n)). simpl in H. rewrite Nat.add_succ_r in H. exact H.
Qed.

Lemma searchFrom_no_match r : forall s pos,
  (forall n, matchAt r (drop n s) (pos + n) = None) ->
  searchFrom r s pos = None.
Proof.
  induction s as [|x s IH]; intros pos H; simpl.
  - pose proof (H 0) as H0. simpl in H0. rewrite Nat.add_0_r in H0. rewrite H0.
    reflexivity.
  - pose proof (H 0) as H0. rewrite drop_0, Nat.add_0_r in H0. rewrite H0.
    apply IH. intros n. specialize (H (S n)). simpl in H.
    rewrite Nat.add_succ_r in H. exact H.
Qed.

(** A class of single code units that the string does not meet. *)
Lemma replaceClass_none p f s :
  forallb (fun c => negb (p c)) s = true -> replaceClass p f s = s.
Proof.
  unfold replaceClass. induction s as [|x s IH]; simpl; [reflexivity|].
  intros H. apply andb_true_iff in H as [Hx Hs].
  apply negb_true_iff in Hx. rewrite Hx. simpl. rewrite IH by exact Hs. reflexivity.
Qed.

(** A pattern that starts with a literal code unit which the string does
    not hold. *)
Lemma matchAt_first_unit x r s pos :
  x ∉ s -> matchAt (Seq (chr x) r) s pos = None.
Proof.
  intros Hx. unfold matchAt. cbn [run chr].
  destruct s as [|y s]; [reflexivity|].
  destruct (N.eqb_spec x y) as [->|Hne]; [|reflexivity].
  exfalso. apply Hx. left.
Qed.

(** A greedy run of a class, as a group or not, before the end of the
    pattern. *)
Lemma run_plus_class_accept p s pos c :
  run (plus true (Chr p)) s pos c accept
  = if isEmpty (takeWhile p s) then None
    else Some (dropWhile p s, pos + length (takeWhile p s), c).
Proof.
  destruct s as [|x s]; [reflexivity|].
  change (run (plus true (Chr p)) (x :: s) pos c accept)
    with (if p x then run (Star true (Chr p)) s (S pos) c accept else None).
  cbn [takeWhile dropWhile]. destruct (p x); [|reflexivity].
  rewrite run_star_class. erewrite starClass_longest; [|reflexivity].
  cbn [isEmpty length]. do 3 f_equal. lia.
Qed.

Lemma run_group_plus_class_accept g p s pos c :
  run (Group g (plus true (Chr p))) s pos c accept
  = if isEmpty (takeWhile p s) then None
    else Some (dropWhile p s, pos + length (takeWhile p s), (g, takeWhile p s) :: c).
Proof.
  destruct s as [|x s]; [reflexivity|].
  change (run (Group g (plus true (Chr p))) (x :: s) pos c accept)
    with (if p x
          then run (Star true (Chr p)) s (S pos) c
                   (fun s1 p1 c1 => accept s1 p1 ((g, take (p1 - pos) (x :: s)) :: c1))
          else None).
  cbn [takeWhile dropWhile]. destruct (p x); [|reflexivity].
  rewrite run_star_class. erewrite starClass_longest; [|reflexivity].
  cbn [isEmpty length]. do 3 f_equal; [lia|].
  replace (S pos + length (takeWhile p s) - pos)
    with (S (length (takeWhile p s))) by lia.
  simpl. rewrite take_takeWhile. reflexivity.
Qed.

(** Each run of a class replaced by [y]. *)
Lemma matchAt_plus_class p s pos :
  matchAt (plus true (Chr p)) s pos =
  match s with
  | x :: s' => if p x then Some (S (length (takeWhile p s')), []) else None
  | [] => None
  end.
Proof.
  unfold matchAt. change (fun s' pos' c' => Some (s', pos', c')) with accept.
  rewrite run_plus_class_accept.
  destruct s as [|x s]; [reflexivity|]. simpl.
  destruct (p x); [|reflexivity]. simpl. f_equal. f_equal. lia.
Qed.

Lemma collapseClass_inRun p y s :
  collapseClass p y true s = collapseClass p y false (dropWhile p s).
Proof.
  induction s as [|x s IH]; simpl; [reflexivity|].
  destruct (p x) eqn:Hx; [exact IH|]. simpl. rewrite Hx. reflexivity.
Qed.

Lemma replaceFrom_plus_class p y fuel : forall s pos,
  length s < fuel ->
  replaceFrom fuel (plus true (Chr p)) (fun _ _ => y) s pos = collapseClass p y false s.
Proof.
  induction fuel as [|fuel IH]; intros s pos Hlt; [lia|].
  cbn [replaceFrom]. rewrite matchAt_plus_class.
  destruct s as [|x s]; [reflexivity|]. simpl in Hlt.
  destruct (p x) eqn:Hx.
  - cbn [collapseClass]. rewrite Hx. f_equal.
    cbn [drop]. rewrite drop_takeWhile.
    rewrite IH.
    + symmetry. apply collapseClass_inRun.
    + pose proof (dropWhile_length p s). lia.
  - cbn [collapseClass]. rewrite Hx. f_equal. apply IH. lia.
Qed.

Lemma replaceAll_plus_class p y s :
  replaceAll (plus true (Chr p)) (fun _ _ => y) s = collapseClass p y false s.
Proof. apply replaceFrom_plus_class. lia. Qed.

Lemma collapseClass_none p y s :
  forallb (fun c => negb (p c)) s = true -> collapseClass p y false s = s.
Proof.
  induction s as [|x s IH]; simpl; [reflexivity|].
  intros H. apply andb_true_iff in H as [Hx Hs].
  apply negb_true_iff in Hx. rewrite Hx, IH by exact Hs. reflexivity.
Qed.

Lemma collapseClass_forallb (q p : char -> bool) y s : forall inRun : bool,
  forallb q y = true ->
  (forall c, p c = false -> q c = true) ->
  forallb q (collapseClass p y inRun s) = true.
Proof.
  intros inRun Hy Hq. revert inRun.
  induction s as [|x s IH]; intros inRun; simpl; [reflexivity|].
  destruct (p x) eqn:Hx.
  - destruct inRun; [apply IH|]. rewrite forallb_app, Hy, IH. reflexivity.
  - simpl. rewrite (Hq x Hx), IH. reflexivity.
Qed.

End RegexGeneral.
(** ** Facts about the fence scan and the pairing loop *)

Section ScanFacts.

(** The fence scan's callback, with the match of the regular expression
    worked out. *)
Lemma fenceOf_direct idx line :
  fenceOf idx line =
  if negb (startsWith (ticks 3) (trim line)) then None
  else match matchTicksRest (trim line) with
       | None => None
       | Some (t, rest) => Some (mkFence idx (length t) (trim rest) line)
       end.
Proof.
  unfold fenceOf. cbv zeta. rewrite search_fenceRe.
  destruct (matchTicksRest (trim line)) as [[t rest]|]; reflexivity.
Qed.

(** The test of step 4 on an inner line, with the match worked out. *)
Lemma innerTicks_direct line :
  innerTicks line =
  match matchTicks3Rest (trim line) with
  | Some (t, rest) => if isEmpty (trim rest) then length t else 0
  | None => 0
  end.
Proof.
  unfold innerTicks. rewrite search_fence3Re.
  destruct (matchTicks3Rest (trim line)) as [[t rest]|]; reflexivity.
Qed.

Lemma fenceOf_index i l f : fenceOf i l = Some f -> f_index f = i /\ f_raw f = l.
Proof.
  rewrite fenceOf_direct. intros H.
  destruct (negb _); [discriminate|].
  destruct (matchTicksRest _) as [[t rest]|]; [|discriminate].
  inversion H; subst; simpl; auto.
Qed.

Lemma scanFences_scanFrom lines : scanFences lines = scanFrom 0 lines.
Proof. reflexivity. Qed.

Lemma scanFrom_cons k l lines :
  scanFrom k (l :: lines) =
  match fenceOf k l with
  | Some f => f :: scanFrom (S k) lines
  | None => scanFrom (S k) lines
  end.
Proof.
  unfold scanFrom. rewrite imap_cons. simpl.
  rewrite Nat.add_0_r.
  rewrite (imap_ext _ (fun i => fenceOf (S k + i))).
  - destruct (fenceOf k l); reflexivity.
  - intros i x _. simpl. f_equal. lia.
Qed.

Lemma scanFrom_elem k lines f :
  f ∈ scanFrom k lines ->
  k <= f_index f /\ lines !! (f_index f - k) = Some (f_raw f)
  /\ fenceOf (f_index f) (f_raw f) = Some f.
Proof.
  revert k. induction lines as [|l lines IH]; intros k.
  - unfold scanFrom. simpl. intros H. apply elem_of_nil in H. destruct H.
  - rewrite scanFrom_cons. intros H.
    assert (f ∈ scanFrom (S k) lines ->
            k <= f_index f /\ (l :: lines) !! (f_index f - k) = Some (f_raw f)
            /\ fenceOf (f_index f) (f_raw f) = Some f) as Htail.
    { intros Hin. destruct (IH _ Hin) as (Hle & Hl & Hf).
      split; [lia|]. split; [|exact Hf].
      replace (f_index f - k) with (S (f_index f - S k)) by lia. exact Hl. }
    destruct (fenceOf k l) as [g|] eqn:Hg; [|auto].
    apply elem_of_cons in H as [->|H]; [|auto].
    destruct (fenceOf_index _ _ _ Hg) as [Hi Hr].
    rewrite Hi, Hr, Nat.sub_diag. auto.
Qed.

Lemma scanFences_elem lines f :
  f ∈ scanFences lines ->
  lines !! f_index f = Some (f_raw f) /\ fenceOf (f_index f) (f_raw f) = Some f.
Proof.
  intros H. destruct (scanFrom_elem 0 lines f H) as (_ & Hl & Hf).
  rewrite Nat.sub_0_r in Hl. auto.
Qed.

Lemma scanFrom_sorted k lines :
  StronglySorted (fun a b => f_index a < f_index b) (scanFrom k lines).
Proof.
  revert k. induction lines as [|l lines IH]; intros k.
  - constructor.
  - rewrite scanFrom_cons. destruct (fenceOf k l) as [g|] eqn:Hg; [|apply IH].
    constructor; [apply IH|].
    apply Forall_forall. intros f Hf.
    apply scanFrom_elem in Hf as (Hle & _).
    apply fenceOf_index in Hg as [-> _]. lia.
Qed.

Lemma sorted_before {A} (R : A -> A -> Prop) l1 c l2 :
  StronglySorted R (l1 ++ c :: l2) -> Forall (fun a => R a c) l1.
Proof.
  induction l1 as [|a l1 IH]; simpl; intros H; [constructor|].
  apply StronglySorted_inv in H as [Hs Ha].
  constructor; [|auto].
  rewrite Forall_forall in Ha. apply Ha. apply elem_of_app. right. left.
Qed.

(** What the pairing loop leaves open was met after everything it paired,
    and nothing after it closes it. *)
Lemma pairStep_dangling l : forall bs cur c,
  snd (fold_left pairStep l (bs, cur)) = Some c ->
  (cur = Some c /\ Forall (fun f => closes c f = false) l)
  \/ (exists l1 l2, l = l1 ++ c :: l2 /\ Forall (fun f => closes c f = false) l2).
Proof.
  induction l as [|f l IH]; intros bs cur c; simpl.
  - intros ->. left. split; [reflexivity | constructor].
  - destruct cur as [d|].
    + fold (closes d f). destruct (closes d f) eqn:Hc; intros H.
      * apply IH in H as [[H _]|(l1 & l2 & -> & H)]; [discriminate|].
        right. exists (f :: l1), l2. auto.
      * apply IH in H as [[H Hall]|(l1 & l2 & -> & H)].
        -- inversion H; subst. left. split; [reflexivity|]. constructor; assumption.
        -- right. exists (f :: l1), l2. auto.
    + intros H. apply IH in H as [[H Hall]|(l1 & l2 & -> & H)].
      * inversion H; subst. right. exists [], l. auto.
      * right. exists (f :: l1), l2. auto.
Qed.

Lemma pairStep_blocks fl :
  StronglySorted (fun a b => f_index a < f_index b) fl ->
  forall l pre bs cur,
  fl = pre ++ l ->
  Forall (blockIn fl) bs -> (forall c, cur = Some c -> c ∈ pre) ->
  Forall (blockIn fl) (fst (fold_left pairStep l (bs, cur)))
  /\ (forall c, snd (fold_left pairStep l (bs, cur)) = Some c -> c ∈ fl).
Proof.
  intros Hs. induction l as [|f l IH]; intros pre bs cur Heq Hbs Hcur; simpl.
  - split; [exact Hbs|]. intros c Hc. rewrite Heq, app_nil_r. auto.
  - assert (fl = (pre ++ [f]) ++ l) as Heq' by (rewrite <- app_assoc; exact Heq).
    assert (f ∈ fl) as Hf.
    { rewrite Heq. apply elem_of_app. right. left. }
    destruct cur as [d|].
    + assert (d ∈ pre) as Hd by auto.
      fold (closes d f). destruct (closes d f) eqn:Hc.
      * apply (IH (pre ++ [f])); [exact Heq' | | discriminate].
        apply Forall_app. split; [assumption|]. constructor; [|constructor].
        exists d, f. simpl. repeat split; auto.
        -- rewrite Heq. apply elem_of_app. auto.
        -- rewrite Heq in Hs. apply sorted_before in Hs.
           rewrite Forall_forall in Hs. auto.
      * apply (IH (pre ++ [f])); [exact Heq' | assumption |].
        intros c Hcur'. inversion Hcur'; subst. apply elem_of_app. auto.
    + apply (IH (pre ++ [f])); [exact Heq' | assumption |].
      intros c Hcur'. inversion Hcur'; subst. apply elem_of_app. right. left.
Qed.

Lemma pairFences_blocks L :
  Forall (blockIn (scanFences L)) (fst (pairFences (scanFences L)))
  /\ (forall c, snd (pairFences (scanFences L)) = Some c -> c ∈ scanFences L).
Proof.
  apply (pairStep_blocks (scanFences L) (scanFrom_sorted 0 L) (scanFences L) []);
    [reflexivity | constructor | discriminate].
Qed.

(** The search of step 2.5 repeats the test of the pairing loop on the
    fences that follow the open one, so it never finds anything. *)
Lemma dangling_no_closer lines c :
  snd (pairFences (scanFences lines)) = Some c ->
  find (fun f => (f_index c <? f_index f) && isEmpty (f_info f)
                 && (f_length c <=? f_length f)) (scanFences lines) = None.
Proof.
  intros H. apply pairStep_dangling in H as [[H _]|(l1 & l2 & Heq & Hall)];
    [discriminate|].
  pose proof (scanFrom_sorted 0 lines) as Hs.
  rewrite <- scanFences_scanFrom, Heq in Hs.
  apply sorted_before in Hs. rewrite Heq.
  destruct (find _ _) as [nf|] eqn:Hfind; [|reflexivity].
  apply find_some in Hfind as [Hin Hp].
  apply andb_prop in Hp as [Hp Hlen]. apply andb_prop in Hp as [Hidx Hinfo].
  apply Nat.ltb_lt in Hidx.
  apply in_app_or in Hin as [Hin|Hin].
  - rewrite Forall_forall in Hs. apply list_elem_of_In in Hin.
    apply Hs in Hin. lia.
  - destruct Hin as [<-|Hin]; [lia|].
    rewrite Forall_forall in Hall. apply list_elem_of_In in Hin.
    apply Hall in Hin. unfold closes in Hin. rewrite Hlen, Hinfo in Hin. discriminate.
Qed.

End ScanFacts.

(** ** What one pass can change *)

Section PassFacts.

Lemma dropWhile_app_all p x y :
  forallb p x = true -> dropWhile p (x ++ y) = dropWhile p y.
Proof.
  induction x as [|c x IH]; simpl; [reflexivity|].
  intros H. apply andb_prop in H as [-> H]. auto.
Qed.

Lemma dropWhile_app_stop p x y :
  match y with [] => True | c :: _ => p c = false end ->
  dropWhile p (x ++ y) = dropWhile p x ++ y.
Proof.
  intros Hy. induction x as [|c x IH]; simpl.
  - destruct y as [|d y]; simpl; [reflexivity|]. rewrite Hy. reflexivity.
  - destruct (p c); [exact IH | reflexivity].
Qed.

Lemma takeWhile_app_stop p x y :
  forallb p x = true ->
  match y with [] => True | c :: _ => p c = false end ->
  takeWhile p (x ++ y) = x.
Proof.
  intros Hx Hy. induction x as [|c x IH]; simpl.
  - destruct y as [|d y]; simpl; [reflexivity|]. rewrite Hy. reflexivity.
  - simpl in Hx. apply andb_prop in Hx as [-> Hx]. rewrite IH by exact Hx.
    reflexivity.
Qed.

Lemma ticks_rev n : rev (ticks n) = ticks n.
Proof.
  unfold ticks. induction n as [|n IH]; simpl; [reflexivity|].
  rewrite IH. symmetry. apply repeat_cons.
Qed.

Lemma ticks_all n : forallb isTick (ticks n) = true.
Proof. unfold ticks. induction n as [|n IH]; simpl; auto. Qed.

Lemma all_ticks t : forallb isTick t = true -> t = ticks (length t).
Proof.
  induction t as [|c t IH]; simpl; [reflexivity|].
  intros H. apply andb_prop in H as [Hc Ht].
  apply N.eqb_eq in Hc. subst c. rewrite (IH Ht) at 1. reflexivity.
Qed.

(** What follows a run of at least one backtick stops white space. *)
Lemma ticks_stop_space n y :
  1 <= n -> match ticks n ++ y with [] => True | c :: _ => isSpace c = false end.
Proof. destruct n; [lia|]. intros _. reflexivity. Qed.

Lemma trimEnd_prefix s : exists z, s = trimEnd s ++ z.
Proof.
  exists (rev (takeWhile isSpace (rev s))). unfold trimEnd.
  rewrite <- rev_app_distr, takeWhile_dropWhile, rev_involutive. reflexivity.
Qed.

Lemma forallb_app_l (q : char -> bool) x y :
  forallb q (x ++ y) = true -> forallb q x = true.
Proof. rewrite forallb_app. intros H. apply andb_prop in H as [H _]. exact H. Qed.

(** The trimmed form of a line made of an indentation, a run of
    backticks and a rest. *)
Lemma trim_built indent m info :
  forallb isSpace indent = true -> 1 <= m ->
  trim (indent ++ ticks m ++ info) = ticks m ++ trimEnd info.
Proof.
  intros Hi Hm. unfold trim, trimStart.
  rewrite (dropWhile_app_all _ _ _ Hi).
  rewrite (dropWhile_fixed isSpace (ticks m ++ info) (ticks_stop_space m info Hm)).
  unfold trimEnd. rewrite rev_app_distr, ticks_rev, dropWhile_app_stop.
  - rewrite rev_app_distr, ticks_rev. reflexivity.
  - pose proof (ticks_stop_space m [] Hm) as H. rewrite app_nil_r in H. exact H.
Qed.

Lemma startsWith_ticks m x :
  match x with [] => True | c :: _ => isTick c = false end ->
  startsWith (ticks 3) (ticks m ++ x) = (3 <=? m).
Proof.
  intros Hx.
  assert (forall p, startsWith (BACKTICK :: p) x = false) as Hno.
  { intros p. destruct x as [|c x]; [reflexivity|]. cbn [startsWith].
    unfold isTick in Hx. rewrite N.eqb_sym in Hx. rewrite Hx. reflexivity. }
  destruct m as [|[|[|m]]].
  - exact (Hno [BACKTICK; BACKTICK]).
  - exact (Hno [BACKTICK]).
  - exact (Hno []).
  - reflexivity.
Qed.

Lemma matchTicksRest_built m x :
  1 <= m ->
  match x with [] => True | c :: _ => isTick c = false end ->
  forallb notTerminator x = true ->
  matchTicksRest (ticks m ++ x) = Some (ticks m, x).
Proof.
  intros Hm Hx Hall. unfold matchTicksRest.
  rewrite (takeWhile_app_stop isTick _ _ (ticks_all m) Hx).
  rewrite (dropWhile_app_all isTick _ _ (ticks_all m)), (dropWhile_fixed _ _ Hx).
  destruct m; [lia|]. cbn [ticks repeat isEmpty].
  fold notTerminator. change (fun c : char => negb (isLineTerminator c)) with notTerminator.
  rewrite Hall. reflexivity.
Qed.

(** How the scan reads a line made of an indentation, a run of backticks
    and a rest that does not go on with a backtick. *)
Lemma fenceOf_parts i indent m info :
  forallb isSpace indent = true -> 1 <= m ->
  match info with [] => True | c :: _ => isTick c = false end ->
  forallb notTerminator info = true ->
  fenceOf i (indent ++ ticks m ++ info) =
  if 3 <=? m
  then Some (mkFence i m (trim (trimEnd info)) (indent ++ ticks m ++ info))
  else None.
Proof.
  intros Hi Hm Hinfo Hall.
  destruct (trimEnd_prefix info) as [z Hz].
  assert (match trimEnd info with [] => True | c :: _ => isTick c = false end) as Hhead.
  { destruct (trimEnd info) as [|c u] eqn:Hu; [exact I|].
    rewrite Hz in Hinfo. exact Hinfo. }
  assert (forallb notTerminator (trimEnd info) = true) as Hall'.
  { rewrite Hz in Hall. eapply forallb_app_l, Hall. }
  rewrite fenceOf_direct, (trim_built _ _ _ Hi Hm), (startsWith_ticks _ _ Hhead).
  destruct (3 <=? m); [|reflexivity]. simpl negb. cbv iota.
  rewrite (matchTicksRest_built _ _ Hm Hhead Hall').
  assert (length (ticks m) = m) as -> by apply repeat_length. reflexivity.
Qed.

(** The parts into which steps 3 and 4 take an opener line. *)
Lemma opener_parts line indent t info :
  matchIndentTicksRest line = Some (indent, t, info) ->
  line = indent ++ ticks (length t) ++ info
  /\ indent = takeWhile isSpace line
  /\ forallb isSpace indent = true /\ 1 <= length t
  /\ match info with [] => True | c :: _ => isTick c = false end
  /\ forallb notTerminator info = true.
Proof.
  unfold matchIndentTicksRest, matchTicksRest.
  destruct (isEmpty (takeWhile isTick (dropWhile isSpace line))) eqn:He; [discriminate|].
  fold notTerminator. change (fun c : char => negb (isLineTerminator c)) with notTerminator.
  destruct (forallb notTerminator _) eqn:Hall; [|discriminate].
  intros H. inversion H; subst. clear H.
  rewrite <- (all_ticks _ (takeWhile_forallb isTick _)).
  rewrite takeWhile_dropWhile, takeWhile_dropWhile.
  repeat split; auto using takeWhile_forallb.
  - destruct (takeWhile isTick _); [discriminate | simpl; lia].
  - destruct (dropWhile isTick _) as [|c u] eqn:Hd; [exact I|].
    eapply dropWhile_head, Hd.
Qed.

Lemma startsWith_split p s : startsWith p s = true -> exists u, s = p ++ u.
Proof.
  revert s. induction p as [|c p IH]; intros s; [eauto|].
  destruct s as [|d s]; cbn [startsWith]; [discriminate|].
  intros H. apply andb_prop in H as [Hc H]. apply N.eqb_eq in Hc. subst d.
  destruct (IH _ H) as [u ->]. eauto.
Qed.

Lemma fence_length_ge3 i l f : fenceOf i l = Some f -> 3 <= f_length f.
Proof.
  rewrite fenceOf_direct.
  destruct (startsWith (ticks 3) (trim l)) eqn:Hs; [|discriminate]. simpl negb. cbv iota.
  unfold matchTicksRest. destruct (isEmpty _); [discriminate|].
  destruct (forallb _ _); [|discriminate].
  intros H. inversion H; subst. clear H.
  apply startsWith_split in Hs as [u ->]. simpl. lia.
Qed.

Lemma sameLine_refl i l : sameLine i l l.
Proof. unfold sameLine. destruct (fenceOf i l) as [f|] eqn:Hf; eauto. Qed.

Lemma sameLine_trans i l1 l2 l3 :
  sameLine i l1 l2 -> sameLine i l2 l3 -> sameLine i l1 l3.
Proof.
  unfold sameLine. destruct (fenceOf i l1) as [f|] eqn:Hf.
  - intros (f2 & Hf2 & Hinfo2 & Hind2). rewrite Hf2.
    intros (f3 & Hf3 & Hinfo3 & Hind3). exists f3. repeat split; congruence.
  - intros ->. rewrite Hf. auto.
Qed.

(** The opener as steps 3 and 4 write it back. *)
Lemma rebuilt_opener i line f indent t info n :
  fenceOf i line = Some f ->
  matchIndentTicksRest line = Some (indent, t, info) ->
  3 <= n ->
  sameLine i line (indent ++ ticks n ++ info).
Proof.
  intros Hf Hm Hn. unfold sameLine. rewrite Hf.
  destruct (opener_parts _ _ _ _ Hm) as (Hline & Hind & Hsp & Ht & Hhead & Hall).
  pose proof (fenceOf_parts i indent (length t) info Hsp Ht Hhead Hall) as Hold.
  rewrite <- Hline, Hf in Hold.
  pose proof (fenceOf_parts i indent n info Hsp ltac:(lia) Hhead Hall) as Hnew.
  assert ((3 <=? n) = true) as Hn' by (apply Nat.leb_le; exact Hn).
  rewrite Hn' in Hnew. eexists. split; [exact Hnew|]. split.
  - destruct (3 <=? length t); [|discriminate]. inversion Hold. reflexivity.
  - rewrite (takeWhile_app_stop isSpace indent _ Hsp (ticks_stop_space n info ltac:(lia))).
    exact Hind.
Qed.

Lemma fence_starts_with_tick i line g :
  fenceOf i line = Some g ->
  exists u, dropWhile isSpace line = BACKTICK :: u.
Proof.
  rewrite fenceOf_direct.
  destruct (startsWith (ticks 3) (trim line)) eqn:Hs; [|discriminate]. intros _.
  unfold trim, trimStart in Hs.
  destruct (trimEnd_prefix (dropWhile isSpace line)) as [z Hz].
  apply (startsWith_app _ _ z) in Hs. rewrite <- Hz in Hs.
  apply startsWith_split in Hs as [u ->]. simpl. eauto.
Qed.

(** The indentation that steps 3 and 4 read from a fence line. *)
Lemma closer_indent i line g :
  fenceOf i line = Some g ->
  exists t, matchIndentTicks line = Some (takeWhile isSpace line, t).
Proof.
  intros Hg. destruct (fence_starts_with_tick _ _ _ Hg) as [u Hu].
  unfold matchIndentTicks. rewrite Hu. simpl. eauto.
Qed.

(** An info-less fence line as steps 3 and 4 write it back. *)
Lemma rebuilt_closer i line g n :
  fenceOf i line = Some g -> f_info g = [] -> 3 <= n ->
  sameLine i line (takeWhile isSpace line ++ ticks n).
Proof.
  intros Hg Hinfo Hn. unfold sameLine. rewrite Hg.
  pose proof (fenceOf_parts i (takeWhile isSpace line) n []
                (takeWhile_forallb _ _) ltac:(lia) I eq_refl) as Hnew.
  rewrite app_nil_r in Hnew.
  assert ((3 <=? n) = true) as Hn' by (apply Nat.leb_le; exact Hn).
  rewrite Hn' in Hnew. eexists. split; [exact Hnew|]. split.
  - rewrite Hinfo. reflexivity.
  - pose proof (ticks_stop_space n [] ltac:(lia)) as Hstop. rewrite app_nil_r in Hstop.
    apply takeWhile_app_stop; [apply takeWhile_forallb | exact Hstop].
Qed.

Lemma frame_refl L : frame L L.
Proof. split; [lia|]. intros i l Hl. exists l. split; [exact Hl | apply sameLine_refl]. Qed.

Lemma frame_trans L1 L2 L3 : frame L1 L2 -> frame L2 L3 -> frame L1 L3.
Proof.
  intros [Hlen1 H1] [Hlen2 H2]. split; [lia|].
  intros i l Hl. destruct (H1 i l Hl) as (l2 & Hl2 & Hs2).
  destruct (H2 i l2 Hl2) as (l3 & Hl3 & Hs3).
  exists l3. split; [exact Hl3 | eapply sameLine_trans; eauto].
Qed.

Lemma frame_app L v : frame L (L ++ [v]).
Proof.
  split; [rewrite length_app; lia|].
  intros i l Hl. exists l. split; [|apply sameLine_refl].
  rewrite lookup_app_l; [exact Hl|]. apply lookup_lt_Some in Hl. exact Hl.
Qed.

(** The rewrite of steps 3 and 4, with the matches of the regular
    expressions worked out. *)
Lemma widen_direct L a b n :
  widen L a b n =
  match matchIndentTicksRest (nth a L []) with
  | None => None
  | Some (indent, _, info) =>
      let L1 := <[a := indent ++ ticks n ++ info]> L in
      let endIndent :=
        match matchIndentTicks (nth b L1 []) with
        | Some (i, _) => i
        | None => indent
        end in
      Some (<[b := endIndent ++ ticks n]> L1)
  end.
Proof.
  unfold widen. cbv zeta. rewrite search_indentTicksRestRe.
  destruct (matchIndentTicksRest _) as [[[indent t] info]|]; [|reflexivity].
  rewrite search_indentTicksRe.
  destruct (matchIndentTicks _) as [[i t']|]; reflexivity.
Qed.

(** The rewrite of steps 3 and 4 on an opener at [a] and an info-less
    fence line at [b]. *)
Lemma widen_frame L a b n L' f g :
  widen L a b n = Some L' ->
  a <> b -> 3 <= n ->
  L !! a = Some (f_raw f) -> fenceOf a (f_raw f) = Some f ->
  L !! b = Some (f_raw g) -> fenceOf b (f_raw g) = Some g -> f_info g = [] ->
  frame L L'.
Proof.
  rewrite widen_direct. intros H Hab Hn Ha Hfa Hb Hgb Hinfo.
  rewrite (nth_lookup_Some _ _ _ _ Ha) in H.
  destruct (matchIndentTicksRest (f_raw f)) as [[[indent t] info]|] eqn:Hm;
    [|discriminate].
  cbv zeta in H.
  assert (<[a:=indent ++ ticks n ++ info]> L !! b = Some (f_raw g)) as Hb1.
  { rewrite list_lookup_insert_ne by exact Hab. exact Hb. }
  rewrite (nth_lookup_Some _ _ _ _ Hb1) in H.
  destruct (closer_indent _ _ _ Hgb) as [t' Ht']. rewrite Ht' in H.
  inversion H; subst L'. clear H.
  split; [rewrite !length_insert; lia|].
  intros j l Hl.
  destruct (Nat.eq_dec j b) as [->|Hjb].
  - eexists. split.
    + apply list_lookup_insert_eq. rewrite length_insert.
      eapply lookup_lt_Some, Hb.
    + rewrite Hb in Hl. inversion Hl; subst l.
      eapply rebuilt_closer; eauto.
  - rewrite list_lookup_insert_ne by congruence.
    destruct (Nat.eq_dec j a) as [->|Hja].
    + eexists. split.
      * apply list_lookup_insert_eq. eapply lookup_lt_Some, Ha.
      * rewrite Ha in Hl. inversion Hl; subst l.
        eapply rebuilt_opener; eauto.
    + rewrite list_lookup_insert_ne by congruence.
      exists l. split; [exact Hl | apply sameLine_refl].
Qed.

Lemma fragmentationLoop_frame L blocks todo L' :
  Forall (blockIn (scanFences L)) todo ->
  fragmentationLoop L (scanFences L) blocks todo = Some L' -> frame L L'.
Proof.
  induction todo as [|b todo IH]; simpl; intros Hall H; [discriminate|].
  inversion Hall as [|? ? Hb Hall']; subst.
  destruct (find _ _) as [nf|] eqn:Hfind; [|auto].
  destruct (_ && _) eqn:Hcond; [|auto].
  destruct (widen _ _ _ _) as [L1|] eqn:Hw; [|auto].
  inversion H; subst. clear H.
  apply find_some in Hfind as [Hin Hlt]. apply list_elem_of_In in Hin.
  apply Nat.ltb_lt in Hlt.
  apply andb_prop in Hcond as [_ Hinfo].
  destruct Hb as (o & c & Ho & Hc & Hso & Hec & Hlen & _ & Hord).
  apply scanFences_elem in Ho as [Hol Hof].
  apply scanFences_elem in Hin as [Hnl Hnf].
  pose proof (fence_length_ge3 _ _ _ Hof) as H3.
  eapply (widen_frame L (b_start b) (f_index nf) _ L' o nf); eauto; try lia.
  - rewrite <- Hso. exact Hol.
  - rewrite <- Hso. exact Hof.
  - destruct (f_info nf); [reflexivity | discriminate].
Qed.

Lemma nestedLoop_frame L todo L' :
  Forall (blockIn (scanFences L)) todo ->
  nestedLoop L todo = Some L' -> frame L L'.
Proof.
  induction todo as [|b todo IH]; simpl; intros Hall H; [discriminate|].
  inversion Hall as [|? ? Hb Hall']; subst.
  destruct (_ <=? _) eqn:Hle; [|auto].
  destruct (widen _ _ _ _) as [L1|] eqn:Hw; [|auto].
  inversion H; subst. clear H.
  apply Nat.leb_le in Hle.
  destruct Hb as (o & c & Ho & Hc & Hso & Hec & Hlen & Hcl & Hord).
  apply scanFences_elem in Ho as [Hol Hof].
  apply scanFences_elem in Hc as [Hcl' Hcf].
  pose proof (fence_length_ge3 _ _ _ Hof) as H3.
  unfold closes in Hcl. apply andb_prop in Hcl as [_ Hinfo].
  eapply (widen_frame L (b_start b) (b_end b) _ L' o c); eauto; try lia.
  - rewrite <- Hso. exact Hol.
  - rewrite <- Hso. exact Hof.
  - rewrite <- Hec. exact Hcl'.
  - rewrite <- Hec. exact Hcf.
  - destruct (f_info c); [reflexivity | discriminate].
Qed.

(** Without an open block at the end of the pairing loop, the pass is
    steps 3 and 4 on the paired blocks. *)
Lemma repairPass_closed L :
  snd (pairFences (scanFences L)) = None ->
  repairPass L =
  let blocks := fst (pairFences (scanFences L)) in
  match fragmentationLoop L (scanFences L) blocks blocks with
  | Some L' => (L', true)
  | None => match nestedLoop L blocks with
            | Some L' => (L', true)
            | None => (L, false)
            end
  end.
Proof.
  unfold repairPass. destruct (pairFences _) as [blocks cur]. simpl.
  intros ->. reflexivity.
Qed.

(** With an open block, the pass appends its closer. *)
Lemma repairPass_dangling L c :
  snd (pairFences (scanFences L)) = Some c ->
  repairPass L =
  (L ++ [matchIndent (nth (f_index c) L []) ++ ticks (f_length c)], true).
Proof.
  intros H. pose proof (dangling_no_closer L c H) as Hfind.
  unfold repairPass, unclosedStep. destruct (pairFences _) as [blocks cur].
  simpl in H. subst cur. rewrite Hfind, search_indentRe. reflexivity.
Qed.

Lemma repairPass_frame L : frame L (fst (repairPass L)).
Proof.
  destruct (snd (pairFences (scanFences L))) as [c|] eqn:Hd.
  - rewrite (repairPass_dangling L c Hd). apply frame_app.
  - rewrite (repairPass_closed L Hd). cbv zeta.
    pose proof (pairFences_blocks L) as [Hb _].
    destruct (fragmentationLoop _ _ _ _) as [L1|] eqn:H1.
    { simpl. eapply fragmentationLoop_frame; eauto. }
    destruct (nestedLoop _ _) as [L2|] eqn:H2.
    { simpl. eapply nestedLoop_frame; eauto. }
    apply frame_refl.
Qed.

(** A pass that reports no change returns the lines it was given, and
    met no open block. *)
Lemma repairPass_unchanged L :
  snd (repairPass L) = false ->
  fst (repairPass L) = L /\ snd (pairFences (scanFences L)) = None.
Proof.
  destruct (snd (pairFences (scanFences L))) as [c|] eqn:Hd.
  - rewrite (repairPass_dangling L c Hd). discriminate.
  - rewrite (repairPass_closed L Hd). cbv zeta.
    destruct (fragmentationLoop _ _ _ _); [discriminate|].
    destruct (nestedLoop _ _); [discriminate|]. auto.
Qed.

Lemma repairLoop_frame n : forall L ch, frame L (fst (repairLoop n L ch)).
Proof.
  induction n as [|n IH]; intros L ch; simpl; [apply frame_refl|].
  pose proof (repairPass_frame L) as Hp.
  destruct (repairPass L) as [L' changed]. simpl in Hp.
  destruct changed; [|exact Hp].
  eapply frame_trans; [exact Hp | apply IH].
Qed.

(** The loop left with [changesMade = false] stopped on lines that a pass
    leaves alone. *)
Lemma repairLoop_settled n : forall L ch,
  snd (repairLoop n L ch) = false ->
  (n = 0 /\ ch = false)
  \/ (fst (repairPass (fst (repairLoop n L ch))) = fst (repairLoop n L ch)
      /\ snd (repairPass (fst (repairLoop n L ch))) = false).
Proof.
  induction n as [|n IH]; intros L ch; simpl.
  - intros ->. left. auto.
  - destruct (repairPass L) as [L' changed] eqn:Hp.
    destruct changed.
    + intros H. right. destruct (IH _ _ H) as [[_ Hch]|Hr]; [discriminate | exact Hr].
    + intros _. right. simpl.
      assert (snd (repairPass L) = false) as Hs by (rewrite Hp; reflexivity).
      destruct (repairPass_unchanged L Hs) as [HL _].
      rewrite Hp in HL. simpl in HL. subst L'. rewrite Hp. auto.
Qed.

Lemma ticks_noNL n : NL ∉ ticks n.
Proof.
  intros H. apply ticks_elem in H. discriminate.
Qed.

Lemma nth_noNL L i : noNL L -> NL ∉ nth i L [].
Proof.
  intros H. rewrite nth_lookup. destruct (L !! i) as [l|] eqn:Hl; simpl.
  - unfold noNL in H. rewrite Forall_lookup in H. eapply H; eauto.
  - apply not_elem_of_nil.
Qed.

Lemma matchIndentTicks_indent s i r c :
  matchIndentTicks s = Some (i, r) -> c ∈ i -> c ∈ s.
Proof.
  unfold matchIndentTicks. destruct (isEmpty _); [discriminate|].
  intros H. inversion H; subst. apply takeWhile_elem.
Qed.

Lemma matchTicksRest_parts s r rest : matchTicksRest s = Some (r, rest) -> r ++ rest = s.
Proof.
  unfold matchTicksRest. destruct (isEmpty _); [discriminate|].
  destruct (forallb _ _); [|discriminate].
  intros H. inversion H; subst. apply takeWhile_dropWhile.
Qed.

Lemma matchIndentTicksRest_parts s i r rest :
  matchIndentTicksRest s = Some (i, r, rest) -> i ++ r ++ rest = s.
Proof.
  unfold matchIndentTicksRest.
  destruct (matchTicksRest _) as [[r' rest']|] eqn:Hm; [|discriminate].
  intros H. inversion H; subst.
  rewrite (matchTicksRest_parts _ _ _ Hm). apply takeWhile_dropWhile.
Qed.

Lemma widen_noNL L a b n L' : widen L a b n = Some L' -> noNL L -> noNL L'.
Proof.
  rewrite widen_direct. cbv zeta. intros H HL.
  destruct (matchIndentTicksRest _) as [[[indent run] info]|] eqn:Hm; [|discriminate].
  inversion H; subst. clear H.
  apply matchIndentTicksRest_parts in Hm.
  pose proof (nth_noNL L a HL) as Ha. rewrite <- Hm in Ha.
  rewrite !not_elem_of_app in Ha. destruct Ha as (Hi & _ & Hinfo).
  assert (noNL (<[a:=indent ++ ticks n ++ info]> L)) as H1.
  { apply Forall_insert; [exact HL|].
    rewrite !not_elem_of_app. repeat split; auto.
    apply ticks_noNL. }
  apply Forall_insert; [exact H1|].
  rewrite not_elem_of_app. split; [|apply ticks_noNL].
  destruct (matchIndentTicks _) as [[i r]|] eqn:Hmi; [|exact Hi].
  intros Hin. eapply matchIndentTicks_indent in Hin; [|exact Hmi].
  revert Hin. apply nth_noNL. exact H1.
Qed.

Lemma fragmentationLoop_noNL L fl blocks todo L' :
  fragmentationLoop L fl blocks todo = Some L' -> noNL L -> noNL L'.
Proof.
  induction todo as [|b todo IH]; simpl; intros H HL; [discriminate|].
  destruct (find _ _) as [nf|]; [|auto].
  destruct (_ && _); [|auto].
  destruct (widen _ _ _ _) as [L1|] eqn:Hw; [|auto].
  inversion H; subst. eapply widen_noNL; eauto.
Qed.

Lemma nestedLoop_noNL L todo L' :
  nestedLoop L todo = Some L' -> noNL L -> noNL L'.
Proof.
  induction todo as [|b todo IH]; simpl; intros H HL; [discriminate|].
  destruct (_ <=? _); [|auto].
  destruct (widen _ _ _ _) as [L1|] eqn:Hw; [|auto].
  inversion H; subst. eapply widen_noNL; eauto.
Qed.

Lemma repairPass_noNL L : noNL L -> noNL (fst (repairPass L)).
Proof.
  intros HL. destruct (snd (pairFences (scanFences L))) as [c|] eqn:Hd.
  - rewrite (repairPass_dangling L c Hd). simpl.
    apply Forall_app. split; [exact HL|]. constructor; [|constructor].
    rewrite not_elem_of_app. split; [|apply ticks_noNL].
    intros Hin. apply takeWhile_elem in Hin. revert Hin. apply nth_noNL, HL.
  - rewrite (repairPass_closed L Hd). cbv zeta.
    destruct (fragmentationLoop _ _ _ _) as [L1|] eqn:H1.
    { simpl. eapply fragmentationLoop_noNL; eauto. }
    destruct (nestedLoop _ _) as [L2|] eqn:H2.
    { simpl. eapply nestedLoop_noNL; eauto. }
    exact HL.
Qed.

Lemma repairLoop_noNL n : forall L ch, noNL L -> noNL (fst (repairLoop n L ch)).
Proof.
  induction n as [|n IH]; intros L ch HL; simpl; [exact HL|].
  pose proof (repairPass_noNL L HL) as Hp.
  destruct (repairPass L) as [L' changed]. simpl in Hp.
  destruct changed; [apply IH|]; exact Hp.
Qed.

Lemma repairLoop_nonempty n L ch : L <> [] -> fst (repairLoop n L ch) <> [].
Proof.
  intros HL Hnil. pose proof (repairLoop_frame n L ch) as [Hlen _].
  rewrite Hnil in Hlen. destruct L; [congruence | simpl in Hlen; lia].
Qed.

(** The lines of the repaired text are the lines the loop ends with. *)
Lemma repaired_lines content :
  includes (ticks 3) content = true ->
  splitOn NL (repairMarkdown content) = fst (repairLoop 3 (splitOn NL content) false).
Proof.
  intros Hinc. unfold repairMarkdown. rewrite Hinc. simpl negb. cbv iota.
  apply splitOn_join.
  - apply repairLoop_nonempty, splitOn_nonempty.
  - apply repairLoop_noNL, splitOn_no_sep.
Qed.

End PassFacts.

(** ** Text without three backticks in a row has no fence line *)

Section NoFence.

Lemma fence_line_includes i line f :
  fenceOf i line = Some f -> includes (ticks 3) line = true.
Proof.
  unfold fenceOf. destruct (startsWith (ticks 3) (trim line)) eqn:Hs; [|discriminate].
  intros _. destruct (trim_inside line) as (a & b & Heq).
  rewrite Heq. apply includes_suffix, includes_prefix, includes_startsWith, Hs.
Qed.

Lemma no_ticks_no_fences content :
  includes (ticks 3) content = false -> scanFences (splitOn NL content) = [].
Proof.
  intros Hinc. destruct (scanFences _) as [|f fl] eqn:Hscan; [reflexivity|].
  assert (f ∈ scanFences (splitOn NL content)) as Hin by (rewrite Hscan; left).
  apply scanFences_elem in Hin as [Hl Hf].
  apply fence_line_includes in Hf.
  apply list_elem_of_lookup_2 in Hl.
  destruct (join_inside [NL] _ _ Hl) as (a & b & Heq).
  rewrite join_splitOn in Heq.
  rewrite Heq, includes_suffix in Hinc; [discriminate|].
  apply includes_prefix, Hf.
Qed.

End NoFence.
(** ** The shape of a repair pass *)

Section PassShape.

Lemma scanFences_complete L i l f :
  L !! i = Some l -> fenceOf i l = Some f -> f ∈ scanFences L.
Proof.
  intros Hl Hf. unfold scanFences. apply list_elem_of_omap.
  exists (Some f). split; [|reflexivity].
  apply list_elem_of_lookup. exists i.
  rewrite list_lookup_imap, Hl. simpl. rewrite Hf. reflexivity.
Qed.

Lemma scanFences_none L :
  (forall i l, L !! i = Some l -> fenceOf i l = None) -> scanFences L = [].
Proof.
  intros H. destruct (scanFences L) as [|f fl] eqn:Hs; [reflexivity|].
  assert (f ∈ scanFences L) as Hin by (rewrite Hs; left).
  apply scanFences_elem in Hin as [Hl Hf].
  rewrite (H _ _ Hl) in Hf. discriminate.
Qed.

Lemma maxTicks_ge L f : f ∈ scanFences L -> f_length f <= maxTicks L.
Proof.
  unfold maxTicks. induction (scanFences L) as [|g fl IH]; intros Hin.
  - inversion Hin.
  - simpl. inversion Hin; subst; [lia|]. specialize (IH ltac:(assumption)). lia.
Qed.

Lemma maxTicks_le L n :
  (forall f, f ∈ scanFences L -> f_length f <= n) -> maxTicks L <= n.
Proof.
  unfold maxTicks. induction (scanFences L) as [|g fl IH]; intros H; simpl; [lia|].
  pose proof (H g ltac:(left)).
  assert (fold_right Nat.max 0 (map f_length fl) <= n).
  { apply IH. intros f Hf. apply H. right. exact Hf. }
  lia.
Qed.

(** The two assignments of [widen], written out. *)
Lemma widen_shape L a b n L' f g :
  widen L a b n = Some L' ->
  a <> b ->
  L !! a = Some (f_raw f) ->
  L !! b = Some (f_raw g) -> fenceOf b (f_raw g) = Some g ->
  exists indent t info,
    matchIndentTicksRest (f_raw f) = Some (indent, t, info)
    /\ L' = <[b := takeWhile isSpace (f_raw g) ++ ticks n]>
              (<[a := indent ++ ticks n ++ info]> L).
Proof.
  rewrite widen_direct. intros H Hab Ha Hb Hgb.
  rewrite (nth_lookup_Some _ _ _ _ Ha) in H.
  destruct (matchIndentTicksRest (f_raw f)) as [[[indent t] info]|] eqn:Hm;
    [|discriminate].
  cbv zeta in H.
  assert (<[a:=indent ++ ticks n ++ info]> L !! b = Some (f_raw g)) as Hb1.
  { rewrite list_lookup_insert_ne by exact Hab. exact Hb. }
  rewrite (nth_lookup_Some _ _ _ _ Hb1) in H.
  destruct (closer_indent _ _ _ Hgb) as [t' Ht']. rewrite Ht' in H.
  inversion H; subst L'. exists indent, t, info. auto.
Qed.

(** A line that counts in step 4 is a fence line of that length. *)
Lemma innerTicks_fence i line :
  1 <= innerTicks line ->
  exists h, fenceOf i line = Some h /\ f_length h = innerTicks line.
Proof.
  rewrite innerTicks_direct, fenceOf_direct. unfold matchTicks3Rest, matchTicksRest.
  destruct (_ && _) eqn:Hc; [|simpl; lia].
  apply andb_prop in Hc as [H3 Hrest]. apply Nat.leb_le in H3.
  destruct (isEmpty (trim (dropWhile isTick (trim line)))) eqn:He; [|lia].
  intros _.
  assert (startsWith (ticks 3) (trim line) = true) as Hs.
  { pose proof (takeWhile_forallb isTick (trim line)) as Hall.
    rewrite <- (takeWhile_dropWhile isTick (trim line)).
    apply startsWith_app.
    destruct (takeWhile isTick (trim line)) as [|a [|b [|c r]]];
      simpl in H3; try lia.
    simpl in Hall. unfold isTick in Hall.
    apply andb_prop in Hall as [Ha Hall]. apply andb_prop in Hall as [Hb Hall].
    apply andb_prop in Hall as [Hc _].
    apply N.eqb_eq in Ha, Hb, Hc. subst. reflexivity. }
  rewrite Hs. simpl negb. cbv iota.
  destruct (isEmpty (takeWhile isTick (trim line))) eqn:Hemp.
  { destruct (takeWhile isTick (trim line)); [simpl in H3; lia | discriminate]. }
  rewrite Hrest. eexists. split; [reflexivity|]. reflexivity.
Qed.

Lemma fold_max_inner ls : forall m0,
  fold_left (fun m line => Nat.max m (innerTicks line)) ls m0 = m0
  \/ exists line, line ∈ ls
       /\ fold_left (fun m line => Nat.max m (innerTicks line)) ls m0 = innerTicks line.
Proof.
  induction ls as [|l ls IH]; intros m0; simpl; [left; reflexivity|].
  destruct (IH (Nat.max m0 (innerTicks l))) as [H|(line & Hin & H)].
  - rewrite H. destruct (Nat.max_spec m0 (innerTicks l)) as [[_ ->]|[_ ->]].
    + right. exists l. split; [left | reflexivity].
    + left. reflexivity.
  - right. exists line. split; [right; exact Hin | exact H].
Qed.

Lemma maxInner_fence L block :
  1 <= maxInnerBackticks L block ->
  exists h, h ∈ scanFences L /\ f_length h = maxInnerBackticks L block.
Proof.
  unfold maxInnerBackticks. intros H1.
  destruct (fold_max_inner (slice (b_start block + 1) (b_end block) L) 0)
    as [H0|(line & Hin & Hm)]; [lia|].
  rewrite Hm in *.
  unfold slice in Hin. apply subseteq_take in Hin. apply subseteq_drop in Hin.
  apply list_elem_of_lookup in Hin as [i Hi].
  destruct (innerTicks_fence i line H1) as (h & Hh & Hlen).
  exists h. split; [eapply scanFences_complete; eauto | exact Hlen].
Qed.

Lemma fragmentationLoop_shape L blocks todo L' :
  Forall (blockIn (scanFences L)) todo ->
  fragmentationLoop L (scanFences L) blocks todo = Some L' -> passResult L L'.
Proof.
  induction todo as [|b todo IH]; simpl; intros Hall H; [discriminate|].
  inversion Hall as [|? ? Hb Hall']; subst.
  destruct (find _ _) as [nf|] eqn:Hfind; [|auto].
  destruct (_ && _) eqn:Hcond; [|auto].
  destruct (widen _ _ _ _) as [L1|] eqn:Hw; [|auto].
  inversion H; subst. clear H.
  apply find_some in Hfind as [Hin Hlt]. apply list_elem_of_In in Hin.
  apply Nat.ltb_lt in Hlt.
  apply andb_prop in Hcond as [_ Hinfo].
  destruct Hb as (o & c & Ho & Hc & Hso & Hec & Hlen & _ & Hord).
  pose proof Ho as Ho'. pose proof Hin as Hin'.
  apply scanFences_elem in Ho' as [Hol Hof].
  apply scanFences_elem in Hin' as [Hnl Hnf].
  rewrite <- Hso, <- Hlen, Nat.add_1_r in Hw.
  destruct (widen_shape L (f_index o) (f_index nf) _ L' o nf Hw)
    as (indent & t & info & Hm & ->); auto; [lia|].
  eapply pass_widen; eauto; [lia|].
  destruct (f_info nf); [reflexivity | discriminate].
Qed.

Lemma nestedLoop_shape L todo L' :
  Forall (blockIn (scanFences L)) todo ->
  nestedLoop L todo = Some L' -> passResult L L'.
Proof.
  induction todo as [|b todo IH]; simpl; intros Hall H; [discriminate|].
  inversion Hall as [|? ? Hb Hall']; subst.
  destruct (_ <=? _) eqn:Hle; [|auto].
  destruct (widen _ _ _ _) as [L1|] eqn:Hw; [|auto].
  inversion H; subst. clear H.
  apply Nat.leb_le in Hle.
  destruct Hb as (o & c & Ho & Hc & Hso & Hec & Hlen & Hcl & Hord).
  pose proof Ho as Ho'. pose proof Hc as Hc'.
  apply scanFences_elem in Ho' as [Hol Hof].
  apply scanFences_elem in Hc' as [Hcl' Hcf].
  pose proof (fence_length_ge3 _ _ _ Hof) as H3.
  unfold closes in Hcl. apply andb_prop in Hcl as [_ Hinfo].
  destruct (maxInner_fence L b) as (h & Hh & Hhl); [lia|].
  rewrite <- Hso, <- Hec, <- Hhl, Nat.add_1_r in Hw.
  destruct (widen_shape L (f_index o) (f_index c) _ L' o c Hw)
    as (indent & t & info & Hm & ->); auto; [lia|].
  eapply pass_widen; eauto; [lia|].
  destruct (f_info c); [reflexivity | discriminate].
Qed.

Lemma repairPass_shape L : passResult L (fst (repairPass L)).
Proof.
  destruct (snd (pairFences (scanFences L))) as [c|] eqn:Hd.
  - rewrite (repairPass_dangling L c Hd). simpl.
    pose proof (pairFences_blocks L) as [_ Hc]. specialize (Hc c Hd).
    pose proof Hc as Hc'. apply scanFences_elem in Hc' as [Hl _].
    rewrite (nth_lookup_Some _ _ _ _ Hl). apply pass_append. exact Hc.
  - rewrite (repairPass_closed L Hd). cbv zeta.
    pose proof (pairFences_blocks L) as [Hb _].
    destruct (fragmentationLoop _ _ _ _) as [L1|] eqn:H1.
    { simpl. eapply fragmentationLoop_shape; eauto. }
    destruct (nestedLoop _ _) as [L2|] eqn:H2.
    { simpl. eapply nestedLoop_shape; eauto. }
    apply pass_same.
Qed.

(** An invariant of the passes is an invariant of the loop. *)
Lemma repairLoop_invariant (I : list str -> Prop) :
  (forall L L', passResult L L' -> I L -> I L') ->
  forall n L ch, I L -> I (fst (repairLoop n L ch)).
Proof.
  intros Hstep. induction n as [|n IH]; intros L ch HI; simpl; [exact HI|].
  pose proof (repairPass_shape L) as Hp.
  destruct (repairPass L) as [L' changed]. simpl in Hp.
  destruct changed; simpl; [apply IH|]; eapply Hstep; eauto.
Qed.

Lemma repairLoop_measure (mu : list str -> nat) :
  (forall L L', passResult L L' -> mu L' <= mu L + 1) ->
  forall n L ch, mu (fst (repairLoop n L ch)) <= mu L + n.
Proof.
  intros Hstep. induction n as [|n IH]; intros L ch; simpl; [lia|].
  pose proof (repairPass_shape L) as Hp.
  destruct (repairPass L) as [L' changed]. simpl in Hp.
  apply Hstep in Hp.
  destruct changed; simpl; [|lia].
  specialize (IH L' true). lia.
Qed.

Lemma pass_length L L' : passResult L L' -> length L' <= length L + 1.
Proof.
  intros [|c Hc|o g h indent t info Ho Hg Hh Hne Hinfo Hm].
  - lia.
  - rewrite length_app. simpl. lia.
  - rewrite !length_insert. lia.
Qed.

Lemma closerLine_built indent n :
  forallb isSpace indent = true -> 1 <= n -> closerLine (indent ++ ticks n) = true.
Proof.
  intros Hi Hn. unfold closerLine.
  rewrite dropWhile_app_all by exact Hi.
  rewrite dropWhile_fixed.
  - rewrite ticks_all. destruct n; [lia | reflexivity].
  - destruct n; [lia|]. reflexivity.
Qed.

Lemma forallb_takeWhile_all (p : char -> bool) s :
  forallb p s = true -> takeWhile p s = s /\ dropWhile p s = [].
Proof.
  induction s as [|x s IH]; simpl; [auto|].
  intros H. apply andb_prop in H as [Hx Hs]. rewrite Hx.
  destruct (IH Hs) as [-> ->]. auto.
Qed.

Lemma closerLine_rest l indent t info :
  closerLine l = true -> matchIndentTicksRest l = Some (indent, t, info) -> info = [].
Proof.
  unfold closerLine, matchIndentTicksRest, matchTicksRest.
  intros Hc. apply andb_prop in Hc as [_ Hall].
  destruct (forallb_takeWhile_all isTick _ Hall) as [Ht Hd].
  rewrite Ht, Hd.
  destruct (isEmpty (dropWhile isSpace l)); [discriminate|].
  simpl. intros H. inversion H. reflexivity.
Qed.

(** The lines from [n0] on are closing fences, and stay so. *)
Lemma pass_tail n0 L L' :
  passResult L L' ->
  (forall i l, n0 <= i -> L !! i = Some l -> closerLine l = true) ->
  forall i l, n0 <= i -> L' !! i = Some l -> closerLine l = true.
Proof.
  intros [|c Hc|o g h indent t info Ho Hg Hh Hne Hinfo Hm] HI i l Hi Hl.
  - eauto.
  - apply lookup_app_Some in Hl as [Hl|[Hlen Hl]]; [eauto|].
    destruct (i - length L) as [|k]; [|destruct k; discriminate].
    simpl in Hl. inversion Hl; subst l.
    apply scanFences_elem in Hc as [_ Hf]. apply fence_length_ge3 in Hf.
    apply closerLine_built; [apply takeWhile_forallb | lia].
  - destruct (Nat.eq_dec i (f_index g)) as [->|Hig].
    + apply list_lookup_insert_Some in Hl as [(_ & <- & _)|[Hc _]]; [|congruence].
      apply closerLine_built; [apply takeWhile_forallb | lia].
    + rewrite list_lookup_insert_ne in Hl by congruence.
      destruct (Nat.eq_dec i (f_index o)) as [->|Hio].
      * apply list_lookup_insert_Some in Hl as [(_ & <- & _)|[Hc _]]; [|congruence].
        apply scanFences_elem in Ho as [Hol _].
        pose proof (HI _ _ Hi Hol) as Hcl.
        rewrite (closerLine_rest _ _ _ _ Hcl Hm), app_nil_r.
        destruct (opener_parts _ _ _ _ Hm) as (_ & _ & Hsp & _).
        apply closerLine_built; [exact Hsp | lia].
      * rewrite list_lookup_insert_ne in Hl by congruence. eauto.
Qed.

Lemma fenceOf_closer i indent n f :
  forallb isSpace indent = true -> 1 <= n ->
  fenceOf i (indent ++ ticks n) = Some f -> f_length f = n.
Proof.
  intros Hi Hn Hf.
  rewrite <- (app_nil_r (ticks n)) in Hf.
  rewrite fenceOf_parts in Hf by (simpl; auto).
  destruct (3 <=? n); inversion Hf. reflexivity.
Qed.

(** A pass makes no fence more than one backtick longer than the longest
    it found. *)
Lemma pass_growth L L' : passResult L L' -> maxTicks L' <= maxTicks L + 1.
Proof.
  intros HP. apply maxTicks_le. intros f Hf.
  apply scanFences_elem in Hf as [Hl Hf].
  destruct HP as [|c Hc|o g h indent t info Ho Hg Hh Hne Hinfo Hm].
  - pose proof (maxTicks_ge L f (scanFences_complete _ _ _ _ Hl Hf)). lia.
  - apply lookup_app_Some in Hl as [Hl|[Hlen Hl]].
    + pose proof (maxTicks_ge L f (scanFences_complete _ _ _ _ Hl Hf)). lia.
    + destruct (f_index f - length L) as [|k]; [|destruct k; discriminate].
      simpl in Hl. inversion Hl as [Hraw]. rewrite <- Hraw in Hf.
      pose proof (maxTicks_ge L c Hc).
      apply scanFences_elem in Hc as [_ Hcf]. apply fence_length_ge3 in Hcf.
      apply fenceOf_closer in Hf; [lia | apply takeWhile_forallb | lia].
  - pose proof (maxTicks_ge L h Hh).
    destruct (Nat.eq_dec (f_index f) (f_index g)) as [Hig|Hig].
    + rewrite Hig in Hl.
      apply list_lookup_insert_Some in Hl as [(_ & Hraw & _)|[Hc _]]; [|congruence].
      rewrite <- Hraw in Hf.
      apply fenceOf_closer in Hf; [lia | apply takeWhile_forallb | lia].
    + rewrite list_lookup_insert_ne in Hl by congruence.
      destruct (Nat.eq_dec (f_index f) (f_index o)) as [Hio|Hio].
      * rewrite Hio in Hl.
        apply list_lookup_insert_Some in Hl as [(_ & Hraw & _)|[Hc _]]; [|congruence].
        rewrite <- Hraw in Hf.
        destruct (opener_parts _ _ _ _ Hm) as (_ & _ & Hsp & _ & Hhead & Hnt).
        rewrite fenceOf_parts in Hf by (auto; lia).
        destruct (3 <=? S (f_length h)); inversion Hf. simpl. lia.
      * rewrite list_lookup_insert_ne in Hl by congruence.
        pose proof (maxTicks_ge L f (scanFences_complete _ _ _ _ Hl Hf)). lia.
Qed.

(** A fence line with an info string that [startMatch] does not match is
    not assigned to. *)
Lemma pass_untouched L L' i l f :
  passResult L L' ->
  L !! i = Some l -> fenceOf i l = Some f -> f_info f <> [] ->
  matchIndentTicksRest l = None ->
  L' !! i = Some l.
Proof.
  intros HP Hl Hf Hinfo Hnone.
  destruct HP as [|c Hc|o g h indent t info Ho Hg Hh Hne Hginfo Hm].
  - exact Hl.
  - rewrite lookup_app_l; [exact Hl | eapply lookup_lt_Some; eauto].
  - apply scanFences_elem in Ho as [Hol Hof].
    apply scanFences_elem in Hg as [Hgl Hgf].
    rewrite list_lookup_insert_ne.
    + rewrite list_lookup_insert_ne; [exact Hl|].
      intros <-. rewrite Hol in Hl. inversion Hl; subst l. congruence.
    + intros <-. rewrite Hgl in Hl. inversion Hl; subst l.
      rewrite Hgf in Hf. inversion Hf; subst f. contradiction.
Qed.

Lemma suffix_last (s : str) : forall w d c u,
  s = w ++ [d] -> forall p, dropWhile p s = c :: u -> exists z, c :: u = z ++ [d].
Proof.
  induction s as [|x s IH]; intros w d c u Hs p Hd.
  - destruct w; discriminate.
  - simpl in Hd. destruct (p x).
    + destruct w as [|y w]; simpl in Hs; inversion Hs; subst.
      * simpl in Hd. discriminate.
      * eapply IH; eauto.
    + inversion Hd; subst. exists w. exact Hs.
Qed.

(** A fence line that ends with a carriage return is one that
    [startMatch] does not match. *)
Lemma opener_with_cr i body f :
  fenceOf i (body ++ [CR]) = Some f -> matchIndentTicksRest (body ++ [CR]) = None.
Proof.
  intros Hf. destruct (fence_starts_with_tick _ _ _ Hf) as [u Hu].
  destruct (suffix_last (body ++ [CR]) body CR BACKTICK u eq_refl isSpace Hu) as [z Hz].
  unfold matchIndentTicksRest, matchTicksRest. rewrite Hu, Hz.
  destruct (dropWhile_keeps isTick z CR eq_refl) as [z' Hz']. rewrite Hz'.
  destruct (isEmpty _); [reflexivity|].
  replace (forallb _ (z' ++ [CR])) with false; [reflexivity|].
  rewrite forallb_app. simpl. rewrite andb_false_r. reflexivity.
Qed.

(** The lines of the result, also when [repairMarkdown] returns at once. *)
Lemma repaired_lines_all content :
  splitOn NL (repairMarkdown content)
  = if includes (ticks 3) content
    then fst (repairLoop 3 (splitOn NL content) false)
    else splitOn NL content.
Proof.
  destruct (includes (ticks 3) content) eqn:Hi.
  - apply repaired_lines. exact Hi.
  - unfold repairMarkdown. rewrite Hi. reflexivity.
Qed.

(** The fence line that step 4 counts stands inside the block. *)
Lemma maxInner_between L block :
  1 <= maxInnerBackticks L block ->
  exists h i, L !! i = Some (f_raw h) /\ fenceOf i (f_raw h) = Some h
              /\ b_start block < i < b_end block
              /\ f_length h = maxInnerBackticks L block.
Proof.
  unfold maxInnerBackticks. intros H1.
  destruct (fold_max_inner (slice (b_start block + 1) (b_end block) L) 0)
    as [H0|(line & Hin & Hm)]; [lia|].
  rewrite Hm in *.
  unfold slice in Hin. apply list_elem_of_lookup in Hin as [j Hj].
  apply lookup_take_Some in Hj as [Hj Hlt]. rewrite lookup_drop in Hj.
  destruct (innerTicks_fence (b_start block + 1 + j) line H1) as (h & Hh & Hlen).
  pose proof (fenceOf_index _ _ _ Hh) as [_ Hraw].
  exists h, (b_start block + 1 + j). rewrite Hraw.
  repeat split; auto; lia.
Qed.

(** Two fence lines, the second of which closes the first: the pass
    finds one block and nothing to do. *)
Lemma repairPass_single_block L o c :
  scanFences L = [o; c] -> closes o c = true -> repairPass L = (L, false).
Proof.
  intros Hscan Hcl.
  pose proof (scanFrom_sorted 0 L) as Hsorted.
  rewrite <- scanFences_scanFrom, Hscan in Hsorted.
  assert (f_index o < f_index c) as Hlt.
  { inversion Hsorted as [|? ? _ Hall]; subst. inversion Hall; subst. assumption. }
  unfold repairPass. rewrite Hscan.
  unfold pairFences. cbn [fold_left pairStep]. unfold closes in Hcl. rewrite Hcl.
  cbn [app fragmentationLoop find b_end].
  replace (f_index c <? f_index o) with false by (symmetry; apply Nat.ltb_ge; lia).
  rewrite Nat.ltb_irrefl.
  cbn [nestedLoop b_fenceLength].
  destruct (f_length o <=? maxInnerBackticks L _) eqn:Hle; [|reflexivity].
  exfalso. apply Nat.leb_le in Hle.
  assert (o ∈ scanFences L) as Ho by (rewrite Hscan; left).
  pose proof Ho as Ho'. apply scanFences_elem in Ho' as [_ Hof].
  pose proof (fence_length_ge3 _ _ _ Hof) as H3.
  destruct (maxInner_between L (mkBlock (f_index o) (f_index c) (f_length o))
              ltac:(lia)) as (h & i & Hl & Hf & Hbetween & _).
  cbn [b_start b_end] in Hbetween.
  pose proof (fenceOf_index _ _ _ Hf) as [Hi _].
  pose proof (scanFences_complete _ _ _ _ Hl Hf) as Hh.
  rewrite Hscan in Hh.
  apply elem_of_cons in Hh as [->|Hh]; [lia|].
  apply elem_of_cons in Hh as [->|Hh]; [lia | inversion Hh].
Qed.

(** *** What the repair makes of a fence line *)

Lemma white_stops_ticks z :
  forallb isSpace z = true -> match z with [] => True | c :: _ => isTick c = false end.
Proof.
  destruct z as [|c z]; [auto|]. simpl. intros H. apply andb_prop in H as [H _].
  apply space_not_tick, H.
Qed.

Lemma trimEnd_white s : exists z, s = trimEnd s ++ z /\ forallb isSpace z = true.
Proof.
  exists (rev (takeWhile isSpace (rev s))). split.
  - unfold trimEnd. rewrite <- rev_app_distr, takeWhile_dropWhile, rev_involutive.
    reflexivity.
  - apply forallb_forall. intros c Hc. apply in_rev in Hc.
    pose proof (takeWhile_forallb isSpace (rev s)) as Hall.
    rewrite forallb_forall in Hall. apply Hall, Hc.
Qed.

Lemma takeWhile_app_white x z :
  forallb isSpace z = true -> takeWhile isTick (x ++ z) = takeWhile isTick x.
Proof.
  intros Hz. induction x as [|c x IH]; simpl.
  - pose proof (white_stops_ticks z Hz) as H. destruct z as [|d z]; [reflexivity|].
    simpl. rewrite H. reflexivity.
  - destruct (isTick c); [rewrite IH|]; reflexivity.
Qed.

Lemma dropWhile_app_white x z :
  forallb isSpace z = true -> dropWhile isTick (x ++ z) = dropWhile isTick x ++ z.
Proof. intros Hz. apply dropWhile_app_stop, white_stops_ticks, Hz. Qed.

(** The run of backticks that the scan measures is the one that follows
    the indentation. *)
Lemma fence_run i l f :
  fenceOf i l = Some f ->
  takeWhile isTick (dropWhile isSpace l) = ticks (f_length f)
  /\ f_info f = trim (dropWhile isTick (trim l)).
Proof.
  rewrite fenceOf_direct. destruct (negb _); [discriminate|].
  unfold matchTicksRest. destruct (isEmpty _); [discriminate|].
  destruct (forallb _ _); [|discriminate].
  intros H. inversion H; subst. clear H. cbn [f_length f_info]. split; [|reflexivity].
  destruct (trimEnd_white (dropWhile isSpace l)) as (z & Hz & Hwhite).
  unfold trim, trimStart. rewrite Hz at 1.
  rewrite (takeWhile_app_white _ _ Hwhite).
  apply all_ticks, takeWhile_forallb.
Qed.

(** A fence line is its indentation, its run of backticks and the rest. *)
Lemma fence_line_parts i l f : fenceOf i l = Some f -> l = withTicks l (f_length f).
Proof.
  intros Hf. destruct (fence_run _ _ _ Hf) as [Hrun _].
  unfold withTicks, fenceRest. rewrite <- Hrun, !takeWhile_dropWhile. reflexivity.
Qed.

Lemma trim_nil_white s : trim s = [] -> forallb isSpace s = true.
Proof.
  unfold trim, trimStart. intros H.
  destruct (trimEnd_white (dropWhile isSpace s)) as (z & Hz & Hwhite).
  rewrite H in Hz. simpl in Hz.
  rewrite <- (takeWhile_dropWhile isSpace s), forallb_app, takeWhile_forallb, Hz.
  exact Hwhite.
Qed.

(** After the run of a fence line without info string there is white
    space only. *)
Lemma fence_rest_white i l f :
  fenceOf i l = Some f -> f_info f = [] -> forallb isSpace (fenceRest l) = true.
Proof.
  intros Hf Hinfo. destruct (fence_run _ _ _ Hf) as [_ Hi]. rewrite Hinfo in Hi.
  symmetry in Hi. apply trim_nil_white in Hi.
  destruct (trimEnd_white (dropWhile isSpace l)) as (z & Hz & Hwhite).
  unfold fenceRest. rewrite Hz, (dropWhile_app_white _ _ Hwhite), forallb_app.
  unfold trim, trimStart in Hi. rewrite Hi. exact Hwhite.
Qed.

Lemma withTicks_indent l n : 1 <= n -> takeWhile isSpace (withTicks l n) = takeWhile isSpace l.
Proof.
  intros Hn. unfold withTicks.
  apply takeWhile_app_stop; [apply takeWhile_forallb | apply ticks_stop_space, Hn].
Qed.

Lemma fenceRest_idem l : dropWhile isTick (fenceRest l) = fenceRest l.
Proof.
  apply dropWhile_fixed. unfold fenceRest.
  destruct (dropWhile isTick (dropWhile isSpace l)) as [|c u] eqn:Hd; [exact I|].
  eapply dropWhile_head, Hd.
Qed.

Lemma withTicks_rest l n : 1 <= n -> fenceRest (withTicks l n) = fenceRest l.
Proof.
  intros Hn. unfold withTicks. unfold fenceRest at 1.
  rewrite (dropWhile_app_all isSpace _ _ (takeWhile_forallb isSpace l)).
  rewrite (dropWhile_fixed isSpace _ (ticks_stop_space n _ Hn)).
  rewrite (dropWhile_app_all isTick _ _ (ticks_all n)).
  apply fenceRest_idem.
Qed.

Lemma bareFence_indent l n : 1 <= n -> takeWhile isSpace (bareFence l n) = takeWhile isSpace l.
Proof.
  intros Hn. unfold bareFence.
  pose proof (ticks_stop_space n [] Hn) as Hstop. rewrite app_nil_r in Hstop.
  apply takeWhile_app_stop; [apply takeWhile_forallb | exact Hstop].
Qed.

Lemma bareFence_rest l n : 1 <= n -> fenceRest (bareFence l n) = [].
Proof.
  intros Hn. unfold bareFence, fenceRest.
  pose proof (ticks_stop_space n [] Hn) as Hstop. rewrite app_nil_r in Hstop.
  rewrite (dropWhile_app_all isSpace _ _ (takeWhile_forallb isSpace l)).
  rewrite (dropWhile_fixed isSpace _ Hstop).
  apply (forallb_takeWhile_all isTick), ticks_all.
Qed.

(** The opener as steps 3 and 4 write it back is the line with another
    run. *)
Lemma opener_withTicks l indent t info n :
  matchIndentTicksRest l = Some (indent, t, info) ->
  indent ++ ticks n ++ info = withTicks l n.
Proof.
  unfold matchIndentTicksRest, matchTicksRest.
  destruct (isEmpty _); [discriminate|]. destruct (forallb _ _); [|discriminate].
  intros H. inversion H; subst. reflexivity.
Qed.

(** The two ways of writing a fence line back, as they act on a line
    that earlier passes have written already. *)
Lemma repairedLine_opener i l l1 f1 indent t info n :
  repairedLine i l l1 -> fenceOf i l1 = Some f1 ->
  matchIndentTicksRest l1 = Some (indent, t, info) -> 3 <= n ->
  repairedLine i l (indent ++ ticks n ++ info).
Proof.
  intros Hr Hf1 Hm Hn. unfold repairedLine in *.
  destruct (fenceOf i l) as [f|] eqn:Hf.
  2:{ subst l1. congruence. }
  destruct Hr as (f' & Hf' & Hinfo & Hshape).
  rewrite Hf1 in Hf'. inversion Hf'; subst f'. clear Hf'.
  pose proof (fence_length_ge3 _ _ _ Hf1) as H3.
  destruct (opener_parts _ _ _ _ Hm) as (_ & _ & Hsp & _ & Hhead & Hall).
  pose proof (fenceOf_parts i indent (length t) info Hsp ltac:(apply (opener_parts _ _ _ _ Hm))
                Hhead Hall) as Hold.
  destruct (opener_parts _ _ _ _ Hm) as (Hline & _). rewrite <- Hline, Hf1 in Hold.
  pose proof (fenceOf_parts i indent n info Hsp ltac:(lia) Hhead Hall) as Hnew.
  assert ((3 <=? n) = true) as Hn' by (apply Nat.leb_le; exact Hn).
  rewrite Hn' in Hnew.
  eexists. split; [exact Hnew|]. cbn [f_info f_length]. split.
  - rewrite <- Hinfo. destruct (3 <=? length t); [|discriminate].
    inversion Hold. reflexivity.
  - rewrite (opener_withTicks _ _ _ _ n Hm).
    destruct Hshape as [->|(Hnil & Hwhite & ->)].
    + left. unfold withTicks at 1.
      rewrite withTicks_indent, withTicks_rest by lia. reflexivity.
    + right. split; [exact Hnil|]. split; [exact Hwhite|]. unfold withTicks.
      rewrite bareFence_indent, bareFence_rest by lia. rewrite app_nil_r. reflexivity.
Qed.

Lemma repairedLine_closer i l l1 f1 n :
  repairedLine i l l1 -> fenceOf i l1 = Some f1 -> f_info f1 = [] -> 3 <= n ->
  repairedLine i l (takeWhile isSpace l1 ++ ticks n).
Proof.
  intros Hr Hf1 Hnil Hn. unfold repairedLine in *.
  destruct (fenceOf i l) as [f|] eqn:Hf.
  2:{ subst l1. congruence. }
  destruct Hr as (f' & Hf' & Hinfo & Hshape).
  rewrite Hf1 in Hf'. inversion Hf'; subst f'. clear Hf'.
  pose proof (fence_length_ge3 _ _ _ Hf1) as H3.
  pose proof (fenceOf_parts i (takeWhile isSpace l1) n []
                (takeWhile_forallb _ _) ltac:(lia) I eq_refl) as Hnew.
  rewrite app_nil_r in Hnew.
  assert ((3 <=? n) = true) as Hn' by (apply Nat.leb_le; exact Hn).
  rewrite Hn' in Hnew.
  eexists. split; [exact Hnew|]. cbn [f_info f_length]. split.
  - rewrite <- Hinfo, Hnil. reflexivity.
  - right. split; [congruence|]. split.
    + eapply fence_rest_white; [exact Hf | congruence].
    + unfold bareFence at 1.
      destruct Hshape as [->|(_ & _ & ->)];
        [rewrite withTicks_indent by lia | rewrite bareFence_indent by lia]; reflexivity.
Qed.

Lemma repairedLine_refl i l : repairedLine i l l.
Proof.
  unfold repairedLine. destruct (fenceOf i l) as [f|] eqn:Hf; [|reflexivity].
  exists f. split; [reflexivity|]. split; [reflexivity|].
  left. eapply fence_line_parts, Hf.
Qed.

(** A line of the text is, after a pass, what a repair makes of it, if
    it was so before the pass. *)
Lemma pass_repaired (L0 L L' : list str) :
  passResult L L' ->
  (forall i l, L0 !! i = Some l -> exists l', L !! i = Some l' /\ repairedLine i l l') ->
  forall i l, L0 !! i = Some l -> exists l', L' !! i = Some l' /\ repairedLine i l l'.
Proof.
  intros HP HI i l Hl. destruct (HI i l Hl) as (l1 & Hl1 & Hr).
  destruct HP as [|c Hc|o g h indent t info Ho Hg Hh Hne Hinfo Hm].
  - eauto.
  - exists l1. split; [|exact Hr].
    rewrite lookup_app_l; [exact Hl1 | eapply lookup_lt_Some; eauto].
  - pose proof (lookup_lt_Some _ _ _ Hl1) as Hlt.
    apply scanFences_elem in Ho as [Hol Hof].
    apply scanFences_elem in Hg as [Hgl Hgf].
    apply scanFences_elem in Hh as [_ Hhf]. apply fence_length_ge3 in Hhf.
    destruct (Nat.eq_dec i (f_index g)) as [->|Hig].
    + rewrite Hgl in Hl1. inversion Hl1; subst l1.
      eexists. split.
      * apply list_lookup_insert_Some. left.
        split; [reflexivity | split; [reflexivity | rewrite length_insert; exact Hlt]].
      * eapply repairedLine_closer; eauto; lia.
    + destruct (Nat.eq_dec i (f_index o)) as [->|Hio].
      * rewrite Hol in Hl1. inversion Hl1; subst l1.
        eexists. split.
        -- rewrite list_lookup_insert_ne by congruence.
           apply list_lookup_insert_Some. left.
           split; [reflexivity | split; [reflexivity | exact Hlt]].
        -- eapply repairedLine_opener; eauto; lia.
      * exists l1. split; [|exact Hr].
        rewrite !list_lookup_insert_ne by congruence. exact Hl1.
Qed.

End PassShape.

(** ** Facts about the text-sanitization rule *)

Section SanitizeFacts.

Lemma forallb_dropWhile (q p : char -> bool) s :
  forallb q s = true -> forallb q (dropWhile p s) = true.
Proof.
  induction s as [|c s IH]; simpl; [reflexivity|].
  intros H. destruct (p c); [|exact H].
  apply andb_prop in H as [_ Hs]. auto.
Qed.

Lemma forallb_rev (q : char -> bool) s : forallb q (rev s) = forallb q s.
Proof.
  induction s as [|c s IH]; simpl; [reflexivity|].
  rewrite forallb_app, IH. simpl. rewrite andb_true_r. apply andb_comm.
Qed.

Lemma forallb_trim (q : char -> bool) s : forallb q s = true -> forallb q (trim s) = true.
Proof.
  intros H. unfold trim, trimEnd, trimStart.
  rewrite forallb_rev. apply forallb_dropWhile.
  rewrite forallb_rev. apply forallb_dropWhile, H.
Qed.

Lemma noAdjacentSpaces_tail c s :
  noAdjacentSpaces (c :: s) = true -> noAdjacentSpaces s = true.
Proof.
  destruct s as [|d s]; [reflexivity|].
  intros H. apply andb_prop in H as [_ H]. exact H.
Qed.

Lemma noAdjacentSpaces_dropWhile p s :
  noAdjacentSpaces s = true -> noAdjacentSpaces (dropWhile p s) = true.
Proof.
  induction s as [|c s IH]; intros H; [reflexivity|].
  simpl dropWhile. destruct (p c); [|exact H].
  apply IH. eapply noAdjacentSpaces_tail, H.
Qed.

Lemma noAdjacentSpaces_cons2 a b t :
  noAdjacentSpaces (a :: b :: t)
  = negb (isSpace a && isSpace b) && noAdjacentSpaces (b :: t).
Proof. reflexivity. Qed.

Lemma noAdjacentSpaces_snoc s c d :
  noAdjacentSpaces (s ++ [c]) = true -> isSpace c && isSpace d = false ->
  noAdjacentSpaces (s ++ [c; d]) = true.
Proof.
  induction s as [|a s IH]; intros H Hcd.
  - simpl. rewrite Hcd. reflexivity.
  - destruct s as [|b s].
    + simpl app in *. rewrite noAdjacentSpaces_cons2 in H.
      apply andb_prop in H as [Hac _].
      rewrite !noAdjacentSpaces_cons2, Hac, Hcd. reflexivity.
    + simpl app in *. rewrite noAdjacentSpaces_cons2 in H.
      apply andb_prop in H as [Hab H].
      rewrite noAdjacentSpaces_cons2, Hab. simpl andb.
      apply (IH H Hcd).
Qed.

Lemma noAdjacentSpaces_rev s :
  noAdjacentSpaces s = true -> noAdjacentSpaces (rev s) = true.
Proof.
  induction s as [|a s IH]; intros H; [reflexivity|].
  destruct s as [|b s]; [reflexivity|].
  rewrite noAdjacentSpaces_cons2 in H.
  apply andb_prop in H as [Hab H].
  change (rev (a :: b :: s)) with ((rev s ++ [b]) ++ [a]).
  rewrite <- app_assoc. simpl app.
  apply noAdjacentSpaces_snoc.
  - apply (IH H).
  - apply negb_true_iff in Hab. rewrite andb_comm. exact Hab.
Qed.

Lemma noAdjacentSpaces_trim s :
  noAdjacentSpaces s = true -> noAdjacentSpaces (trim s) = true.
Proof.
  intros H. unfold trim, trimEnd, trimStart.
  apply noAdjacentSpaces_rev, noAdjacentSpaces_dropWhile,
        noAdjacentSpaces_rev, noAdjacentSpaces_dropWhile, H.
Qed.

(** After a white-space unit the collapsed text goes on with something
    else. *)
Lemma collapseSpaces_noAdjacent s : forall inRun : bool,
  noAdjacentSpaces (if inRun then SPACE :: collapseSpaces true s
                    else collapseSpaces false s) = true.
Proof.
  induction s as [|c s IH]; intros inRun.
  - destruct inRun; reflexivity.
  - simpl collapseSpaces. destruct (isSpace c) eqn:Hc.
    + destruct inRun; apply (IH true).
    + pose proof (IH false) as Hs. simpl in Hs.
      assert (noAdjacentSpaces (c :: collapseSpaces false s) = true) as Hcs.
      { simpl. destruct (collapseSpaces false s); [reflexivity|].
        rewrite Hc. simpl. exact Hs. }
      destruct inRun; [|exact Hcs].
      change (negb (isSpace SPACE && isSpace c)
              && noAdjacentSpaces (c :: collapseSpaces false s) = true).
      rewrite Hc, andb_false_r, Hcs. reflexivity.
Qed.

Lemma collapseSpaces_forallb (q : char -> bool) s : forall inRun : bool,
  q SPACE = true -> forallb q s = true -> forallb q (collapseSpaces inRun s) = true.
Proof.
  induction s as [|c s IH]; intros inRun Hsp H; [reflexivity|].
  simpl in H. apply andb_prop in H as [Hc Hs].
  simpl. destruct (isSpace c).
  - destruct inRun; simpl; [|rewrite Hsp; simpl]; auto.
  - simpl. rewrite Hc. simpl. auto.
Qed.

Lemma forallb_filter_same (q : char -> bool) s : forallb q (List.filter q s) = true.
Proof.
  induction s as [|c s IH]; simpl; [reflexivity|].
  destruct (q c) eqn:Hc; simpl; [rewrite Hc|]; auto.
Qed.

(** What [trim] returns is not changed by [trim]. *)
Lemma trim_trim s : trim (trim s) = trim s.
Proof.
  assert (forall u, match trimEnd u with
                    | [] => True
                    | _ :: _ => exists z c, trimEnd u = z ++ [c] /\ isSpace c = false
                    end) as Hend.
  { intros u. unfold trimEnd.
    destruct (dropWhile isSpace (rev u)) as [|c t] eqn:Hd; [exact I|].
    simpl rev. destruct (rev t ++ [c]) eqn:Heq; [exact I|].
    rewrite <- Heq. exists (rev t), c. split; [reflexivity|].
    eapply dropWhile_head, Hd. }
  assert (match trim s with [] => True | c :: _ => isSpace c = false end) as Hhead.
  { unfold trim, trimStart.
    destruct (dropWhile isSpace s) as [|d u] eqn:Hd; [exact I|].
    pose proof (dropWhile_head _ _ _ _ Hd) as Hdsp.
    unfold trimEnd. change (rev (d :: u)) with (rev u ++ [d]).
    destruct (dropWhile_keeps isSpace (rev u) d Hdsp) as [z Hz].
    rewrite Hz, rev_app_distr. simpl. exact Hdsp. }
  unfold trim at 1. unfold trimStart.
  rewrite (dropWhile_fixed _ _ Hhead).
  specialize (Hend (trimStart s)). fold (trim s) in Hend.
  destruct (trim s) as [|c t] eqn:Ht; [reflexivity|].
  destruct Hend as (z & e & Heq & He).
  unfold trimEnd. rewrite Heq, rev_app_distr. simpl.
  rewrite He. simpl. rewrite rev_involutive. reflexivity.
Qed.

End SanitizeFacts.

(** ** Facts about identifiers and the directive branch *)

Section DiagramFacts.

Ltac char_cases :=
  repeat match goal with
         | H : context [(?a =? ?b)%N] |- _ => destruct (N.eqb_spec a b); try lia
         | H : context [(?a <=? ?b)%N] |- _ => destruct (N.leb_spec a b); try lia
         | |- context [(?a =? ?b)%N] => destruct (N.eqb_spec a b); try lia
         | |- context [(?a <=? ?b)%N] => destruct (N.leb_spec a b); try lia
         end.

Lemma isIdUnit_not_space c : isIdUnit c = true -> isSpace c = false.
Proof.
  unfold isIdUnit, isAlnum, isSpace, isWhiteSpace, isLineTerminator, inRange.
  intros H. char_cases; simpl in *; try reflexivity; try discriminate.
Qed.

Lemma isIdUnit_kept c :
  isIdUnit c = true -> inClass [DQUOTE; NL; CR] c = false.
Proof.
  unfold isIdUnit, isAlnum, inClass, inRange, DQUOTE, NL, CR. simpl.
  intros H. char_cases; simpl in *; try reflexivity; try discriminate.
Qed.

(** The id rule, with the replacement worked out. *)
Lemma cleanId_direct id :
  cleanId id = map (fun c => if negb (isAlnum c) then 95%N else c) id.
Proof. unfold cleanId. rewrite replaceAll_class. apply replaceClass_map. Qed.

Lemma cleanId_units id : forallb isIdUnit (cleanId id) = true.
Proof.
  rewrite cleanId_direct.
  induction id as [|c id IH]; simpl; [reflexivity|].
  rewrite IH, andb_true_r. unfold isIdUnit.
  destruct (isAlnum c) eqn:H; simpl.
  - rewrite H. reflexivity.
  - reflexivity.
Qed.

Lemma trim_no_space s : forallb (fun c => negb (isSpace c)) s = true -> trim s = s.
Proof.
  intros H. unfold trim, trimEnd, trimStart.
  assert (forall u, forallb (fun c => negb (isSpace c)) u = true ->
                    dropWhile isSpace u = u) as Hd.
  { intros [|c u]; simpl; [reflexivity|]. intros Hu.
    apply andb_prop in Hu as [Hc _]. apply negb_true_iff in Hc. rewrite Hc.
    reflexivity. }
  rewrite (Hd s H), Hd, rev_involutive; [reflexivity|].
  rewrite forallb_rev. exact H.
Qed.

Lemma units_unquoted s :
  forallb isIdUnit s = true ->
  map (fun x => if inClass [DQUOTE; NL; CR] x then SPACE else x) s = s.
Proof.
  induction s as [|c t IH]; intros Hu; [reflexivity|].
  simpl in Hu. apply andb_prop in Hu as [Hc Ht].
  cbn [map]. rewrite (isIdUnit_kept _ Hc), (IH Ht). reflexivity.
Qed.

(** The sanitized id is its own cleaned label. *)
Lemma cleanLabel_cleanId id : cleanLabel (Some (cleanId id)) = cleanId id.
Proof.
  pose proof (cleanId_units id) as Hu.
  unfold cleanLabel. destruct (cleanId id) as [|c t] eqn:Heq; [reflexivity|].
  rewrite <- Heq in *. clear Heq c t.
  rewrite replaceAll_class. unfold space. rewrite replaceClass_map.
  rewrite (units_unquoted _ Hu).
  apply trim_no_space. eapply forallb_impl; [|exact Hu].
  intros c Hc. rewrite (isIdUnit_not_space _ Hc). reflexivity.
Qed.

Lemma getShape_brackets id label shape :
  getShape id label shape =
  cleanId id ++ fst (bracketsOf shape)
    ++ quoted (cleanLabel (if truthy label then label else Some (cleanId id)))
    ++ snd (bracketsOf shape).
Proof.
  unfold getShape, bracketsOf.
  repeat match goal with
         | |- context [if ?b then _ else _] =>
             lazymatch b with
             | truthy _ => fail
             | _ => destruct b; [reflexivity|]
             end
         end.
  reflexivity.
Qed.

Lemma stripComment_elem line c : c ∈ stripComment line -> c ∈ line.
Proof.
  induction line as [|d line IH]; [auto|].
  cbn [stripComment]. destruct (startsWith (lit "%%") (d :: line)).
  - intros H. apply elem_of_nil in H. destruct H.
  - rewrite !elem_of_cons. intuition.
Qed.

(** Joining the comment-stripped lines and splitting again gives them
    back. *)
Lemma stripped_lines code :
  splitOn NL (join [NL] (map stripComment (splitOn NL (normalizeNewlines code))))
  = map stripComment (splitOn NL (normalizeNewlines code)).
Proof.
  apply splitOn_join.
  - pose proof (splitOn_nonempty NL (normalizeNewlines code)).
    destruct (splitOn NL _); [congruence | discriminate].
  - pose proof (splitOn_no_sep NL (normalizeNewlines code)) as H.
    induction H as [|l ls Hl Hls IH]; simpl; constructor; [|exact IH].
    intros Hin. apply Hl. eapply stripComment_elem, Hin.
Qed.

Lemma isDirective_nonempty s : isDirective s = true -> isEmpty s = false.
Proof. destruct s; [discriminate | reflexivity]. Qed.

Lemma processLine_directive line :
  isDirective (trim line) = true -> processLine line = trim line.
Proof.
  intros H. unfold processLine.
  rewrite (isDirective_nonempty _ H), H. reflexivity.
Qed.

End DiagramFacts.
(** ** More on the sanitizer, the validator and the generator *)

Section DiagramMore.

Ltac unit_cases :=
  repeat match goal with
         | H : context [(?a =? ?b)%N] |- _ => destruct (N.eqb_spec a b); try lia
         | H : context [(?a <=? ?b)%N] |- _ => destruct (N.leb_spec a b); try lia
         | |- context [(?a =? ?b)%N] => destruct (N.eqb_spec a b); try lia
         | |- context [(?a <=? ?b)%N] => destruct (N.leb_spec a b); try lia
         end.

Lemma sanitized_facts text :
  forallb isSafe (sanitizeMermaidText text) = true
  /\ noAdjacentSpaces (sanitizeMermaidText text) = true
  /\ trim (sanitizeMermaidText text) = sanitizeMermaidText text.
Proof.
  unfold sanitizeMermaidText. cbv zeta.
  rewrite replaceAll_spaces.
  split; [|split].
  - apply forallb_trim, collapseSpaces_forallb; [reflexivity|].
    rewrite replaceAll_class, replaceClass_filter.
    erewrite filter_ext; [apply forallb_filter_same|].
    intros c. apply negb_involutive.
  - apply noAdjacentSpaces_trim. apply (collapseSpaces_noAdjacent _ false).
  - apply trim_trim.
Qed.

Lemma isSafe_below c : isSafe c = true -> (c < 128)%N.
Proof.
  unfold isSafe, isAlnum, inClass, inRange. simpl.
  intros H. unit_cases; simpl in *; try discriminate.
Qed.

(** A property of the code units below 128, checked on each of them. *)
Lemma below_check (f : char -> bool) n :
  forallb f (map N.of_nat (seq 0 n)) = true ->
  forall c, (c < N.of_nat n)%N -> f c = true.
Proof.
  intros H c Hc. rewrite forallb_forall in H. apply H.
  apply in_map_iff. exists (N.to_nat c). split; [apply N2Nat.id|].
  apply in_seq. lia.
Qed.

Lemma isSafe_property (q : char -> bool) :
  forallb (fun c => implb (isSafe c) (q c)) (map N.of_nat (seq 0 128)) = true ->
  forall c, isSafe c = true -> q c = true.
Proof.
  intros H c Hc. pose proof (below_check _ 128 H c (isSafe_below c Hc)) as Hq.
  cbv beta in Hq. rewrite Hc in Hq. exact Hq.
Qed.

Lemma forallb_isSafe_property (q : char -> bool) s :
  forallb (fun c => implb (isSafe c) (q c)) (map N.of_nat (seq 0 128)) = true ->
  forallb isSafe s = true -> forallb q s = true.
Proof.
  intros H. apply forallb_impl. apply isSafe_property. exact H.
Qed.

Lemma forallb_not_elem (q : char -> bool) s x :
  forallb q s = true -> q x = false -> x ∉ s.
Proof.
  intros Hs Hx Hin. rewrite forallb_forall in Hs.
  apply list_elem_of_In in Hin. rewrite (Hs x Hin) in Hx. discriminate.
Qed.

Lemma replaceAll_no_first_unit x r f s :
  x ∉ s -> replaceAll (Seq (chr x) r) f s = s.
Proof.
  intros Hx. apply replaceFrom_no_match. intros n.
  apply matchAt_first_unit. intros Hin. apply Hx.
  eapply subseteq_drop. exact Hin.
Qed.

(** White space is collapsed already. *)
Lemma collapseSpaces_fixed s : forall inRun : bool,
  forallb (fun c => implb (isSpace c) (c =? SPACE)%N) s = true ->
  noAdjacentSpaces s = true ->
  (inRun = true -> match s with [] => True | c :: _ => isSpace c = false end) ->
  collapseSpaces inRun s = s.
Proof.
  induction s as [|c s IH]; intros inRun Hsp Hadj Hrun; [reflexivity|].
  cbn [forallb] in Hsp. apply andb_prop in Hsp as [Hc Hsp].
  pose proof (noAdjacentSpaces_tail _ _ Hadj) as Hadj'.
  cbn [collapseSpaces].
  destruct (isSpace c) eqn:Hs.
  - destruct inRun; [specialize (Hrun eq_refl); simpl in Hrun; congruence|].
    simpl in Hc. apply N.eqb_eq in Hc. subst c.
    rewrite (IH true); auto.
    intros _. destruct s as [|d s]; [exact I|].
    rewrite noAdjacentSpaces_cons2 in Hadj.
    apply andb_prop in Hadj as [Hcd _]. rewrite Hs in Hcd. simpl in Hcd.
    apply negb_true_iff in Hcd. exact Hcd.
  - rewrite (IH false); auto. discriminate.
Qed.

(** What the validator looks at: whether one of the type words is
    somewhere in the text. *)
Lemma includes_nil_r t : t <> [] -> includes t [] = false.
Proof. destruct t; [congruence | reflexivity]. Qed.

Lemma startsWith_space_head t c s :
  match t with [] => False | x :: _ => isSpace x = false end ->
  isSpace c = true -> startsWith t (c :: s) = false.
Proof.
  destruct t as [|x t]; [contradiction|]. intros Hx Hc. simpl.
  destruct (N.eqb_spec x c) as [->|]; [congruence | reflexivity].
Qed.

Lemma includes_dropWhile_space t s :
  match t with [] => False | x :: _ => isSpace x = false end ->
  includes t (dropWhile isSpace s) = includes t s.
Proof.
  intros Ht. induction s as [|c s IH]; [reflexivity|].
  cbn [dropWhile]. destruct (isSpace c) eqn:Hc; [|reflexivity].
  rewrite IH. cbn [includes]. rewrite (startsWith_space_head t c s Ht Hc).
  reflexivity.
Qed.

Lemma startsWith_app_spaces t : forall u z,
  forallb (fun c => negb (isSpace c)) t = true ->
  forallb isSpace z = true ->
  startsWith t (u ++ z) = startsWith t u.
Proof.
  induction t as [|x t IH]; intros u z Ht Hz; [reflexivity|].
  cbn [forallb] in Ht. apply andb_prop in Ht as [Hx Ht].
  apply negb_true_iff in Hx.
  destruct u as [|y u].
  - simpl. destruct z as [|y z]; [reflexivity|].
    simpl in Hz. apply andb_prop in Hz as [Hy _].
    destruct (N.eqb_spec x y) as [->|]; [congruence | reflexivity].
  - simpl. rewrite IH by assumption. reflexivity.
Qed.

Lemma includes_spaces t z :
  match t with [] => False | x :: _ => isSpace x = false end ->
  forallb isSpace z = true -> includes t z = false.
Proof.
  intros Ht. induction z as [|c z IH]; intros Hz.
  - destruct t; [contradiction | reflexivity].
  - simpl in Hz. apply andb_prop in Hz as [Hc Hz].
    cbn [includes]. rewrite (startsWith_space_head t c z Ht Hc), IH by exact Hz.
    reflexivity.
Qed.

Lemma includes_app_spaces t u z :
  t <> [] ->
  forallb (fun c => negb (isSpace c)) t = true ->
  forallb isSpace z = true ->
  includes t (u ++ z) = includes t u.
Proof.
  intros Hne Ht Hz.
  assert (match t with [] => False | x :: _ => isSpace x = false end) as Hhead.
  { destruct t as [|x t]; [congruence|]. simpl in Ht.
    apply andb_prop in Ht as [Hx _]. apply negb_true_iff in Hx. exact Hx. }
  induction u as [|c u IH].
  - simpl app. rewrite (includes_spaces t z Hhead Hz).
    symmetry. apply includes_nil_r. exact Hne.
  - change ((c :: u) ++ z) with (c :: (u ++ z)). cbn [includes].
    rewrite IH. change (c :: (u ++ z)) with ((c :: u) ++ z).
    rewrite startsWith_app_spaces by assumption. reflexivity.
Qed.

Lemma trimEnd_spaces s :
  exists z, s = trimEnd s ++ z /\ forallb isSpace z = true.
Proof.
  unfold trimEnd. exists (rev (takeWhile isSpace (rev s))). split.
  - rewrite <- rev_app_distr, takeWhile_dropWhile, rev_involutive. reflexivity.
  - rewrite forallb_rev. apply takeWhile_forallb.
Qed.

Lemma includes_trim t s :
  t <> [] ->
  forallb (fun c => negb (isSpace c)) t = true ->
  includes t (trim s) = includes t s.
Proof.
  intros Hne Ht. unfold trim, trimStart.
  destruct (trimEnd_spaces (dropWhile isSpace s)) as (z & Hs & Hz).
  rewrite <- (includes_dropWhile_space t s).
  - rewrite Hs at 2. rewrite includes_app_spaces by assumption. reflexivity.
  - destruct t as [|x t]; [congruence|]. simpl in Ht.
    apply andb_prop in Ht as [Hx _]. apply negb_true_iff in Hx. exact Hx.
Qed.

Lemma validTypes_words :
  Forall (fun t => t <> [] /\ forallb (fun c => negb (isSpace c)) t = true) validTypes.
Proof. repeat constructor; discriminate. Qed.

Lemma existsb_includes_ext (ts : list str) s s' :
  Forall (fun t => includes t s = includes t s') ts ->
  existsb (fun t => includes t s) ts = existsb (fun t => includes t s') ts.
Proof.
  induction 1 as [|t ts Ht _ IH]; simpl; [reflexivity|]. rewrite Ht, IH. reflexivity.
Qed.

Lemma types_trim code :
  existsb (fun t => includes t (trim code)) validTypes
  = existsb (fun t => includes t code) validTypes.
Proof.
  apply existsb_includes_ext.
  eapply Forall_impl; [apply validTypes_words|].
  intros t [Hne Ht]. apply includes_trim; assumption.
Qed.

Lemma valid_includes code :
  valid (validateMermaidSyntax code)
  = existsb (fun t => includes t code) validTypes.
Proof.
  unfold validateMermaidSyntax. cbv zeta.
  rewrite <- (types_trim code).
  destruct (trim code) as [|c t] eqn:Ht; [reflexivity|].
  cbn [isEmpty]. cbv iota.
  destruct (existsb _ validTypes); reflexivity.
Qed.

Lemma valid_true code :
  valid (validateMermaidSyntax code) = true ->
  validateMermaidSyntax code = mkValidation true None.
Proof.
  unfold validateMermaidSyntax. cbv zeta.
  destruct (isEmpty (trim code)); [discriminate|].
  destruct (existsb _ validTypes); [reflexivity | discriminate].
Qed.

Lemma existsb_includes_mono (ts : list str) a s b :
  existsb (fun t => includes t s) ts = true ->
  existsb (fun t => includes t (a ++ s ++ b)) ts = true.
Proof.
  induction ts as [|t ts IH]; simpl; [discriminate|].
  intros H. apply orb_true_iff in H as [H|H].
  - rewrite (includes_suffix t a (s ++ b)); [reflexivity|].
    apply includes_prefix. exact H.
  - rewrite IH by exact H. apply orb_true_r.
Qed.

(** No line feed in what the generator writes on a line. *)
Lemma forallb_Forall (q : char -> bool) s :
  forallb q s = true <-> Forall (fun c => q c = true) s.
Proof.
  induction s as [|x s IH]; simpl.
  - split; [constructor | reflexivity].
  - rewrite andb_true_iff, IH. split.
    + intros [Hx Hs]. constructor; assumption.
    + intros H. inversion H; subst. auto.
Qed.

Lemma noNL_forallb s : NL ∉ s <-> forallb (fun c => negb (c =? NL)%N) s = true.
Proof.
  split.
  - intros H. induction s as [|x s IH]; simpl; [reflexivity|].
    rewrite IH.
    + destruct (N.eqb_spec x NL) as [->|]; [|reflexivity].
      exfalso. apply H. left.
    + intros Hin. apply H. right. exact Hin.
  - intros H. eapply forallb_not_elem; [exact H | reflexivity].
Qed.

Lemma cleanLabel_clean text :
  forallb (fun c => negb (inClass [DQUOTE; NL; CR] c)) (cleanLabel text) = true.
Proof.
  destruct text as [[|c t]|]; try reflexivity.
  unfold cleanLabel. apply forallb_trim.
  rewrite replaceAll_class. unfold space. rewrite replaceClass_map.
  generalize (c :: t). intros s. induction s as [|x s IH]; [reflexivity|].
  cbn [forallb map]. rewrite IH, andb_true_r.
  destruct (inClass [DQUOTE; NL; CR] x) eqn:Hx; [reflexivity|].
  rewrite Hx. reflexivity.
Qed.

Lemma cleanLabel_noNL text : NL ∉ cleanLabel text.
Proof.
  apply noNL_forallb. eapply forallb_impl; [|apply cleanLabel_clean].
  intros c. unfold inClass, NL. simpl.
  destruct (c =? 10)%N; [|reflexivity].
  rewrite !orb_true_r. discriminate.
Qed.

Lemma cleanId_noNL id : NL ∉ cleanId id.
Proof.
  eapply forallb_not_elem; [apply cleanId_units | reflexivity].
Qed.

Lemma noNL_app (a b : str) : NL ∉ a -> NL ∉ b -> NL ∉ a ++ b.
Proof. intros Ha Hb Hin. apply elem_of_app in Hin as [H|H]; auto. Qed.

Lemma noNL_quoted s : NL ∉ s -> NL ∉ quoted s.
Proof.
  intros Hs. unfold quoted. intros Hin.
  apply elem_of_cons in Hin as [H|H]; [discriminate|].
  apply elem_of_app in H as [H|H]; [auto|].
  apply elem_of_cons in H as [H|H]; [discriminate | inversion H].
Qed.

Lemma getShape_noNL id label shape : NL ∉ getShape id label shape.
Proof.
  rewrite getShape_brackets.
  apply noNL_app; [apply cleanId_noNL|].
  apply noNL_app.
  { apply noNL_forallb. unfold bracketsOf.
    repeat match goal with
           | |- context [if ?b then _ else _] => destruct b
           end; reflexivity. }
  apply noNL_app; [apply noNL_quoted, cleanLabel_noNL|].
  apply noNL_forallb. unfold bracketsOf.
  repeat match goal with
         | |- context [if ?b then _ else _] => destruct b
         end; reflexivity.
Qed.

Lemma getEdge_noNL type label : NL ∉ getEdge type label.
Proof.
  unfold getEdge. cbv zeta.
  assert (NL ∉ (if isEmpty (if truthy label then cleanLabel label else [])
                then []
                else lit "|" ++ quoted (if truthy label then cleanLabel label else [])
                             ++ lit "|")) as Hpart.
  { destruct (isEmpty _); [inversion 1|].
    apply noNL_app; [apply noNL_forallb; reflexivity|].
    apply noNL_app; [|apply noNL_forallb; reflexivity].
    apply noNL_quoted. destruct (truthy label); [apply cleanLabel_noNL | inversion 1]. }
  repeat match goal with
         | |- context [if match type with Some _ => _ | None => _ end then _ else _] =>
             destruct (match type with Some _ => _ | None => false end)
         end;
    (apply noNL_app; [apply noNL_forallb; reflexivity | exact Hpart]).
Qed.

Lemma generatedLines_noNL data :
  NL ∉ default (lit "TD") (d_direction data) -> noNL (generatedLines data).
Proof.
  intros Hd. unfold generatedLines, noNL. cbv zeta.
  apply Forall_app. split.
  { constructor; [|constructor].
    apply noNL_app; [apply noNL_forallb; reflexivity | exact Hd]. }
  apply Forall_app. split.
  - apply Forall_forall. intros l Hl. apply list_elem_of_fmap in Hl as (n & -> & _).
    apply noNL_app; [apply noNL_forallb; reflexivity | apply getShape_noNL].
  - apply Forall_forall. intros l Hl. apply list_elem_of_fmap in Hl as (e & -> & _).
    apply noNL_app; [apply noNL_forallb; reflexivity|].
    apply noNL_app; [apply cleanId_noNL|].
    apply noNL_app; [apply noNL_forallb; reflexivity|].
    apply noNL_app; [apply getEdge_noNL|].
    apply noNL_app; [apply noNL_forallb; reflexivity | apply cleanId_noNL].
Qed.

(** No line feed in what [processLine] returns for a line without one. *)
Lemma noNL_Forall s : NL ∉ s <-> Forall (fun c => c <> NL) s.
Proof.
  rewrite Forall_forall. split.
  - intros H c Hc ->. apply H. exact Hc.
  - intros H Hin. exact (H NL Hin eq_refl).
Qed.

Lemma Forall_checked (s : str) :
  forallb (fun c => negb (c =? NL)%N) s = true -> Forall (fun c => c <> NL) s.
Proof. intros H. apply noNL_Forall, noNL_forallb. exact H. Qed.

Lemma Forall_dropWhile (P : char -> Prop) p s : Forall P s -> Forall P (dropWhile p s).
Proof.
  induction s as [|x s IH]; simpl; [auto|]. intros H.
  destruct (p x); [apply IH; inversion H; assumption | exact H].
Qed.

Lemma Forall_trim (P : char -> Prop) s : Forall P s -> Forall P (trim s).
Proof.
  intros H. unfold trim, trimEnd, trimStart.
  apply Forall_rev, Forall_dropWhile, Forall_rev, Forall_dropWhile. exact H.
Qed.

Lemma sanitize_noNL text : Forall (fun c => c <> NL) (sanitizeMermaidText text).
Proof.
  apply Forall_checked. destruct (sanitized_facts text) as [Hsafe _].
  eapply forallb_isSafe_property; [|exact Hsafe]. vm_compute. reflexivity.
Qed.

Lemma quoted_Forall (P : char -> Prop) s : P DQUOTE -> Forall P s -> Forall P (quoted s).
Proof.
  intros Hq Hs. unfold quoted. constructor; [exact Hq|].
  apply Forall_app. split; [exact Hs | constructor; [exact Hq | constructor]].
Qed.

Lemma splitSpaces_Forall (P : char -> Prop) s : forall inRun : bool,
  Forall P s -> Forall (Forall P) (splitSpaces inRun s).
Proof.
  induction s as [|x s IH]; intros inRun Hs; simpl.
  - repeat constructor.
  - inversion Hs; subst.
    destruct (isSpace x).
    + destruct inRun; [apply IH; assumption|].
      constructor; [constructor | apply IH; assumption].
    + pose proof (IH false ltac:(assumption)) as Hr.
      destruct (splitSpaces false s) as [|w ws'].
      * repeat constructor. assumption.
      * inversion Hr; subst. constructor; [constructor; assumption | assumption].
Qed.

Lemma removeFirst_Forall (P : char -> Prop) x s : Forall P s -> Forall P (removeFirst x s).
Proof.
  induction s as [|c s IH]; simpl; [auto|]. intros H. inversion H; subst.
  destruct (c =? x)%N; [assumption | constructor; auto].
Qed.

Ltac line_parts :=
  repeat first
    [ assumption
    | apply List.Forall_nil
    | apply sanitize_noNL
    | apply group_Forall; assumption
    | apply Forall_take
    | apply Forall_trim
    | apply quoted_Forall; [discriminate|]
    | apply Forall_checked; reflexivity
    | apply Forall_app; split
    | apply Forall_cons; split; [discriminate|] ].

Lemma fixEdgeLabels_noNL s :
  Forall (fun c => c <> NL) s -> Forall (fun c => c <> NL) (fixEdgeLabels s).
Proof.
  intros Hs. unfold fixEdgeLabels. cbv zeta.
  apply replaceAll_Forall.
  { intros m c Hm Hc. line_parts.
    apply replaceAll_Forall; [intros; constructor | apply sanitize_noNL]. }
  apply replaceAll_Forall.
  { intros m c Hm Hc.
    destruct (isEmpty _); [assumption|]. destruct (test _ _); [assumption|].
    line_parts. }
  apply replaceAll_Forall; [|exact Hs].
  intros m c Hm Hc. destruct (isEmpty _); [assumption|]. line_parts.
Qed.

Lemma shapes_noNL :
  Forall (fun shape => Forall (fun c => c <> NL) (fst shape)
                       /\ Forall (fun c => c <> NL) (snd shape)) shapes.
Proof.
  unfold shapes. repeat constructor; simpl; discriminate.
Qed.

Lemma fixShape_noNL hasArrow s shape :
  Forall (fun c => c <> NL) (fst shape) -> Forall (fun c => c <> NL) (snd shape) ->
  Forall (fun c => c <> NL) s -> Forall (fun c => c <> NL) (fixShape hasArrow s shape).
Proof.
  intros Ho Hc Hs. unfold fixShape.
  apply replaceAll_Forall; [|exact Hs].
  intros m c Hm Hcaps. cbv zeta. line_parts.
Qed.

Lemma fold_shapes_noNL hasArrow (table : list (str * str)) : forall s,
  Forall (fun shape => Forall (fun c => c <> NL) (fst shape)
                       /\ Forall (fun c => c <> NL) (snd shape)) table ->
  Forall (fun c => c <> NL) s ->
  Forall (fun c => c <> NL) (fold_left (fixShape hasArrow) table s).
Proof.
  induction table as [|shape table IH]; intros s Ht Hs; simpl; [exact Hs|].
  inversion Ht as [|? ? [Ho Hc] Ht']; subst.
  apply IH; [exact Ht' | apply fixShape_noNL; assumption].
Qed.

Lemma processLine_noNL line :
  Forall (fun c => c <> NL) line -> Forall (fun c => c <> NL) (processLine line).
Proof.
  intros Hl. pose proof (Forall_trim _ _ Hl) as Ht.
  unfold processLine. cbv zeta.
  destruct (isEmpty (trim line)); [constructor|].
  destruct (isDirective (trim line)); [exact Ht|].
  destruct (startsWith (lit "subgraph ") (trim line)).
  { destruct (negb _); [|exact Ht]. line_parts. }
  destruct (test graphDecl (trim line)).
  { assert (Forall (fun c => c <> NL) (dropFinalSemicolon (trim line))) as Hd.
    { apply replaceFirst_Forall; [intros; constructor | exact Ht]. }
    pose proof (splitSpaces_Forall _ _ false Hd) as Hparts.
    apply Forall_app. split.
    { destruct (splitSpaces false (dropFinalSemicolon (trim line))) as [|w ws'];
        [constructor | inversion Hparts; assumption]. }
    apply Forall_cons. split; [discriminate|].
    match goal with
    | |- Forall _ (if ?b then _ else _) => destruct b; [|line_parts]
    end.
    apply removeFirst_Forall.
    destruct (splitSpaces false (dropFinalSemicolon (trim line)) !! 1) as [[|c d]|] eqn:Hp;
      try (apply Forall_checked; reflexivity).
    apply list_elem_of_lookup_2 in Hp. rewrite Forall_forall in Hparts.
    apply Hparts. exact Hp. }
  set (hasArrow := existsb _ arrowPatterns).
  assert (Forall (fun c => c <> NL)
            (if hasArrow then fixEdgeLabels (trim line) else trim line)) as Ht2.
  { destruct hasArrow; [apply fixEdgeLabels_noNL|]; exact Ht. }
  pose proof (fold_shapes_noNL hasArrow shapes _ shapes_noNL Ht2) as Hp.
  destruct (eqb _ _ && negb hasArrow); [|exact Hp].
  destruct (search idLabel _) as [[m c]|] eqn:Hsearch; [|exact Hp].
  destruct (negb _); [|exact Hp].
  apply search_Forall with (P := fun c => c <> NL) in Hsearch as [_ Hc]; [|exact Ht2].
  line_parts.
Qed.

Lemma processedLines_direct code :
  processedLines code
  = map (fun l => processLine (stripComment l)) (splitOn NL (normalizeNewlines code)).
Proof.
  unfold processedLines. cbv zeta. rewrite stripped_lines, map_map. reflexivity.
Qed.

Lemma processedLines_noNL code : noNL (processedLines code).
Proof.
  rewrite processedLines_direct. unfold noNL.
  apply Forall_forall. intros l Hl. apply list_elem_of_fmap in Hl as (l0 & -> & Hl0).
  apply noNL_Forall, processLine_noNL, noNL_Forall.
  intros Hin. apply stripComment_elem in Hin.
  pose proof (splitOn_no_sep NL (normalizeNewlines code)) as Hall.
  rewrite Forall_forall in Hall. exact (Hall _ Hl0 Hin).
Qed.

(** The declaration line. *)
Lemma eqb_eq (a : str) : forall b, eqb a b = true -> a = b.
Proof.
  induction a as [|x a IH]; intros [|y b]; simpl; try congruence.
  intros H. apply andb_prop in H as [Hx Hab].
  apply N.eqb_eq in Hx. rewrite (IH b Hab), Hx. reflexivity.
Qed.

Lemma replaceFirstFrom_semicolon_skip (a : str) w rest : forall pos,
  (w =? 59)%N = false ->
  replaceFirstFrom (Seq (chr 59%N) Eol) nothing (a ++ w :: rest) pos
  = a ++ w :: replaceFirstFrom (Seq (chr 59%N) Eol) nothing rest (pos + length a + 1).
Proof.
  intros pos Hw. revert pos.
  induction a as [|x a IH]; intros pos.
  - cbn [app length replaceFirstFrom]. unfold matchAt. cbn [run chr].
    rewrite N.eqb_sym, Hw. rewrite Nat.add_0_r, Nat.add_1_r. reflexivity.
  - cbn [app length replaceFirstFrom]. unfold matchAt. cbn [run chr].
    destruct (59 =? x)%N.
    + assert (forall (X : Type) (u v : X),
                match a ++ w :: rest with [] => u | _ :: _ => v end = v) as Hne
        by (intros; destruct a; reflexivity).
      rewrite Hne, IH.
      replace (pos + S (length a) + 1) with (S pos + length a + 1) by lia. reflexivity.
    + rewrite IH.
      replace (pos + S (length a) + 1) with (S pos + length a + 1) by lia. reflexivity.
Qed.

Lemma splitSpaces_word (t : str) w rest :
  forallb (fun c => negb (isSpace c)) t = true -> isSpace w = true ->
  splitSpaces false (t ++ w :: rest) = t :: splitSpaces true rest.
Proof.
  intros Ht Hw. induction t as [|x t IH].
  - simpl. rewrite Hw. reflexivity.
  - cbn [forallb] in Ht. apply andb_prop in Ht as [Hx Ht].
    apply negb_true_iff in Hx.
    cbn [app splitSpaces]. rewrite Hx, (IH Ht). reflexivity.
Qed.

Lemma safeDir_valid (cleanDir : str) (validDirs : list str) d :
  d ∈ validDirs ->
  (if existsb (eqb cleanDir) validDirs then cleanDir else d) ∈ validDirs.
Proof.
  intros Hd. destruct (existsb (eqb cleanDir) validDirs) eqn:He; [|exact Hd].
  apply existsb_exists in He as (x & Hin & Heq).
  apply eqb_eq in Heq. subst x. apply list_elem_of_In. exact Hin.
Qed.

Lemma test_graphDecl (t : str) w rest :
  t = lit "graph" \/ t = lit "flowchart" -> isSpace w = true ->
  test graphDecl (t ++ w :: rest) = true.
Proof.
  intros Ht Hw. unfold test, graphDecl, seqs. cbn [fold_right].
  rewrite search_Bol. cbn [run]. rewrite !run_text.
  destruct Ht as [-> | ->].
  - rewrite startsWith_self, drop_app_length. unfold ws. cbn [run]. rewrite Hw.
    reflexivity.
  - change (startsWith (lit "graph") (lit "flowchart" ++ w :: rest)) with false.
    cbv iota.
    rewrite startsWith_self, drop_app_length. unfold ws. cbn [run]. rewrite Hw.
    reflexivity.
Qed.

Lemma space_not_semicolon w : isSpace w = true -> (w =? 59)%N = false.
Proof.
  unfold isSpace, isWhiteSpace, isLineTerminator, inRange. intros H.
  destruct (N.eqb_spec w 59) as [->|]; [discriminate | reflexivity].
Qed.

Lemma processLine_declaration line type w rest :
  type = lit "graph" \/ type = lit "flowchart" ->
  isSpace w = true ->
  trim line = type ++ w :: rest ->
  exists dir, dir ∈ map lit ["TB"; "TD"; "BT"; "RL"; "LR"]%string
              /\ processLine line = type ++ [SPACE] ++ dir.
Proof.
  intros Ht Hw Htrim. unfold processLine. cbv zeta. rewrite Htrim.
  assert (isEmpty (type ++ w :: rest) = false) as H1
    by (destruct Ht as [-> | ->]; reflexivity).
  assert (isDirective (type ++ w :: rest) = false) as H2
    by (destruct Ht as [-> | ->]; reflexivity).
  assert (startsWith (lit "subgraph ") (type ++ w :: rest) = false) as H3
    by (destruct Ht as [-> | ->]; reflexivity).
  assert (forallb (fun c => negb (isSpace c)) type = true) as H4
    by (destruct Ht as [-> | ->]; reflexivity).
  rewrite H1, H2, H3, (test_graphDecl _ _ _ Ht Hw).
  unfold dropFinalSemicolon, replaceFirst.
  rewrite replaceFirstFrom_semicolon_skip by (apply space_not_semicolon; exact Hw).
  rewrite (splitSpaces_word _ _ _ H4 Hw).
  cbn [nth]. eexists. split; [|reflexivity].
  apply safeDir_valid. right. left.
Qed.

Lemma join_head_app (sep l : str) (ls : list str) :
  exists u, join sep ([l] ++ ls) = l ++ u.
Proof.
  destruct ls as [|l' ls]; simpl.
  - exists []. rewrite app_nil_r. reflexivity.
  - eexists. reflexivity.
Qed.

(** The first line of a generated chart, as the sanitizer reads it. *)
Lemma normalizeNewlines_graph (R : str) :
  exists R', normalizeNewlines (lit "graph " ++ R) = lit "graph " ++ R'.
Proof.
  unfold normalizeNewlines, replaceAll. eexists.
  change (length (lit "graph " ++ R)) with (S (S (S (S (S (S (length R))))))).
  change (lit "graph " ++ R) with (103 :: 114 :: 97 :: 112 :: 104 :: 32 :: R)%N.
  do 6 (rewrite replaceFrom_skip_step by reflexivity).
  reflexivity.
Qed.

Lemma splitOn_head_prefix (p s : str) :
  NL ∉ p -> exists d ls, splitOn NL (p ++ s) = (p ++ d) :: ls.
Proof.
  intros Hp. induction p as [|c p IH].
  - destruct (splitOn NL s) as [|d ls] eqn:Hs; [destruct (splitOn_nonempty _ _ Hs)|].
    exists d, ls. exact Hs.
  - destruct IH as (d & ls & IH); [intros Hin; apply Hp; right; exact Hin|].
    exists d, ls. cbn [app splitOn].
    destruct (N.eqb_spec c NL) as [->|_]; [exfalso; apply Hp; left|].
    rewrite IH. reflexivity.
Qed.

Lemma dropWhile_app_found (p : char -> bool) x y c u :
  dropWhile p x = c :: u -> dropWhile p (x ++ y) = (c :: u) ++ y.
Proof.
  induction x as [|a x IH]; simpl; [discriminate|].
  destruct (p a); [exact IH|]. intros H. inversion H; subst. reflexivity.
Qed.

Lemma dropWhile_all_or_found (p : char -> bool) x :
  forallb p x = true \/ exists c u, dropWhile p x = c :: u.
Proof.
  induction x as [|a x IH]; simpl; [left; reflexivity|].
  destruct (p a); [exact IH|]. right. eauto.
Qed.

Lemma trim_graph (d : str) :
  trim (lit "graph " ++ d) = lit "graph"
  \/ exists rest, trim (lit "graph " ++ d) = lit "graph" ++ SPACE :: rest.
Proof.
  unfold trim.
  change (trimStart (lit "graph " ++ d)) with (lit "graph " ++ d).
  unfold trimEnd. rewrite rev_app_distr.
  destruct (dropWhile_all_or_found isSpace (rev d)) as [Hall|(c & u & Hd)].
  - left. rewrite dropWhile_app_all by exact Hall. reflexivity.
  - right. rewrite (dropWhile_app_found _ _ _ _ _ Hd), rev_app_distr, rev_involutive.
    exists (rev (c :: u)). reflexivity.
Qed.

Lemma processLine_graph line : trim line = lit "graph" -> processLine line = lit "graph".
Proof.
  intros Ht. unfold processLine. cbv zeta. rewrite Ht. vm_compute. reflexivity.
Qed.

Lemma processLine_graph_line (d : str) :
  exists u, processLine (lit "graph " ++ d) = lit "graph" ++ u.
Proof.
  destruct (trim_graph d) as [Ht|[rest Ht]].
  - exists []. rewrite (processLine_graph _ Ht). reflexivity.
  - destruct (processLine_declaration _ (lit "graph") SPACE rest
                (or_introl eq_refl) eq_refl Ht) as (dir & _ & Hp).
    exists ([SPACE] ++ dir). exact Hp.
Qed.

Lemma generated_shape data :
  exists R, generateMermaidFromJSON data = lit "graph " ++ R.
Proof.
  unfold generateMermaidFromJSON, generatedLines. cbv zeta.
  match goal with
  | |- exists R, join ?sep ([?h] ++ ?M) = _ =>
      destruct (join_head_app sep h M) as [u Hu]
  end.
  eexists. etransitivity; [exact Hu|]. rewrite <- app_assoc. reflexivity.
Qed.

Lemma sanitized_generated_starts data :
  startsWith (lit "graph") (sanitizeMermaidCode (generateMermaidFromJSON data)) = true.
Proof.
  unfold sanitizeMermaidCode. rewrite processedLines_direct.
  destruct (generated_shape data) as [R ->].
  destruct (normalizeNewlines_graph R) as [R' ->].
  destruct (splitOn_head_prefix (lit "graph ") R') as (d & ls & Hs);
    [apply noNL_forallb; reflexivity|].
  rewrite Hs. cbn [map].
  change (stripComment (lit "graph " ++ d)) with (lit "graph " ++ stripComment d).
  destruct (processLine_graph_line (stripComment d)) as [u ->].
  set (rest := map (fun l => processLine (stripComment l)) ls).
  change (List.filter (fun l => negb (isEmpty l)) ((lit "graph" ++ u) :: rest))
    with ((lit "graph" ++ u) :: List.filter (fun l => negb (isEmpty l)) rest).
  destruct (join_head_app [NL] (lit "graph" ++ u)
              (List.filter (fun l => negb (isEmpty l)) rest)) as [v Hv].
  etransitivity; [apply f_equal; exact Hv|].
  rewrite <- app_assoc. apply startsWith_self.
Qed.

(** The lines of the sanitized code, when a line is kept. *)
Lemma sanitized_lines_split code :
  List.filter (fun l => negb (isEmpty l)) (processedLines code) <> [] ->
  splitOn NL (sanitizeMermaidCode code)
  = List.filter (fun l => negb (isEmpty l)) (processedLines code).
Proof.
  intros Hne. unfold sanitizeMermaidCode. apply splitOn_join; [exact Hne|].
  pose proof (processedLines_noNL code) as Hno.
  apply Forall_forall. intros l Hl. apply list_elem_of_In, filter_In in Hl as [Hl _].
  unfold noNL in Hno. rewrite Forall_forall in Hno. apply Hno.
  apply list_elem_of_In. exact Hl.
Qed.

(** The place that the image of the line numbered [i] takes among the
    images that a filter keeps. *)
Lemma filter_map_lookup {A B} (f : A -> B) (p : B -> bool) (ls : list A) i x :
  ls !! i = Some x -> p (f x) = true ->
  List.filter p (map f ls) !! length (List.filter p (map f (take i ls))) = Some (f x).
Proof.
  intros Hl Hp. pose proof (take_drop_middle ls i x Hl) as H.
  set (k := length (List.filter p (map f (take i ls)))).
  rewrite <- H. rewrite map_app, List.filter_app. cbn [map List.filter]. rewrite Hp.
  rewrite lookup_app_r by (unfold k; lia).
  unfold k. rewrite Nat.sub_diag. reflexivity.
Qed.

End DiagramMore.
(** ** The digits of a number *)

Section NumberFacts.

Lemma size_nat_bound n : (n < 2 ^ N.of_nat (N.size_nat n))%N.
Proof.
  destruct n as [|p]; [reflexivity|]. simpl N.size_nat.
  induction p as [p IH|p IH|].
  - simpl Pos.size_nat. rewrite Nat2N.inj_succ, N.pow_succ_r'. lia.
  - simpl Pos.size_nat. rewrite Nat2N.inj_succ, N.pow_succ_r'. lia.
  - reflexivity.
Qed.

Lemma digitValue_digitChar d : (d < 36)%N -> digitValue (digitChar d) = d.
Proof.
  intros Hd. unfold digitValue, digitChar.
  destruct (N.ltb_spec d 10).
  - destruct (N.ltb_spec (48 + d) 58); lia.
  - destruct (N.ltb_spec (87 + d) 58); lia.
Qed.

Lemma digitsOf_S fuel radix n acc :
  digitsOf (S fuel) radix n acc
  = if (n / radix =? 0)%N then digitChar (n mod radix) :: acc
    else digitsOf fuel radix (n / radix) (digitChar (n mod radix) :: acc).
Proof. reflexivity. Qed.

(** The digits that [digitsOf] puts in front of [acc] write [n]: the
    fuel of [toStringRadix] is enough. *)
Lemma digitsOf_value radix : (2 <= radix <= 36)%N ->
  forall fuel n acc,
  (n < 2 ^ N.of_nat fuel)%N ->
  fold_left (fun a c => (a * radix + digitValue c)%N) (digitsOf (S fuel) radix n acc) 0%N
  = fold_left (fun a c => (a * radix + digitValue c)%N) acc n.
Proof.
  intros Hr. induction fuel as [|fuel IH]; intros n acc Hn; rewrite digitsOf_S.
  - simpl in Hn. assert (n = 0%N) as -> by lia.
    rewrite N.Div0.div_0_l. simpl N.eqb. cbv iota.
    rewrite N.Div0.mod_0_l. reflexivity.
  - assert (digitValue (digitChar (n mod radix)) = (n mod radix)%N) as Hd.
    { apply digitValue_digitChar. pose proof (N.mod_upper_bound n radix). lia. }
    destruct (N.eqb_spec (n / radix) 0) as [H0|H0].
    + cbn [fold_left]. rewrite Hd. f_equal.
      pose proof (N.div_mod n radix). lia.
    + rewrite (IH (n / radix)%N).
      * cbn [fold_left]. rewrite Hd. f_equal.
        pose proof (N.div_mod n radix). lia.
      * rewrite Nat2N.inj_succ, N.pow_succ_r' in Hn.
        apply N.Div0.div_lt_upper_bound.
        assert (2 * 2 ^ N.of_nat fuel <= radix * 2 ^ N.of_nat fuel)%N
          by (apply N.mul_le_mono_r; lia).
        lia.
Qed.

Lemma toStringRadix_value radix n :
  (2 <= radix <= 36)%N -> digitsValue radix (toStringRadix radix n) = n.
Proof.
  intros Hr. unfold digitsValue, toStringRadix.
  rewrite (digitsOf_value radix Hr); [reflexivity | apply size_nat_bound].
Qed.

Lemma digitsOf_forallb (q : char -> bool) radix :
  (0 < radix)%N ->
  (forall d, (d < radix)%N -> q (digitChar d) = true) ->
  forall fuel n acc,
  forallb q acc = true -> forallb q (digitsOf fuel radix n acc) = true.
Proof.
  intros Hr Hq. induction fuel as [|fuel IH]; intros n acc Hacc; simpl; [exact Hacc|].
  assert (forallb q (digitChar (n mod radix) :: acc) = true) as Hacc'.
  { simpl. rewrite Hacc, Hq; [reflexivity|]. apply N.mod_upper_bound. lia. }
  destruct (n / radix =? 0)%N; [exact Hacc' | apply IH; exact Hacc'].
Qed.

Lemma digitsOf_nonempty fuel radix n acc : digitsOf (S fuel) radix n acc <> [].
Proof.
  revert n acc. induction fuel as [|fuel IH]; intros n acc; cbn [digitsOf].
  - destruct (n / radix =? 0)%N; discriminate.
  - destruct (n / radix =? 0)%N; [discriminate | apply IH].
Qed.

Lemma digitsOf_length radix : forall fuel n acc,
  length (digitsOf fuel radix n acc) <= fuel + length acc.
Proof.
  induction fuel as [|fuel IH]; intros n acc; simpl; [lia|].
  destruct (n / radix =? 0)%N; simpl; [lia|].
  specialize (IH (n / radix)%N (digitChar (n mod radix) :: acc)). simpl in IH. lia.
Qed.

Lemma digitChar_base36 d : (d < 36)%N -> isBase36 (digitChar d) = true.
Proof.
  intros Hd. unfold isBase36, digitChar, inRange.
  destruct (N.ltb_spec d 10).
  - apply orb_true_iff. left. apply andb_true_iff. split; apply N.leb_le; lia.
  - apply orb_true_iff. right. apply andb_true_iff. split; apply N.leb_le; lia.
Qed.

Lemma digitChar_digit d : (d < 10)%N -> isDigit (digitChar d) = true.
Proof.
  intros Hd. unfold isDigit, digitChar, inRange.
  destruct (N.ltb_spec d 10); [|lia].
  apply andb_true_iff. split; apply N.leb_le; lia.
Qed.

Lemma toStringRadix_base36 n : forallb isBase36 (toStringRadix 36 n) = true.
Proof.
  apply digitsOf_forallb; [lia | apply digitChar_base36 | reflexivity].
Qed.

Lemma decimal_digits i : forallb isDigit (decimal i) = true.
Proof.
  apply digitsOf_forallb; [lia | apply digitChar_digit | reflexivity].
Qed.

Lemma decimal_noNL i : NL ∉ decimal i.
Proof.
  apply (forallb_not_elem isDigit); [apply decimal_digits | reflexivity].
Qed.

End NumberFacts.
(** ** The diagram type and the templates *)

Section TemplatesFacts.

Lemma matchAt_diagramTypeRe s pos :
  matchAt diagramTypeRe s pos =
  match firstPrefix validTypes s with
  | Some t => Some (length t, [(1, t)])
  | None => None
  end.
Proof.
  unfold matchAt, diagramTypeRe, firstPrefix, validTypes.
  cbn [alts fold_left map find run].
  rewrite !run_text.
  repeat match goal with
         | |- context [startsWith ?t s] =>
             let H := fresh "H" in
             destruct (startsWith t s) eqn:H;
             [ cbv beta iota;
               replace (pos + length t - pos) with (length t) by lia;
               rewrite (startsWith_take t s H); reflexivity | ]
         end.
  reflexivity.
Qed.

Lemma firstPrefix_elem ts s t : firstPrefix ts s = Some t -> t ∈ ts /\ startsWith t s = true.
Proof.
  unfold firstPrefix. intros H. apply find_some in H as [Hin Hs].
  split; [apply list_elem_of_In; exact Hin | exact Hs].
Qed.

Lemma searchFrom_diagramTypeRe s : forall pos,
  searchFrom diagramTypeRe s pos =
  match firstWord validTypes s with
  | Some t => Some (t, [(1, t)])
  | None => None
  end.
Proof.
  induction s as [|x s IH]; intros pos; cbn [searchFrom firstWord];
    rewrite matchAt_diagramTypeRe.
  - destruct (firstPrefix validTypes []) as [t|] eqn:Hp; [|reflexivity].
    apply firstPrefix_elem in Hp as [_ Hs]. rewrite (startsWith_take _ _ Hs).
    reflexivity.
  - destruct (firstPrefix validTypes (x :: s)) as [t|] eqn:Hp; [|apply IH].
    apply firstPrefix_elem in Hp as [_ Hs]. rewrite (startsWith_take _ _ Hs).
    reflexivity.
Qed.

Lemma extractDiagramType_direct code :
  extractDiagramType code = default (lit "unknown") (firstWord validTypes code).
Proof.
  unfold extractDiagramType, search. rewrite searchFrom_diagramTypeRe.
  destruct (firstWord validTypes code); reflexivity.
Qed.

Lemma firstPrefix_none ts s :
  firstPrefix ts s = None <-> existsb (fun t => startsWith t s) ts = false.
Proof.
  unfold firstPrefix. induction ts as [|t ts IH]; simpl; [tauto|].
  destruct (startsWith t s); simpl; [split; discriminate | exact IH].
Qed.

Lemma existsb_orb {A} (f g : A -> bool) l :
  existsb (fun x => f x || g x) l = existsb f l || existsb g l.
Proof.
  induction l as [|x l IH]; simpl; [reflexivity|]. rewrite IH.
  destruct (f x), (g x), (existsb f l); reflexivity.
Qed.

Lemma existsb_never {A} (l : list A) : existsb (fun _ => false) l = false.
Proof. induction l; [reflexivity | assumption]. Qed.

Lemma firstWord_none ts s :
  firstWord ts s = None <-> existsb (fun t => includes t s) ts = false.
Proof.
  induction s as [|x s IH]; cbn [firstWord].
  - change (fun t => includes t []) with (fun t => startsWith t [] || false).
    rewrite existsb_orb, orb_false_iff, <- firstPrefix_none, existsb_never.
    destruct (firstPrefix ts []).
    + split; [discriminate | intros [H _]; discriminate].
    + split; auto.
  - change (fun t => includes t (x :: s))
      with (fun t => startsWith t (x :: s) || includes t s).
    rewrite existsb_orb, orb_false_iff, <- firstPrefix_none, <- IH.
    destruct (firstPrefix ts (x :: s)).
    + split; [discriminate | intros [H _]; discriminate].
    + split; [auto | intros [_ H]; exact H].
Qed.

Lemma firstWord_elem ts : forall s t, firstWord ts s = Some t -> t ∈ ts.
Proof.
  induction s as [|x s IH]; intros t; cbn [firstWord];
    destruct (firstPrefix ts _) as [u|] eqn:Hp; intros H; try discriminate.
  - inversion H; subst. apply firstPrefix_elem in Hp. tauto.
  - inversion H; subst. apply firstPrefix_elem in Hp. tauto.
  - apply IH. exact H.
Qed.

Lemma firstWord_graph s :
  startsWith (lit "graph") s = true -> firstWord validTypes s = Some (lit "graph").
Proof.
  intros H.
  assert (firstPrefix validTypes s = Some (lit "graph")) as Hp.
  { unfold firstPrefix, validTypes. cbn [map find]. rewrite H. reflexivity. }
  destruct s; cbn [firstWord]; rewrite Hp; reflexivity.
Qed.

Lemma join_head (sep l : str) (ls : list str) : exists u, join sep (l :: ls) = l ++ u.
Proof.
  destruct ls as [|l' ls]; simpl.
  - exists []. rewrite app_nil_r. reflexivity.
  - eexists. reflexivity.
Qed.

Lemma startsWith_join_head (p x sep : str) (ls : list str) :
  startsWith p (join sep ([p ++ x : str] ++ ls)) = true.
Proof.
  destruct (join_head sep (p ++ x) ls) as [u Hu].
  cbn [app]. rewrite Hu, <- app_assoc.
  apply startsWith_self.
Qed.

Lemma generated_starts_with_graph data :
  startsWith (lit "graph") (generateMermaidFromJSON data) = true.
Proof.
  exact (startsWith_join_head (lit "graph")
           (SPACE :: default (lit "TD") (d_direction data)) [NL] _).
Qed.

Lemma typed_graph code :
  firstWord validTypes code = Some (lit "graph") ->
  validateMermaidSyntax code = mkValidation true None
  /\ extractDiagramType code = lit "graph".
Proof.
  intros Hw. split.
  - apply valid_true. rewrite valid_includes.
    destruct (existsb _ validTypes) eqn:He; [reflexivity|].
    apply firstWord_none in He. congruence.
  - rewrite extractDiagramType_direct, Hw. reflexivity.
Qed.

Lemma basicFlow_typed components :
  firstWord validTypes (basicFlow components) = Some (lit "graph").
Proof. apply firstWord_graph. reflexivity. Qed.

Lemma layeredArch_typed layers :
  firstWord validTypes (layeredArch layers) = Some (lit "graph").
Proof. apply firstWord_graph. reflexivity. Qed.

Lemma componentDiagram_typed components :
  firstWord validTypes (componentDiagram components) = Some (lit "graph").
Proof.
  unfold componentDiagram.
  change ([NL] ++ lit "graph LR" ++ ?x) with (NL :: (lit "graph LR" ++ x)).
  cbn [firstWord].
  change (firstPrefix validTypes (NL :: ?x)) with (@None str).
  cbv iota. apply firstWord_graph. reflexivity.
Qed.

Lemma serviceArch_typed : firstWord validTypes serviceArch = Some (lit "graph").
Proof. vm_compute. reflexivity. Qed.

(** The labels of [basicFlow]. *)
Lemma sanitizeComponent_facts c :
  forallb isSafe (sanitizeComponent c) = true
  /\ trim (sanitizeComponent c) = sanitizeComponent c.
Proof.
  unfold sanitizeComponent. split; [|apply trim_trim].
  apply forallb_trim. rewrite replaceAll_class, replaceClass_filter.
  erewrite filter_ext; [apply forallb_filter_same|].
  intros x. apply negb_involutive.
Qed.

Lemma safe_noNL s : forallb isSafe s = true -> NL ∉ s.
Proof. intros H. eapply forallb_not_elem; [exact H | reflexivity]. Qed.

Lemma splitOn_join_app (ls : list str) (s : str) :
  ls <> [] -> noNL ls ->
  splitOn NL (join [NL] ls ++ NL :: s) = ls ++ splitOn NL s.
Proof.
  induction ls as [|l ls IH]; intros Hne Hno; [congruence|].
  inversion Hno as [|? ? Hl Hls]; subst.
  destruct ls as [|l' ls].
  - simpl join. apply splitOn_app_sep. exact Hl.
  - change (join [NL] (l :: l' :: ls)) with (l ++ NL :: join [NL] (l' :: ls)).
    rewrite <- app_assoc, <- app_comm_cons.
    rewrite splitOn_app_sep by exact Hl.
    rewrite IH; [reflexivity | discriminate | exact Hls].
Qed.

Lemma Forall_imap {A B} (P : B -> Prop) (f : nat -> A -> B) (l : list A) :
  (forall i x, l !! i = Some x -> P (f i x)) -> Forall P (imap f l).
Proof.
  intros H. apply Forall_lookup. intros i y Hy.
  rewrite list_lookup_imap in Hy.
  destruct (l !! i) as [x|] eqn:Hx; [|discriminate].
  simpl in Hy. inversion Hy; subst. apply H. exact Hx.
Qed.

End TemplatesFacts.
(** ** The components *)

Section ViewFacts.

Lemma matchAt_languageRe s pos :
  matchAt languageRe s pos =
  if startsWith (lit "language-") s
  then let word := takeWhile isWord (drop 9 s) in
       if isEmpty word then None else Some (9 + length word, [(1, word)])
  else None.
Proof.
  unfold matchAt, languageRe.
  change (run (Seq ?a ?b) s pos [] ?k)
    with (run a s pos [] (fun s' pos' c' => run b s' pos' c' accept)).
  rewrite run_text.
  destruct (startsWith (lit "language-") s); [|reflexivity].
  rewrite run_group_plus_class_accept.
  change (length (lit "language-")) with 9. cbv zeta.
  destruct (isEmpty _); [reflexivity|]. f_equal. f_equal. lia.
Qed.

Lemma searchFrom_languageRe_word s : forall pos m c,
  searchFrom languageRe s pos = Some (m, c) -> forallb isWord (group 1 c) = true.
Proof.
  induction s as [|x s IH]; intros pos m c; cbn [searchFrom];
    rewrite matchAt_languageRe.
  - discriminate.
  - destruct (startsWith (lit "language-") (x :: s)); [|apply IH].
    cbv zeta. destruct (isEmpty _); [apply IH|].
    intros H. inversion H; subst. apply takeWhile_forallb.
Qed.

Lemma word_not_mermaid_json w :
  forallb isWord w = true -> eqb w (lit "mermaid-json") = false.
Proof.
  intros Hw. destruct (eqb w (lit "mermaid-json")) eqn:He; [|reflexivity].
  apply eqb_eq in He. subst w. discriminate.
Qed.

(** [/\n$/] *)
Lemma dropFinalNewline_cons x s : forall pos,
  replaceFirstFrom (Seq (chr NL) Eol) nothing (x :: s) pos
  = if (x =? NL)%N && isEmpty s then []
    else x :: replaceFirstFrom (Seq (chr NL) Eol) nothing s (S pos).
Proof.
  intros pos. cbn [replaceFirstFrom]. unfold matchAt. cbn [run chr].
  rewrite (N.eqb_sym NL x).
  destruct (x =? NL)%N; [|reflexivity].
  destruct s; [|reflexivity].
  replace (S pos - pos) with 1 by lia. reflexivity.
Qed.

Lemma dropFinalNewline_snoc s : forall pos,
  replaceFirstFrom (Seq (chr NL) Eol) nothing (s ++ [NL]) pos = s.
Proof.
  induction s as [|x s IH]; intros pos.
  - cbn [app]. rewrite dropFinalNewline_cons. reflexivity.
  - cbn [app]. rewrite dropFinalNewline_cons.
    replace (isEmpty (s ++ [NL])) with false by (destruct s; reflexivity).
    rewrite andb_false_r, IH. reflexivity.
Qed.

Lemma dropFinalNewline_other s : forall pos,
  last s <> Some NL ->
  replaceFirstFrom (Seq (chr NL) Eol) nothing s pos = s.
Proof.
  induction s as [|x s IH]; intros pos Hl.
  - reflexivity.
  - rewrite dropFinalNewline_cons.
    destruct s as [|y s].
    + simpl in Hl. destruct (N.eqb_spec x NL) as [->|]; [congruence | reflexivity].
    + rewrite andb_false_r. rewrite IH; [reflexivity|]. exact Hl.
Qed.

(** The hash of the chart. *)
Lemma toInt32_shift x k : toInt32 (x + 2 ^ 32 * k) = toInt32 x.
Proof.
  unfold toInt32. f_equal.
  replace (x + 2 ^ 32 * k + 2 ^ 31)%Z with (x + 2 ^ 31 + k * 2 ^ 32)%Z by ring.
  apply Z_mod_plus_full.
Qed.

Lemma toInt32_multiple x : exists k, toInt32 x = (x + 2 ^ 32 * k)%Z.
Proof.
  exists (- ((x + 2 ^ 31) / 2 ^ 32))%Z. unfold toInt32.
  pose proof (Z_div_mod_eq_full (x + 2 ^ 31) (2 ^ 32)). lia.
Qed.

Lemma toInt32_range x : (- 2 ^ 31 <= toInt32 x < 2 ^ 31)%Z.
Proof.
  unfold toInt32. pose proof (Z.mod_pos_bound (x + 2 ^ 31) (2 ^ 32) eq_refl). lia.
Qed.

Lemma toInt32_idem x : toInt32 (toInt32 x) = toInt32 x.
Proof.
  destruct (toInt32_multiple x) as [k Hk]. rewrite Hk at 1. apply toInt32_shift.
Qed.

Lemma hashStep_direct g char :
  hashStep (toInt32 g) char = toInt32 (31 * g + Z.of_N char).
Proof.
  unfold hashStep. cbv zeta. rewrite Z.land_diag, toInt32_idem.
  destruct (toInt32_multiple g) as [k0 Hk0].
  destruct (toInt32_multiple (toInt32 g * 2 ^ 5)) as [k1 Hk1].
  rewrite Hk1, Hk0.
  replace ((g + 2 ^ 32 * k0) * 2 ^ 5 + 2 ^ 32 * k1 - (g + 2 ^ 32 * k0) + Z.of_N char)%Z
    with (31 * g + Z.of_N char + 2 ^ 32 * (31 * k0 + k1))%Z by ring.
  apply toInt32_shift.
Qed.

Lemma chartHash_fold chart : forall g,
  fold_left hashStep chart (toInt32 g)
  = toInt32 (fold_left (fun h c => (31 * h + Z.of_N c)%Z) chart g).
Proof.
  induction chart as [|c chart IH]; intros g; [reflexivity|].
  cbn [fold_left]. rewrite hashStep_direct. apply IH.
Qed.

Lemma chartHash_direct chart :
  chartHash chart
  = toInt32 (fold_left (fun h c => (31 * h + Z.of_N c)%Z) chart 0%Z).
Proof.
  unfold chartHash. change 0%Z with (toInt32 0) at 1. apply chartHash_fold.
Qed.

(** The number of digits. *)
Lemma digitsOf_short radix : (2 <= radix)%N ->
  forall fuel k n acc,
  (n < radix ^ N.of_nat (S k))%N ->
  length (digitsOf fuel radix n acc) <= S k + length acc.
Proof.
  intros Hr. induction fuel as [|fuel IH]; intros k n acc Hn; [simpl; lia|].
  rewrite digitsOf_S. destruct (N.eqb_spec (n / radix) 0) as [H0|H0]; [simpl; lia|].
  destruct k as [|k].
  - exfalso. apply H0. apply N.div_small. simpl in Hn. lia.
  - specialize (IH k (n / radix)%N (digitChar (n mod radix) :: acc)).
    simpl length in IH. rewrite Nat.add_succ_r in IH. apply IH.
    rewrite Nat2N.inj_succ, N.pow_succ_r' in Hn.
    apply N.Div0.div_lt_upper_bound. exact Hn.
Qed.

End ViewFacts.
(** ** The chat export *)

Section ExportFacts.

Lemma isFilenameChar_kept c :
  negb (isFilenameChar c) = false -> isFilenameChar c = true.
Proof. destruct (isFilenameChar c); [reflexivity | discriminate]. Qed.

Lemma sanitizeFilenameLabel_clean label :
  forallb isFilenameChar (sanitizeFilenameLabel label) = true.
Proof.
  unfold sanitizeFilenameLabel. rewrite replaceAll_plus_class.
  apply collapseClass_forallb; [reflexivity | apply isFilenameChar_kept].
Qed.

(** A match of a pattern that starts with a literal text has the text
    in it. *)
Lemma matchAt_text_first t r s pos n c :
  matchAt (Seq (text t) r) s pos = Some (n, c) ->
  startsWith t s = true /\ length t <= n
  /\ matchAt r (drop (length t) s) (pos + length t) = Some (n - length t, c).
Proof.
  unfold matchAt.
  change (run (Seq (text t) r) s pos [] ?k)
    with (run (text t) s pos [] (fun s' pos' c' => run r s' pos' c' accept)).
  rewrite run_text. destruct (startsWith t s); [|discriminate].
  change (fun s' pos' c' => Some (s', pos', c')) with accept.
  destruct (run r _ _ [] accept) as [[[s1 e] c1]|] eqn:Hr; [|discriminate].
  intros H. inversion H; subst. clear H.
  apply run_reaches in Hr as (n1 & c2 & Hn1 & Hk & _).
  inversion Hk; subst.
  repeat split; [lia|]. do 2 f_equal. lia.
Qed.

Lemma execFrom_parts r : forall s pos skipped block c rest,
  execFrom r s pos = Some (skipped, block, c, rest) ->
  s = skipped ++ block ++ rest
  /\ matchAt r (block ++ rest) (pos + length skipped) = Some (length block, c).
Proof.
  induction s as [|x s IH]; intros pos skipped block c rest; cbn [execFrom].
  - destruct (matchAt r [] pos) as [[n c1]|] eqn:Hm; [|discriminate].
    intros H. inversion H; subst. rewrite take_drop, Nat.add_0_r.
    split; [reflexivity|].
    pose proof (matchAt_reaches _ _ _ _ _ Hm) as [Hn _].
    rewrite Hm, length_take. do 2 f_equal. lia.
  - destruct (matchAt r (x :: s) pos) as [[n c1]|] eqn:Hm.
    + intros H. inversion H; subst. rewrite take_drop, Nat.add_0_r.
      split; [reflexivity|].
      pose proof (matchAt_reaches _ _ _ _ _ Hm) as [Hn _].
      rewrite Hm, length_take. do 2 f_equal. lia.
    + destruct (execFrom r s (S pos)) as [[[[sk bl] c1] rs]|] eqn:He; [|discriminate].
      intros H. inversion H; subst.
      destruct (IH _ _ _ _ _ He) as [Hs Hm']. split.
      * simpl. f_equal. exact Hs.
      * simpl length. rewrite Nat.add_succ_r. exact Hm'.
Qed.

Lemma execFrom_none r : forall s pos,
  (forall k, matchAt r (drop k s) (pos + k) = None) -> execFrom r s pos = None.
Proof.
  induction s as [|x s IH]; intros pos H; cbn [execFrom].
  - pose proof (H 0) as H0. simpl in H0. rewrite Nat.add_0_r in H0. rewrite H0.
    reflexivity.
  - pose proof (H 0) as H0. rewrite drop_0, Nat.add_0_r in H0. rewrite H0.
    rewrite IH; [reflexivity|].
    intros k. specialize (H (S k)). simpl in H. rewrite Nat.add_succ_r in H. exact H.
Qed.

(** A chart starts with three backticks and the word [mermaid]. *)
Lemma startsWith_longer (p q s : str) :
  startsWith (p ++ q) s = true -> startsWith p s = true.
Proof.
  revert s. induction p as [|x p IH]; intros s; [reflexivity|].
  destruct s as [|y s]; simpl; [congruence|].
  intros H. apply andb_prop in H as [Hx Hp]. rewrite Hx. simpl. apply IH. exact Hp.
Qed.

Lemma startsWith_app_drop (p q s : str) :
  startsWith p s = true -> startsWith q (drop (length p) s) = true ->
  startsWith (p ++ q) s = true.
Proof.
  revert s. induction p as [|x p IH]; intros s Hp Hq; [exact Hq|].
  destruct s as [|y s]; simpl in *; [congruence|].
  apply andb_prop in Hp as [Hx Hp]. rewrite Hx. simpl. apply IH; assumption.
Qed.

Lemma matchAt_chartPattern s pos n c :
  matchAt chartPattern s pos = Some (n, c) ->
  startsWith (ticks 3 ++ lit "mermaid") s = true /\ 3 <= n.
Proof.
  unfold chartPattern, seqs. cbn [fold_right]. intros H.
  apply matchAt_text_first in H as (Ht & Hn & Hm).
  split; [|exact Hn].
  apply startsWith_app_drop; [exact Ht|].
  unfold matchAt in Hm.
  change (run (Seq (Group 1 (Alt ?a ?b)) ?r) ?s ?p [] ?k)
    with (match run a s p [] (fun s' pos' c' =>
                  run r s' pos' ((1, take (pos' - p) s) :: c') k) with
          | Some m => Some m
          | None => run b s p [] (fun s' pos' c' =>
                      run r s' pos' ((1, take (pos' - p) s) :: c') k)
          end) in Hm.
  rewrite !run_text in Hm.
  destruct (startsWith (lit "mermaid") _) eqn:H1; [reflexivity|].
  destruct (startsWith (lit "mermaid-json") _) eqn:H2; [|discriminate].
  apply (startsWith_longer (lit "mermaid") (lit "-json")) in H2. congruence.
Qed.

Lemma includes_drop_none p s :
  includes p s = false -> forall k, startsWith p (drop k s) = false.
Proof.
  induction s as [|x s IH]; intros H k.
  - rewrite drop_nil. cbn [includes] in H. apply orb_false_iff in H. tauto.
  - cbn [includes] in H. apply orb_false_iff in H as [H1 H2].
    destruct k; [exact H1 | apply IH; exact H2].
Qed.

(** The lines of the messages. *)
Lemma fold_files (files : list str) : forall lines,
  fold_left (fun lines file => lines ++ [lit "- `" ++ file ++ lit "`"]) files lines
  = lines ++ map (fun file => lit "- `" ++ file ++ lit "`") files.
Proof.
  induction files as [|f files IH]; intros lines; simpl.
  - rewrite app_nil_r. reflexivity.
  - rewrite IH, <- app_assoc. reflexivity.
Qed.

Lemma pushMessage_direct lines userTurn assistantTurn message :
  pushMessage (lines, userTurn, assistantTurn) message
  = match m_role message with
    | user => (lines ++ messageLines (userTurn + 1) message, userTurn + 1, assistantTurn)
    | model => (lines ++ messageLines (assistantTurn + 1) message, userTurn,
                assistantTurn + 1)
    end.
Proof.
  unfold pushMessage, messageLines.
  destruct (m_role message); cbv zeta beta iota;
    destruct (m_relevantFiles message) as [[|f fs]|];
    rewrite ?fold_files, <- ?app_assoc; reflexivity.
Qed.

Lemma countRole_cons r m ms :
  countRole r (m :: ms)
  = (match m_role m, r with
     | user, user | model, model => 1
     | _, _ => 0
     end) + countRole r ms.
Proof.
  unfold countRole. simpl. destruct (m_role m), r; reflexivity.
Qed.

Lemma fold_pushMessage ms : forall lines userTurn assistantTurn,
  fst (fst (fold_left pushMessage ms (lines, userTurn, assistantTurn)))
  = lines ++ concat (imap (fun i m =>
                             messageLines
                               (match m_role m with
                                | user => userTurn
                                | model => assistantTurn
                                end + countRole (m_role m) (take (S i) ms)) m)
                          ms).
Proof.
  induction ms as [|m ms IH]; intros lines u a.
  - simpl. rewrite app_nil_r. reflexivity.
  - cbn [fold_left]. rewrite pushMessage_direct, imap_cons. cbn [concat].
    destruct (m_role m) eqn:Hm.
    + rewrite IH, <- app_assoc. f_equal. f_equal.
      { unfold countRole. simpl. rewrite Hm. reflexivity. }
      f_equal. apply imap_ext. intros i x Hx. unfold compose.
      change (take (S (S i)) (m :: ms)) with (m :: take (S i) ms).
      rewrite countRole_cons, Hm. destruct (m_role x); f_equal; lia.
    + rewrite IH, <- app_assoc. f_equal. f_equal.
      { unfold countRole. simpl. rewrite Hm. reflexivity. }
      f_equal. apply imap_ext. intros i x Hx. unfold compose.
      change (take (S (S i)) (m :: ms)) with (m :: take (S i) ms).
      rewrite countRole_cons, Hm. destruct (m_role x); f_equal; lia.
Qed.

(** The loop over the charts. *)
Lemma execFrom_chart rest lastIndex skipped block m rest' :
  execFrom chartPattern rest lastIndex = Some (skipped, block, m, rest') ->
  rest = skipped ++ block ++ rest' /\ 3 <= length block.
Proof.
  intros He. apply execFrom_parts in He as [Hs Hm].
  apply matchAt_chartPattern in Hm as [_ Hn]. auto.
Qed.

Lemma convertLoop_ends renderMermaid convertMermaidJson now encodeURIComponent :
  forall fuel rest lastIndex index result,
  length rest < fuel ->
  is_Some (convertLoop renderMermaid convertMermaidJson now encodeURIComponent
                       fuel rest lastIndex index result).
Proof.
  induction fuel as [|fuel IH]; intros rest lastIndex index result Hlt; [lia|].
  cbn [convertLoop].
  destruct (execFrom chartPattern rest lastIndex) as [[[[sk bl] m] rs]|] eqn:He;
    [|eexists; reflexivity].
  apply execFrom_chart in He as [Hs Hn].
  assert (length rs < fuel) as Hrs.
  { rewrite Hs, !length_app in Hlt. lia. }
  cbv zeta.
  match goal with
  | |- is_Some (match ?t with Some _ => _ | None => _ end) => destruct t
  end; apply IH; exact Hrs.
Qed.

Lemma convertLoop_failing renderMermaid convertMermaidJson now encodeURIComponent :
  (forall code id, renderMermaid code id = None) ->
  forall fuel rest lastIndex index result,
  length rest < fuel ->
  convertLoop renderMermaid convertMermaidJson now encodeURIComponent
              fuel rest lastIndex index result
  = Some (result ++ rest).
Proof.
  intros Hfail.
  induction fuel as [|fuel IH]; intros rest lastIndex index result Hlt; [lia|].
  cbn [convertLoop].
  destruct (execFrom chartPattern rest lastIndex) as [[[[sk bl] m] rs]|] eqn:He;
    [|reflexivity].
  apply execFrom_chart in He as [Hs Hn].
  assert (length rs < fuel) as Hrs.
  { rewrite Hs, !length_app in Hlt. lia. }
  cbv zeta. unfold chartImage.
  match goal with
  | |- match ?t with Some _ => _ | None => _ end = _ => destruct t
  end; rewrite ?Hfail, IH by exact Hrs; rewrite Hs, <- !app_assoc; reflexivity.
Qed.

End ExportFacts.
(** ** The input of the search box *)

Section ActionsFacts.

Lemma splitOn_length sep s : length (splitOn sep s) = S (occurrences sep s).
Proof.
  unfold occurrences. induction s as [|c s IH]; [reflexivity|].
  cbn [splitOn List.filter]. rewrite (N.eqb_sym sep c).
  destruct (c =? sep)%N.
  - simpl. rewrite IH. reflexivity.
  - destruct (splitOn sep s) as [|l ls] eqn:Hs; [simpl in IH; lia|].
    simpl in *. exact IH.
Qed.

Lemma splitOn_two sep s a b :
  splitOn sep s = [a; b] -> s = a ++ sep :: b /\ (sep ∉ a) /\ (sep ∉ b).
Proof.
  intros H. pose proof (join_splitOn sep s) as Hj.
  pose proof (splitOn_no_sep sep s) as Hn.
  rewrite H in Hj, Hn. simpl in Hj.
  inversion Hn as [|? ? Ha Hn']; subst. inversion Hn' as [|? ? Hb _]; subst.
  auto.
Qed.

End ActionsFacts.

(** ** Worked examples

    The first two are cases of the repository's repair scripts. *)

Section WorkedExamples.

(** A block opened and closed with four backticks around a line of three
    is left as it is. *)
Example properly_closed_block_unchanged :
  let content :=
    join [NL] (map lit ["````jsx"; "function App() {"; "  return <div>Hello</div>;";
                        "}"; "```"; ""; "More text here"; "````"]%string) in
  repairMarkdown content = content.
Proof. vm_compute. reflexivity. Qed.

(** A block opened with four backticks and never closed gets its closer
    at the end; the line of three backticks is content. *)
Example incomplete_block_closed :
  repairMarkdown
    (join [NL] (map lit ["````jsx"; "import { createRoot } from 'react-dom/client';";
                         "```"; ""; "More content"]%string))
  = join [NL] (map lit ["````jsx"; "import { createRoot } from 'react-dom/client';";
                        "```"; ""; "More content"; "````"]%string).
Proof. vm_compute. reflexivity. Qed.

(** The hand-written line of the specification's third scenario: the
    label between the dashes is already quoted and is not touched, the
    node after the arrow is. *)
Example quoted_edge_label_kept :
  processLine (lit "  A -- " ++ [DQUOTE] ++ lit "some `label`" ++ [DQUOTE]
               ++ lit " --> B(Node B)")
  = lit "A -- " ++ [DQUOTE] ++ lit "some `label`" ++ [DQUOTE]
    ++ lit " --> B(" ++ [DQUOTE] ++ lit "Node B" ++ [DQUOTE] ++ lit ")".
Proof. vm_compute. reflexivity. Qed.

End WorkedExamples.

(** ** Properties of the fence repair engine *)

Section RepairProperties.

(** C1 (the code at a failing input).  The specification has it that a
    line that is a fence line before and after the repair never has fewer
    backticks after.  In the text below, two well-formed blocks one after
    the other, the fragmentation step merges the block of lines 0-2 with
    the marker of line 3 and rewrites that marker to [fenceLength + 1 = 4]
    backticks, although it had 5: line 3 is a fence line of the input
    with 5 backticks and a fence line of the output with 4. *)
Theorem fence_length_shrinks :
  let content :=
    join [NL] (map lit ["```js"; "a"; "```"; "`````"; "b"; "`````"]%string) in
  f_length <$> (splitOn NL content !! 3 ≫= fenceOf 3) = Some 5
  /\ f_length <$> (splitOn NL (repairMarkdown content) !! 3 ≫= fenceOf 3) = Some 4
  /\ splitOn NL (repairMarkdown content) =
     map lit ["````js"; "a"; "```"; "````"; "b"; "`````"; "`````"]%string.
Proof. vm_compute. auto. Qed.

(** C2 as stated fails: a 4-backtick opener followed by an info-less
    3-backtick marker.  The pairing loop leaves the opener open, the next
    info-less marker exists and is shorter, and yet that line is not
    lengthened: a closer is appended instead. *)
Lemma unclosed_shorter_marker_not_lengthened :
  let L := map lit ["````js"; "code"; "```"]%string in
  exists c nf,
    snd (pairFences (scanFences L)) = Some c
    /\ find (fun f => (f_index c <? f_index f) && isEmpty (f_info f))
            (scanFences L) = Some nf
    /\ f_length nf < f_length c
    /\ fst (repairPass L) <> <[f_index nf := ticks (f_length c)]> L
    /\ repairMarkdown (join [NL] L) = join [NL] (L ++ [ticks 4]).
Proof.
  exists (mkFence 0 4 (lit "js") (lit "````js")), (mkFence 2 3 [] (lit "```")).
  split; [vm_compute; reflexivity|].
  split; [vm_compute; reflexivity|].
  split; [simpl; lia|].
  split; [vm_compute; discriminate | vm_compute; reflexivity].
Qed.

(** C2 (amended).  When the pairing loop of a pass ends with an open
    block, every later info-less marker is shorter than the opener (so the
    search of step 2.5 finds nothing and no existing line is lengthened),
    and the pass appends one line, the opener's indentation followed by as
    many backticks as the opener has, and asks for another pass. *)
Theorem unclosed_block_appends_closer (L : list str) (c : Fence) :
  snd (pairFences (scanFences L)) = Some c ->
  (forall f, f ∈ scanFences L -> f_index c < f_index f -> f_info f = [] ->
             f_length f < f_length c)
  /\ L !! f_index c = Some (f_raw c)
  /\ repairPass L = (L ++ [takeWhile isSpace (f_raw c) ++ ticks (f_length c)], true).
Proof.
  intros Hd.
  assert (c ∈ scanFences L) as Hc by (apply (pairFences_blocks L); exact Hd).
  apply scanFences_elem in Hc as [Hl _].
  split; [|split; [exact Hl|]].
  - intros f Hf Hlt Hinfo.
    pose proof Hd as Hd'.
    apply pairStep_dangling in Hd' as [[H _]|(l1 & l2 & Heq & Hall)];
      [discriminate|].
    pose proof (scanFrom_sorted 0 L) as Hs.
    rewrite <- scanFences_scanFrom, Heq in Hs. apply sorted_before in Hs.
    rewrite Heq in Hf. apply elem_of_app in Hf as [Hf|Hf].
    + rewrite Forall_forall in Hs. apply Hs in Hf. lia.
    + apply elem_of_cons in Hf as [->|Hf]; [lia|].
      rewrite Forall_forall in Hall. apply Hall in Hf.
      unfold closes in Hf. rewrite Hinfo, andb_true_r in Hf.
      apply Nat.leb_gt in Hf. exact Hf.
  - rewrite (repairPass_dangling L c Hd).
    rewrite (nth_lookup_Some _ _ _ _ Hl). reflexivity.
Qed.

Lemma unclosed_block_appends_closer_witness :
  repairPass (map lit ["  ````js"; "code"; "```"]%string)
  = (map lit ["  ````js"; "code"; "```"; "  ````"]%string, true).
Proof.
  destruct (unclosed_block_appends_closer
              (map lit ["  ````js"; "code"; "```"]%string)
              (mkFence 0 4 (lit "js") (lit "  ````js")))
    as (_ & _ & H); [vm_compute; reflexivity|].
  exact H.
Defined.

(** C3 as stated fails: on three bare fence lines the three passes are
    used up while the engine is still rewriting (append a closer, merge,
    append a closer), and a second repair goes on from there (merge,
    append, merge). *)
Lemma repair_not_idempotent :
  let content := join [NL] (map lit ["```"; "```"; "```"]%string) in
  repairMarkdown content
  = join [NL] (map lit ["````"; "```"; "````"; "```"; "```"]%string)
  /\ repairMarkdown (repairMarkdown content)
     = join [NL] (map lit ["``````"; "```"; "````"; "`````"; "``````"; "```"]%string)
  /\ repairMarkdown (repairMarkdown content) <> repairMarkdown content.
Proof.
  split; [vm_compute; reflexivity|].
  split; [vm_compute; reflexivity|].
  vm_compute. discriminate.
Qed.

(** C3 (amended).  When the loop is left with [changesMade = false], that
    is by a pass that changed nothing and not by the cap of three passes,
    repairing the result again returns it unchanged. *)
Theorem repair_idempotent_settled (content : str) :
  snd (repairLoop 3 (splitOn NL content) false) = false ->
  repairMarkdown (repairMarkdown content) = repairMarkdown content.
Proof.
  intros Hs. destruct (includes (ticks 3) content) eqn:Hinc.
  2:{ unfold repairMarkdown at 2 3. rewrite Hinc. simpl.
      unfold repairMarkdown. rewrite Hinc. reflexivity. }
  pose proof (repaired_lines content Hinc) as Hlines.
  apply repairLoop_settled in Hs as [[H _]|[Hfst Hsnd]]; [discriminate|].
  set (L := fst (repairLoop 3 (splitOn NL content) false)) in *.
  assert (repairMarkdown content = join [NL] L) as Hout.
  { unfold repairMarkdown. rewrite Hinc. reflexivity. }
  unfold repairMarkdown at 1.
  destruct (includes (ticks 3) (repairMarkdown content)); simpl; [|reflexivity].
  rewrite Hlines. simpl.
  destruct (repairPass L) as [L' ch]. simpl in Hfst, Hsnd. subst L' ch.
  simpl. symmetry. exact Hout.
Qed.

Lemma repair_idempotent_settled_witness :
  let content :=
    join [NL] (map lit ["````js"; "code"; "```"]%string) in
  repairMarkdown content = join [NL] (map lit ["````js"; "code"; "```"; "````"]%string)
  /\ repairMarkdown (repairMarkdown content) = repairMarkdown content.
Proof.
  split; [vm_compute; reflexivity|].
  apply repair_idempotent_settled. vm_compute. reflexivity.
Defined.

(** C4 as stated fails: in the text below the 4-backtick line 2 opens a
    block that nothing closes.  The first pass appends its closer, the
    next two passes merge the block of lines 0-1 with line 2 and lengthen
    line 2 to 5 backticks, and the cap of three passes ends the repair:
    in the returned text line 2 still opens a block that nothing closes,
    the appended closer being too short for it now. *)
Lemma repair_leaves_block_open :
  let L := map lit ["```"; "`````"; "````"]%string in
  let out := splitOn NL (repairMarkdown (join [NL] L)) in
  f_index <$> snd (pairFences (scanFences L)) = Some 2
  /\ out = map lit ["`````"; "`````"; "`````"; "````"]%string
  /\ snd (pairFences (scanFences out)) = Some (mkFence 2 5 [] (lit "`````")).
Proof. vm_compute. auto. Qed.

(** C4 (amended).  When the loop is left with [changesMade = false], the
    pairing loop run on the returned text leaves no block open, and each
    block it pairs runs from a fence line to a later fence line that has
    no info string and at least as many backticks as the opener. *)
Theorem settled_blocks_closed (content : str) :
  snd (repairLoop 3 (splitOn NL content) false) = false ->
  let fenceLines := scanFences (splitOn NL (repairMarkdown content)) in
  snd (pairFences fenceLines) = None
  /\ Forall (fun b => exists o c, o ∈ fenceLines /\ c ∈ fenceLines
               /\ f_index o = b_start b /\ f_index c = b_end b
               /\ b_start b < b_end b
               /\ f_info c = [] /\ f_length o <= f_length c)
            (fst (pairFences fenceLines)).
Proof.
  intros Hs fenceLines. split.
  - subst fenceLines. destruct (includes (ticks 3) content) eqn:Hinc.
    + rewrite (repaired_lines content Hinc).
      apply repairLoop_settled in Hs as [[H _]|[_ Hsnd]]; [discriminate|].
      apply repairPass_unchanged in Hsnd as [_ H]. exact H.
    + unfold repairMarkdown. rewrite Hinc. simpl.
      rewrite (no_ticks_no_fences content Hinc). reflexivity.
  - pose proof (pairFences_blocks (splitOn NL (repairMarkdown content))) as [Hb _].
    eapply Forall_impl; [exact Hb|].
    intros b (o & c & Ho & Hc & Hso & Hec & _ & Hcl & Hord).
    exists o, c. unfold closes in Hcl. apply andb_prop in Hcl as [Hlen Hinfo].
    apply Nat.leb_le in Hlen. destruct (f_info c); [|discriminate].
    repeat split; auto. lia.
Qed.

Lemma settled_blocks_closed_witness :
  let content :=
    join [NL] (map lit ["```js"; "a"; "```"; "`````"; "b"; "`````"]%string) in
  snd (pairFences (scanFences (splitOn NL (repairMarkdown content)))) = None.
Proof.
  apply (settled_blocks_closed
           (join [NL] (map lit ["```js"; "a"; "```"; "`````"; "b"; "`````"]%string))).
  vm_compute. reflexivity.
Defined.

(** C5 as stated fails: a fence line is not always given back with only
    its run of backticks changed.  In the text below line 3 is a fence
    line of three backticks that ends with a carriage return.  Step 3
    merges the block of lines 0-2 with it and writes it back as its
    indentation and four backticks: the carriage return, the only one of
    the text, is gone.  The loop ends here by a pass that changes
    nothing, not by the cap of three passes. *)
Lemma closer_loses_carriage_return :
  let content :=
    join [NL] [lit "```js"; lit "a"; lit "```"; lit "```" ++ [CR]; lit "b"; lit "```"] in
  splitOn NL content !! 3 = Some (lit "```" ++ [CR])
  /\ fenceOf 3 (lit "```" ++ [CR]) = Some (mkFence 3 3 [] (lit "```" ++ [CR]))
  /\ splitOn NL (repairMarkdown content) !! 3 = Some (lit "````")
  /\ (forall n, splitOn NL (repairMarkdown content) !! 3 <> Some (ticks n ++ [CR]))
  /\ existsb (N.eqb CR) content = true
  /\ existsb (N.eqb CR) (repairMarkdown content) = false
  /\ snd (repairLoop 3 (splitOn NL content) false) = false.
Proof.
  cbv zeta.
  split; [vm_compute; reflexivity|].
  split; [vm_compute; reflexivity|].
  split; [vm_compute; reflexivity|].
  split; [|split; [vm_compute; reflexivity|split; vm_compute; reflexivity]].
  intros n H.
  replace (splitOn NL _ !! 3) with (Some (lit "````")) in H by (vm_compute; reflexivity).
  inversion H as [Hn].
  destruct n as [|[|[|[|[|n]]]]]; discriminate Hn.
Qed.

(** C5 (amended).  A fence line is a line that the scan of the engine
    takes for a marker.  Every line of the input that is not a fence line
    is found unchanged at the same position among the lines of the
    output.  A fence line of the input is found there as a fence line
    with the same info string and the same indentation: either as the
    line it was with another run of backticks, what follows the run being
    kept; or, and only when it has no info string, as its indentation and
    a run of backticks alone, the white space that followed the run
    (blanks, a carriage return) being dropped.  No line is removed, at
    most three are added, and an added line is a closing fence: white
    space followed by backticks. *)
Theorem repair_frame (content : str) (i : nat) (line : str) :
  splitOn NL content !! i = Some line ->
  (fenceOf i line = None -> splitOn NL (repairMarkdown content) !! i = Some line)
  /\ (forall f, fenceOf i line = Some f ->
        exists line' f',
          splitOn NL (repairMarkdown content) !! i = Some line'
          /\ fenceOf i line' = Some f' /\ f_info f' = f_info f
          /\ takeWhile isSpace line' = takeWhile isSpace line
          /\ (line' = withTicks line (f_length f')
              \/ (f_info f = [] /\ forallb isSpace (fenceRest line) = true
                  /\ line' = bareFence line (f_length f'))))
  /\ length (splitOn NL content) <= length (splitOn NL (repairMarkdown content))
     <= length (splitOn NL content) + 3
  /\ (forall j l, length (splitOn NL content) <= j ->
                  splitOn NL (repairMarkdown content) !! j = Some l ->
                  closerLine l = true).
Proof.
  intros Hl.
  assert (exists line', splitOn NL (repairMarkdown content) !! i = Some line'
                        /\ repairedLine i line line') as (line' & Hl' & Hr).
  { revert i line Hl. rewrite repaired_lines_all.
    destruct (includes (ticks 3) content).
    - apply (repairLoop_invariant
               (fun L => forall i l, splitOn NL content !! i = Some l ->
                                     exists l', L !! i = Some l' /\ repairedLine i l l')).
      + intros L L' HP HI. exact (pass_repaired _ L L' HP HI).
      + intros i l Hl. exists l. split; [exact Hl | apply repairedLine_refl].
    - intros i l Hl. exists l. split; [exact Hl | apply repairedLine_refl]. }
  unfold repairedLine in Hr.
  split; [|split; [|split]].
  - intros Hf. rewrite Hf in Hr. subst line'. exact Hl'.
  - intros f Hf. rewrite Hf in Hr. destruct Hr as (f' & Hf' & Hinfo & Hshape).
    exists line', f'. split; [exact Hl'|]. split; [exact Hf'|]. split; [exact Hinfo|].
    split; [|exact Hshape].
    pose proof (fence_length_ge3 _ _ _ Hf') as H3.
    destruct Hshape as [->|(_ & _ & ->)];
      [apply withTicks_indent | apply bareFence_indent]; lia.
  - rewrite repaired_lines_all. destruct (includes (ticks 3) content); [|lia].
    split.
    + apply (repairLoop_frame 3 (splitOn NL content) false).
    + apply (repairLoop_measure (@length str) pass_length).
  - rewrite repaired_lines_all. destruct (includes (ticks 3) content).
    + apply (repairLoop_invariant
               (fun L => forall j l, length (splitOn NL content) <= j ->
                                     L !! j = Some l -> closerLine l = true)).
      * intros L L' HP HI. exact (pass_tail _ L L' HP HI).
      * intros j l Hj Hjl. apply lookup_lt_Some in Hjl. lia.
    + intros j l Hj Hjl. apply lookup_lt_Some in Hjl. lia.
Qed.

Lemma repair_frame_witness :
  let content :=
    join [NL] [lit "```js"; lit "a"; lit "```"; lit "```  "; lit "b"; lit "```"] in
  splitOn NL (repairMarkdown content) !! 4 = Some (lit "b")
  /\ exists line' f',
       splitOn NL (repairMarkdown content) !! 3 = Some line'
       /\ fenceOf 3 line' = Some f' /\ f_info f' = []
       /\ (line' = withTicks (lit "```  ") (f_length f')
           \/ line' = bareFence (lit "```  ") (f_length f')).
Proof.
  split.
  - apply (repair_frame
             (join [NL] [lit "```js"; lit "a"; lit "```"; lit "```  "; lit "b"; lit "```"])
             4 (lit "b")); vm_compute; reflexivity.
  - destruct (repair_frame
                (join [NL] [lit "```js"; lit "a"; lit "```"; lit "```  "; lit "b"; lit "```"])
                3 (lit "```  ")) as (_ & H & _); [vm_compute; reflexivity|].
    destruct (H (mkFence 3 3 [] (lit "```  ")))
      as (line' & f' & H1 & H2 & H3 & _ & H5); [vm_compute; reflexivity|].
    exists line', f'. split; [exact H1|]. split; [exact H2|]. split; [exact H3|].
    destruct H5 as [H5|(_ & _ & H5)]; [left | right]; exact H5.
Defined.

End RepairProperties.

(** ** Properties of the diagram sanitizer *)

Section DiagramProperties.

(** C6.  Whatever the input, the sanitized text holds only code units of
    the safe class (ASCII letters, digits, the space and [. , ; : ! ? ( )
    - _]), has no two white-space units in a row, and has no white space
    at either end. *)
Theorem sanitized_text_safe (text : str) :
  forallb isSafe (sanitizeMermaidText text) = true
  /\ noAdjacentSpaces (sanitizeMermaidText text) = true
  /\ trim (sanitizeMermaidText text) = sanitizeMermaidText text.
Proof.
  unfold sanitizeMermaidText. cbv zeta.
  rewrite replaceAll_spaces.
  split; [|split].
  - apply forallb_trim, collapseSpaces_forallb; [reflexivity|].
    rewrite replaceAll_class, replaceClass_filter.
    erewrite filter_ext; [apply forallb_filter_same|].
    intros c. apply negb_involutive.
  - apply noAdjacentSpaces_trim. apply (collapseSpaces_noAdjacent _ false).
  - apply trim_trim.
Qed.

(** C7.  The validator on the three inputs of the specification. *)
Theorem validator_examples :
  validateMermaidSyntax [] = mkValidation false (Some (lit "Empty diagram code"))
  /\ valid (validateMermaidSyntax (lit "just some prose")) = false
  /\ valid (validateMermaidSyntax (lit "graph TD" ++ [NL] ++ lit "A-->B")) = true.
Proof. vm_compute. auto. Qed.

(** C8.  The graph description of the specification's example generates
    the three lines [graph LR], [  a_1[\x22Start\x22]] and [  a_1 --> a_1],
    where [\x22] is the double quote. *)
Theorem generate_example :
  generateMermaidFromJSON
    (mkData None (Some (lit "LR"))
            (Some [mkNode (lit "a-1") (Some (lit "Start")) None])
            (Some [mkEdge (lit "a-1") (lit "a-1") None None]))
  = lit "graph LR" ++ [NL]
    ++ lit "  a_1[" ++ [DQUOTE] ++ lit "Start" ++ [DQUOTE] ++ lit "]" ++ [NL]
    ++ lit "  a_1 --> a_1".
Proof. vm_compute. reflexivity. Qed.

(** C9 as stated fails: a directive line that is indented and carries a
    comment comes out trimmed and without the comment, not as it went
    in. *)
Lemma directive_line_not_identical :
  let code := lit "graph TD" ++ [NL] ++ lit "  style A fill:#f9f %% pink" in
  splitOn NL code !! 1 = Some (lit "  style A fill:#f9f %% pink")
  /\ isDirective (trim (lit "  style A fill:#f9f %% pink")) = true
  /\ splitOn NL (sanitizeMermaidCode code) !! 1 = Some (lit "style A fill:#f9f")
  /\ splitOn NL (sanitizeMermaidCode code) !! 1 <> splitOn NL code !! 1.
Proof.
  split; [vm_compute; reflexivity|].
  split; [vm_compute; reflexivity|].
  split; [vm_compute; reflexivity|].
  vm_compute. discriminate.
Qed.

(** C9 (amended).  A line of the input (after CR LF has been made LF)
    that, once its [%%] comment is cut off and it is trimmed, starts with
    [classDef], [class ], [click ], [style ] or [linkStyle ] is processed
    into exactly that trimmed, comment-free text, and the final filter
    keeps it; no label rule touches it. *)
Theorem directive_line_passes_trimmed (code : str) (i : nat) (line : str) :
  splitOn NL (normalizeNewlines code) !! i = Some line ->
  isDirective (trim (stripComment line)) = true ->
  processedLines code !! i = Some (trim (stripComment line))
  /\ trim (stripComment line)
     ∈ List.filter (fun l => negb (isEmpty l)) (processedLines code).
Proof.
  intros Hl Hd.
  assert (processedLines code !! i = Some (trim (stripComment line))) as Hp.
  { unfold processedLines. cbv zeta. rewrite stripped_lines.
    rewrite !list_lookup_fmap, Hl. simpl.
    rewrite (processLine_directive _ Hd). reflexivity. }
  split; [exact Hp|].
  apply list_elem_of_In, filter_In. split.
  - apply list_elem_of_In. eapply list_elem_of_lookup_2, Hp.
  - rewrite (isDirective_nonempty _ Hd). reflexivity.
Qed.

Lemma directive_line_passes_trimmed_witness :
  processedLines (lit "graph TD" ++ [NL] ++ lit "  style A fill:#f9f %% pink") !! 1
  = Some (lit "style A fill:#f9f").
Proof.
  destruct (directive_line_passes_trimmed
              (lit "graph TD" ++ [NL] ++ lit "  style A fill:#f9f %% pink")
              1 (lit "  style A fill:#f9f %% pink")) as [H _];
    [vm_compute; reflexivity | vm_compute; reflexivity | exact H].
Defined.

(** C10.  A node whose label is missing or empty is emitted with its
    sanitized id between the quotes: the line of the node is two spaces,
    the sanitized id, the opening bracket of its shape, the sanitized id
    in double quotes, the closing bracket; that label is empty only when
    the id itself is. *)
Theorem missing_label_falls_back_to_id
    (data : MermaidDiagramData) (i : nat) (n : MermaidNode) :
  default [] (d_nodes data) !! i = Some n ->
  truthy (n_label n) = false ->
  generatedLines data !! S i
  = Some (lit "  " ++ cleanId (n_id n) ++ fst (bracketsOf (n_shape n))
          ++ quoted (cleanId (n_id n)) ++ snd (bracketsOf (n_shape n)))
  /\ generateMermaidFromJSON data = join [NL] (generatedLines data)
  /\ length (cleanId (n_id n)) = length (n_id n).
Proof.
  intros Hn Hl. split; [|split; [reflexivity|]].
  - unfold generatedLines. cbv zeta.
    change ([lit "graph " ++ default (lit "TD") (d_direction data)] ++ ?t)
      with ((lit "graph " ++ default (lit "TD") (d_direction data)) :: t).
    rewrite lookup_cons. rewrite lookup_app_l.
    2:{ rewrite length_map. eapply lookup_lt_Some, Hn. }
    rewrite list_lookup_fmap, Hn. simpl. do 2 f_equal.
    rewrite getShape_brackets, Hl, cleanLabel_cleanId. reflexivity.
  - rewrite cleanId_direct. apply length_map.
Qed.

Lemma missing_label_falls_back_to_id_witness :
  generatedLines (mkData None None (Some [mkNode (lit "a-1") None None]) None) !! 1
  = Some (lit "  a_1[" ++ [DQUOTE] ++ lit "a_1" ++ [DQUOTE] ++ lit "]").
Proof.
  destruct (missing_label_falls_back_to_id
              (mkData None None (Some [mkNode (lit "a-1") None None]) None)
              0 (mkNode (lit "a-1") None None)) as [H _];
    [reflexivity | reflexivity | exact H].
Defined.

End DiagramProperties.
(** * Further properties of the fence repair *)

Section RepairFurther.

(** X1.  A text in which no line is taken for a fence line is returned as it
    is, also when it holds three backticks in a row somewhere inside a
    line. *)
Theorem repair_without_fence_lines content :
  (forall i line, splitOn NL content !! i = Some line -> fenceOf i line = None) ->
  repairMarkdown content = content.
Proof.
  intros H. unfold repairMarkdown.
  destruct (includes (ticks 3) content); [|reflexivity]. simpl negb. cbv iota.
  assert (repairPass (splitOn NL content) = (splitOn NL content, false)) as Hp.
  { unfold repairPass. rewrite (scanFences_none _ H). reflexivity. }
  simpl. rewrite Hp. simpl. apply join_splitOn.
Qed.

Lemma repair_without_fence_lines_witness :
  repairMarkdown (lit "run ```ls``` first") = lit "run ```ls``` first".
Proof.
  apply repair_without_fence_lines.
  intros [|[|i]] line H; simpl in H; inversion H; subst; reflexivity.
Defined.

(** X2.  The repair adds at most three lines, and a line that it adds is a
    closing fence: white space followed by backticks, nothing else. *)
Theorem repair_adds_only_closers content :
  length (splitOn NL (repairMarkdown content)) <= length (splitOn NL content) + 3
  /\ forall i line,
       length (splitOn NL content) <= i ->
       splitOn NL (repairMarkdown content) !! i = Some line ->
       closerLine line = true.
Proof.
  rewrite repaired_lines_all. destruct (includes (ticks 3) content).
  - split.
    + apply (repairLoop_measure (@length str) pass_length).
    + apply (repairLoop_invariant
               (fun L => forall i l, length (splitOn NL content) <= i ->
                                     L !! i = Some l -> closerLine l = true)).
      * intros L L' HP HI. exact (pass_tail _ L L' HP HI).
      * intros i l Hi Hl. apply lookup_lt_Some in Hl. lia.
  - split; [lia|]. intros i l Hi Hl. apply lookup_lt_Some in Hl. lia.
Qed.

(** X3.  No fence line of the result has more than three backticks more than
    the longest fence line of the text: a pass lengthens a fence to one
    backtick more than a fence that it found, and there are three passes
    at most. *)
Theorem repair_growth_bounded content i line f :
  splitOn NL (repairMarkdown content) !! i = Some line ->
  fenceOf i line = Some f ->
  f_length f <= maxTicks (splitOn NL content) + 3.
Proof.
  intros Hl Hf.
  pose proof (maxTicks_ge _ f (scanFences_complete _ _ _ _ Hl Hf)) as Hle.
  rewrite repaired_lines_all in Hle. destruct (includes (ticks 3) content).
  - pose proof (repairLoop_measure maxTicks pass_growth 3 (splitOn NL content) false).
    lia.
  - lia.
Qed.

Lemma repair_growth_bounded_witness :
  splitOn NL (repairMarkdown (lit "```" ++ [NL] ++ lit "```" ++ [NL] ++ lit "```"))
    !! 0 = Some (lit "````")
  /\ 4 <= maxTicks (splitOn NL (lit "```" ++ [NL] ++ lit "```" ++ [NL] ++ lit "```")) + 3.
Proof.
  split; [reflexivity|].
  apply (repair_growth_bounded
           (lit "```" ++ [NL] ++ lit "```" ++ [NL] ++ lit "```") 0 (lit "````")
           (mkFence 0 4 [] (lit "````"))); reflexivity.
Defined.

(** X4.  An opening fence with an info string that ends with a carriage
    return, as in a text with CR LF line ends, is never rewritten: the
    pattern of the opener does not match it, because [.] stops at the
    carriage return and [$] wants the end of the line. *)
Theorem repair_keeps_opener_with_cr content i body f :
  splitOn NL content !! i = Some (body ++ [CR]) ->
  fenceOf i (body ++ [CR]) = Some f ->
  f_info f <> [] ->
  splitOn NL (repairMarkdown content) !! i = Some (body ++ [CR]).
Proof.
  intros Hl Hf Hinfo. rewrite repaired_lines_all.
  destruct (includes (ticks 3) content); [|exact Hl].
  apply (repairLoop_invariant (fun L => L !! i = Some (body ++ [CR]))); [|exact Hl].
  intros L L' HP HL.
  eapply pass_untouched; eauto. eapply opener_with_cr; eauto.
Qed.

Lemma repair_keeps_opener_with_cr_witness :
  splitOn NL (repairMarkdown (lit "```md" ++ [CR; NL] ++ lit "```" ++ [CR; NL]
                              ++ lit "```" ++ [CR; NL] ++ lit "```" ++ [CR]))
    !! 0 = Some (lit "```md" ++ [CR]).
Proof.
  apply (repair_keeps_opener_with_cr _ 0 (lit "```md")
           (mkFence 0 3 (lit "md") (lit "```md" ++ [CR])));
    [reflexivity | reflexivity | discriminate].
Defined.

(** X5.  A text with one code block and no other fence line is returned as it
    is: the scan finds the two fence lines, the second closes the first,
    and no step has anything to repair. *)
Theorem repair_leaves_single_block content o c :
  scanFences (splitOn NL content) = [o; c] ->
  closes o c = true ->
  repairMarkdown content = content.
Proof.
  intros Hscan Hcl. unfold repairMarkdown.
  destruct (includes (ticks 3) content); [|reflexivity]. simpl negb. cbv iota.
  cbn [repairLoop]. rewrite (repairPass_single_block _ o c Hscan Hcl).
  simpl. apply join_splitOn.
Qed.

Lemma repair_leaves_single_block_witness :
  repairMarkdown (lit "Run:" ++ [NL] ++ lit "  ```sh" ++ [NL] ++ lit "  ls `pwd`"
                  ++ [NL] ++ lit "  ````" ++ [NL] ++ lit "Done.")
  = lit "Run:" ++ [NL] ++ lit "  ```sh" ++ [NL] ++ lit "  ls `pwd`"
    ++ [NL] ++ lit "  ````" ++ [NL] ++ lit "Done.".
Proof.
  apply (repair_leaves_single_block _
           (mkFence 1 3 (lit "sh") (lit "  ```sh"))
           (mkFence 3 4 [] (lit "  ````"))); reflexivity.
Defined.

End RepairFurther.
(** * Further properties of the diagram library *)

Section DiagramFurther.

(** X6.  Sanitizing a text that is sanitized already changes nothing. *)
Theorem sanitize_text_idempotent text :
  sanitizeMermaidText (sanitizeMermaidText text) = sanitizeMermaidText text.
Proof.
  destruct (sanitized_facts text) as (Hsafe & Hadj & Htrim).
  set (t := sanitizeMermaidText text) in *.
  unfold sanitizeMermaidText at 1. cbv zeta.
  unfold tagRe, seqs. cbn [fold_right].
  rewrite (replaceAll_no_first_unit LT _ _ t).
  2:{ apply (forallb_not_elem (fun c => negb (c =? LT)%N)); [|reflexivity].
      eapply forallb_isSafe_property; [|exact Hsafe]. vm_compute. reflexivity. }
  rewrite !replaceAll_class, replaceAll_spaces.
  rewrite (replaceClass_none _ nothing t).
  2:{ eapply forallb_isSafe_property; [|exact Hsafe]. vm_compute. reflexivity. }
  rewrite (replaceClass_none _ space t).
  2:{ eapply forallb_isSafe_property; [|exact Hsafe]. vm_compute. reflexivity. }
  rewrite (replaceClass_none _ space t).
  2:{ eapply forallb_isSafe_property; [|exact Hsafe]. vm_compute. reflexivity. }
  rewrite (replaceClass_none _ nothing t).
  2:{ eapply forallb_impl; [|exact Hsafe]. intros c Hc. rewrite Hc. reflexivity. }
  rewrite collapseSpaces_fixed; [exact Htrim | | exact Hadj | discriminate].
  eapply forallb_isSafe_property; [|exact Hsafe]. vm_compute. reflexivity.
Qed.

(** X7.  The validator and [extractDiagramType] agree: the type found is one
    of the seven type words or [unknown], and a text is valid exactly
    when its type is not [unknown].  The white space that the validator
    trims makes no difference. *)
Theorem validator_agrees_with_type code :
  (extractDiagramType code ∈ validTypes \/ extractDiagramType code = lit "unknown")
  /\ (valid (validateMermaidSyntax code) = true
      <-> extractDiagramType code <> lit "unknown").
Proof.
  rewrite extractDiagramType_direct, valid_includes.
  destruct (firstWord validTypes code) as [t|] eqn:Hw; cbn [default from_option id].
  - pose proof (firstWord_elem _ _ _ Hw) as Hin.
    split; [left; exact Hin|]. split.
    + intros _ ->. apply list_elem_of_In in Hin.
      repeat (destruct Hin as [Hin|Hin]; [discriminate|]). exact Hin.
    + intros _. destruct (existsb _ validTypes) eqn:He; [reflexivity|].
      apply firstWord_none in He. congruence.
  - split; [right; reflexivity|].
    apply firstWord_none in Hw. rewrite Hw. split; [discriminate | congruence].
Qed.

(** X8.  A valid diagram stays valid whatever is written in front of it and
    behind it: the validator only asks for a type word somewhere in the
    text. *)
Theorem valid_wherever_embedded code before after :
  valid (validateMermaidSyntax code) = true ->
  validateMermaidSyntax (before ++ code ++ after) = mkValidation true None.
Proof.
  intros H. apply valid_true. rewrite valid_includes in *.
  apply existsb_includes_mono. exact H.
Qed.

Lemma valid_wherever_embedded_witness :
  validateMermaidSyntax (lit "a photo" ++ lit "graph" ++ lit "er") = mkValidation true None.
Proof. apply valid_wherever_embedded. reflexivity. Defined.

(** X9.  Whatever the description, the generated code passes the validator,
    and its diagram type is [graph]. *)
Theorem generated_code_is_valid data :
  validateMermaidSyntax (generateMermaidFromJSON data) = mkValidation true None
  /\ extractDiagramType (generateMermaidFromJSON data) = lit "graph".
Proof.
  pose proof (generated_starts_with_graph data) as Hs.
  pose proof (firstWord_graph _ Hs) as Hw.
  split.
  - apply valid_true. rewrite valid_includes.
    destruct (existsb _ validTypes) eqn:He; [reflexivity|].
    apply firstWord_none in He. congruence.
  - rewrite extractDiagramType_direct, Hw. reflexivity.
Qed.

(** X10.  The generated code has one line for the header, one for each node
    and one for each edge, in this order: no id and no label can add a
    line break.  The direction is written out as it is given, so it must
    not hold a line feed itself. *)
Theorem generated_lines_round_trip data :
  NL ∉ default (lit "TD") (d_direction data) ->
  splitOn NL (generateMermaidFromJSON data) = generatedLines data
  /\ length (generatedLines data)
     = 1 + length (default [] (d_nodes data)) + length (default [] (d_edges data)).
Proof.
  intros Hd. split.
  - apply splitOn_join; [discriminate | apply generatedLines_noNL; exact Hd].
  - unfold generatedLines. cbv zeta. rewrite !length_app, !length_map. simpl. lia.
Qed.

Lemma generated_lines_round_trip_witness :
  length (splitOn NL (generateMermaidFromJSON
            (mkData None (Some (lit "LR"))
               (Some [mkNode (lit "a") (Some (lit "one" ++ [NL] ++ lit "two")) None;
                      mkNode (lit "b") None None])
               (Some [mkEdge (lit "a") (lit "b") (Some [DQUOTE; NL]) None])))) = 4.
Proof.
  destruct (generated_lines_round_trip
              (mkData None (Some (lit "LR"))
                 (Some [mkNode (lit "a") (Some (lit "one" ++ [NL] ++ lit "two")) None;
                        mkNode (lit "b") None None])
                 (Some [mkEdge (lit "a") (lit "b") (Some [DQUOTE; NL]) None])))
    as [-> ->]; [|reflexivity].
  apply noNL_forallb. reflexivity.
Defined.

(** X11.  A label that the generator writes between double quotes holds no
    double quote, line feed or carriage return, and an id that it writes
    holds ASCII letters, digits and underscores only: nothing that is
    given as a label or as an id can end the quoted label or the line. *)
Theorem generated_labels_stay_quoted text id :
  forallb (fun c => negb (inClass [DQUOTE; NL; CR] c)) (cleanLabel text) = true
  /\ forallb isIdUnit (cleanId id) = true.
Proof. split; [apply cleanLabel_clean | apply cleanId_units]. Qed.

(** X12.  The sanitizer works line by line: the sanitized code is empty, or its
    lines are the processed forms of the lines of the code, comments
    removed, in their order and without the ones that come out empty.
    No line of the result is empty, and no line is added. *)
Theorem sanitized_code_lines code :
  let out := List.filter (fun l => negb (isEmpty l))
               (map (fun l => processLine (stripComment l))
                    (splitOn NL (normalizeNewlines code))) in
  (out = [] /\ sanitizeMermaidCode code = [])
  \/ (splitOn NL (sanitizeMermaidCode code) = out
      /\ Forall (fun l => l <> []) (splitOn NL (sanitizeMermaidCode code))
      /\ length (splitOn NL (sanitizeMermaidCode code))
         <= length (splitOn NL (normalizeNewlines code))).
Proof.
  cbv zeta. unfold sanitizeMermaidCode.
  pose proof (processedLines_noNL code) as Hno.
  rewrite processedLines_direct in *.
  set (out := List.filter _ _).
  destruct out as [|l0 out'] eqn:Hout; [left; auto|]. right.
  assert (splitOn NL (join [NL] (l0 :: out')) = l0 :: out') as Hsplit.
  { apply splitOn_join; [discriminate|]. rewrite <- Hout. unfold out.
    apply Forall_forall. intros l Hl. apply list_elem_of_In, filter_In in Hl as [Hl _].
    unfold noNL in Hno. rewrite Forall_forall in Hno. apply Hno.
    apply list_elem_of_In. exact Hl. }
  rewrite Hsplit. split; [reflexivity|]. split.
  - rewrite <- Hout. unfold out. apply Forall_forall. intros l Hl.
    apply list_elem_of_In, filter_In in Hl as [_ Hl]. destruct l; [discriminate | discriminate].
  - rewrite <- Hout. unfold out.
    etransitivity; [apply filter_length_le|]. rewrite length_map. lia.
Qed.

(** X13.  A line of the code that, with its comment cut off and trimmed, is
    [graph] or [flowchart], white space and something more, comes out of
    the sanitizer as the type, one space and one of the five directions,
    whatever stands behind the white space.  It comes out at the place
    that the lines in front of it leave: there are as many lines before
    it in the result as lines in front of it were kept.  (A line on which
    the comment follows the type at once is not such a line: cut and
    trimmed it is the bare type.) *)
Theorem graph_declaration_normalised code i line type w rest :
  type = lit "graph" \/ type = lit "flowchart" ->
  isSpace w = true ->
  splitOn NL (normalizeNewlines code) !! i = Some line ->
  trim (stripComment line) = type ++ w :: rest ->
  exists dir,
    dir ∈ map lit ["TB"; "TD"; "BT"; "RL"; "LR"]%string
    /\ splitOn NL (sanitizeMermaidCode code)
         !! length (List.filter (fun l => negb (isEmpty l))
                      (map (fun l => processLine (stripComment l))
                           (take i (splitOn NL (normalizeNewlines code)))))
       = Some (type ++ [SPACE] ++ dir).
Proof.
  intros Ht Hw Hl Htrim.
  destruct (processLine_declaration _ _ _ _ Ht Hw Htrim) as (dir & Hdir & Hp).
  exists dir. split; [exact Hdir|].
  assert (negb (isEmpty (processLine (stripComment line))) = true) as Hkept.
  { rewrite Hp. destruct Ht as [-> | ->]; reflexivity. }
  pose proof (filter_map_lookup (fun l => processLine (stripComment l))
                (fun l => negb (isEmpty l)) _ i line Hl Hkept) as Hat.
  cbv beta in Hat. rewrite Hp in Hat.
  rewrite sanitized_lines_split; rewrite processedLines_direct; [exact Hat|].
  intros Hnil. rewrite Hnil in Hat. rewrite lookup_nil in Hat. discriminate.
Qed.

Lemma graph_declaration_normalised_witness :
  exists dir,
    dir ∈ map lit ["TB"; "TD"; "BT"; "RL"; "LR"]%string
    /\ splitOn NL (sanitizeMermaidCode
                     (lit "%% flow" ++ [NL] ++ lit "  graph  sideways; %% note"
                      ++ [NL] ++ lit "A-->B"))
         !! 0 = Some (lit "graph" ++ [SPACE] ++ dir).
Proof.
  apply (graph_declaration_normalised
           (lit "%% flow" ++ [NL] ++ lit "  graph  sideways; %% note"
            ++ [NL] ++ lit "A-->B")
           1 (lit "  graph  sideways; %% note") (lit "graph") SPACE (lit " sideways;"));
    [left; reflexivity | reflexivity | reflexivity | reflexivity].
Defined.

End DiagramFurther.
(** * Properties of the fallback templates *)

Section TemplatesFurther.

(** X14.  Whatever they are given, the four templates return code that passes
    the validator and whose diagram type is [graph]. *)
Theorem templates_are_valid components layers parts :
  Forall (fun code => validateMermaidSyntax code = mkValidation true None
                      /\ extractDiagramType code = lit "graph")
         [basicFlow components; layeredArch layers; componentDiagram parts; serviceArch].
Proof.
  constructor; [apply typed_graph, basicFlow_typed|].
  constructor; [apply typed_graph, layeredArch_typed|].
  constructor; [apply typed_graph, componentDiagram_typed|].
  constructor; [apply typed_graph, serviceArch_typed | constructor].
Qed.

(** X15.  [getFallbackTemplate] returns code that passes the validator and
    whose diagram type is [graph], for every context and whatever
    [toLowerCase] makes of it. *)
Theorem fallback_template_is_valid (toLowerCase : str -> str) context :
  validateMermaidSyntax (getFallbackTemplate toLowerCase context) = mkValidation true None
  /\ extractDiagramType (getFallbackTemplate toLowerCase context) = lit "graph".
Proof.
  apply typed_graph. unfold getFallbackTemplate.
  destruct context as [[|c t]|]; try apply basicFlow_typed.
  cbv zeta.
  destruct (_ || _); [apply layeredArch_typed|].
  destruct (_ || _); [apply serviceArch_typed|].
  destruct (_ || _); [apply componentDiagram_typed | apply basicFlow_typed].
Qed.

(** X16.  When nothing is left of any component after the cleaning, and in
    particular when there is no component at all, [basicFlow] draws the
    flow of Start, Process and End. *)
Theorem basicFlow_falls_back components :
  (forall c, c ∈ components -> sanitizeComponent c = []) ->
  basicFlow components = basicFlow (map lit ["Start"; "Process"; "End"]%string).
Proof.
  intros H.
  assert (List.filter (fun c : list char => 0 <? length c) (map sanitizeComponent components)
          = []) as Hf.
  { induction components as [|c cs IH]; [reflexivity|].
    simpl. rewrite (H c ltac:(left)). simpl. apply IH.
    intros c' Hc'. apply H. right. exact Hc'. }
  unfold basicFlow at 1. rewrite Hf. vm_compute. reflexivity.
Qed.

Lemma basicFlow_falls_back_witness :
  basicFlow [lit "<>"; [DQUOTE; SQUOTE]; lit "  "]
  = basicFlow (map lit ["Start"; "Process"; "End"]%string).
Proof.
  apply basicFlow_falls_back. intros c Hc.
  apply list_elem_of_In in Hc.
  repeat (destruct Hc as [<-|Hc]; [reflexivity|]). destruct Hc.
Defined.

(** X17.  The lines of [basicFlow].  The labels are the components as the
    cleaning leaves them, in their order, without the ones of which
    nothing is left; when none is left they are Start, Process and End.
    The code splits into the header, a node line for each label and an
    edge line from each node to the next.  A label is not empty, has no
    white space at its ends and holds code units of the safe class only.
    With one label there is no edge, and the code ends with an empty
    line. *)
Theorem basicFlow_lines components :
  let kept :=
    List.filter (fun c => 0 <? length c) (map sanitizeComponent components) in
  let labels :=
    match kept with
    | [] => map lit ["Start"; "Process"; "End"]%string
    | _ :: _ => kept
    end in
  Forall (fun c => c <> [] /\ trim c = c /\ forallb isSafe c = true) labels
  /\ splitOn NL (basicFlow components)
     = [lit "graph TD"]
       ++ imap (fun i c => lit "  N" ++ decimal i ++ lit "[" ++ quoted c ++ lit "]") labels
       ++ match labels with
          | [_] => [[]]
          | _ => imap (fun i _ => lit "  N" ++ decimal i ++ lit " --> N" ++ decimal (i + 1))
                      (take (length labels - 1) labels)
          end.
Proof.
  intros kept labels. unfold basicFlow. fold kept.
  assert (Forall (fun c => c <> [] /\ trim c = c /\ forallb isSafe c = true) kept) as Hkept.
  { apply Forall_forall. intros c Hc. unfold kept in Hc.
    apply list_elem_of_In, filter_In in Hc as [Hc Hlen].
    apply in_map_iff in Hc as (c0 & <- & _).
    destruct (sanitizeComponent_facts c0) as [Hs Ht].
    split; [|auto]. intros He. rewrite He in Hlen. discriminate. }
  cbv zeta.
  assert ((if length kept =? 0
           then kept ++ map lit ["Start"; "Process"; "End"]%string else kept) = labels)
    as ->.
  { unfold labels. destruct kept; reflexivity. }
  assert (labels <> []
          /\ Forall (fun c => c <> [] /\ trim c = c /\ forallb isSafe c = true) labels)
    as [Hne Hall].
  { unfold labels. destruct kept as [|k ks]; simpl.
    - split; [discriminate|]. repeat constructor; discriminate.
    - split; [discriminate | exact Hkept]. }
  split; [exact Hall|].
  assert (noNL (imap (fun i c => lit "  N" ++ decimal i ++ lit "[" ++ quoted c ++ lit "]")
                     labels)) as Hnodes.
  { apply Forall_imap. intros i c Hc.
    rewrite Forall_forall in Hall.
    destruct (Hall c (list_elem_of_lookup_2 _ _ _ Hc)) as (_ & _ & Hs).
    apply noNL_app; [apply noNL_forallb; reflexivity|].
    apply noNL_app; [apply decimal_noNL|].
    apply noNL_app; [apply noNL_forallb; reflexivity|].
    apply noNL_app; [apply noNL_quoted, safe_noNL, Hs | apply noNL_forallb; reflexivity]. }
  assert (noNL (imap (fun i (_ : str) => lit "  N" ++ decimal i ++ lit " --> N"
                                          ++ decimal (i + 1))
                     (slice 0 (length labels - 1) labels))) as Hedges.
  { apply Forall_imap. intros i c Hc.
    apply noNL_app; [apply noNL_forallb; reflexivity|].
    apply noNL_app; [apply decimal_noNL|].
    apply noNL_app; [apply noNL_forallb; reflexivity | apply decimal_noNL]. }
  change (lit "graph TD" ++ [NL] ++ ?x) with (lit "graph TD" ++ NL :: x).
  rewrite splitOn_app_sep by (apply noNL_forallb; reflexivity).
  change ([NL] ++ ?x) with (NL :: x).
  rewrite splitOn_join_app; [|destruct labels; [congruence | discriminate] | exact Hnodes].
  cbn [app]. f_equal. f_equal.
  unfold slice in *. rewrite Nat.sub_0_r, drop_0 in *.
  destruct labels as [|a [|b rest]]; [congruence | reflexivity |].
  apply splitOn_join; [discriminate | exact Hedges].
Qed.

End TemplatesFurther.
(** * Properties of the components *)

Section ViewFurther.

(** X18.  The branch of the [code] renderer for the language [mermaid-json] is
    never taken: the language is a run of word characters, which stops
    at the hyphen, so that a block of this language is a [mermaid] block
    for the renderer and goes to the [Mermaid] component as it is. *)
Theorem mermaid_json_branch_unreachable className children :
  (forall jsonContent, codeView className children <> MermaidJson jsonContent)
  /\ codeView (Some (lit "language-mermaid-json")) children
     = MermaidChart (dropFinalNewline children).
Proof.
  split; [|reflexivity].
  intros jsonContent. unfold codeView. cbv zeta.
  destruct (search languageRe (orElse className [])) as [[m c]|] eqn:Hs.
  - apply searchFrom_languageRe_word in Hs.
    rewrite (word_not_mermaid_json _ Hs).
    destruct (eqb (group 1 c) (lit "mermaid")); discriminate.
  - discriminate.
Qed.

(** X19.  The content of a code element loses one line feed at its end, and
    nothing else. *)
Theorem final_newline_dropped children :
  dropFinalNewline (children ++ [NL]) = children
  /\ (last children <> Some NL -> dropFinalNewline children = children).
Proof.
  split; [apply dropFinalNewline_snoc | apply dropFinalNewline_other].
Qed.

(** X20.  The hash that names a chart is the polynomial hash with the factor 31
    of the code units of its source, taken as a 32-bit integer: the shift
    and the subtraction of the loop are a multiplication by 31. *)
Theorem chart_hash_polynomial chart :
  chartHash chart
  = toInt32 (fold_left (fun h c => (31 * h + Z.of_N c)%Z) chart 0%Z).
Proof. apply chartHash_direct. Qed.

(** X21.  The identifier of a chart is [mermaid-] followed by one to six
    digits and small letters, which write the absolute value of the hash
    in the radix 36. *)
Theorem chart_id_shape chart :
  exists digits,
    chartId chart = lit "mermaid-" ++ digits
    /\ 1 <= length digits <= 6
    /\ forallb isBase36 digits = true
    /\ Z.of_N (digitsValue 36 digits) = Z.abs (chartHash chart).
Proof.
  unfold chartId. eexists. split; [reflexivity|].
  pose proof (toInt32_range (fold_left (fun h c => (31 * h + Z.of_N c)%Z) chart 0%Z)) as Hr.
  rewrite <- chartHash_direct in Hr.
  set (n := Z.to_N (Z.abs (chartHash chart))).
  assert (n <= 2 ^ 31)%N as Hn by (unfold n; lia).
  split; [split|split].
  - unfold toStringRadix.
    pose proof (digitsOf_nonempty (N.size_nat n) 36 n []) as Hne.
    destruct (digitsOf _ _ _ _); [congruence | simpl; lia].
  - unfold toStringRadix.
    pose proof (digitsOf_short 36 ltac:(lia) (S (N.size_nat n)) 5 n []) as Hs.
    simpl length in Hs. apply Hs. simpl. lia.
  - apply toStringRadix_base36.
  - rewrite toStringRadix_value by lia. unfold n. lia.
Qed.

(** X22.  Layer 1 of [renderDiagram]: the message that its [catch] block
    gives to [setError] when [mermaid.render] fails is never empty, holds
    no [#] and no [dmermaid], and does not start with [Parse error],
    whatever the message of the error thrown is.  (The other calls of
    [setError], in the outer [catch] and in [handleRetry], do not go
    through this filter.) *)
Theorem layer1_error_is_clean message :
  sanitizedError message <> []
  /\ includes (lit "#") (sanitizedError message) = false
  /\ includes (lit "dmermaid") (sanitizedError message) = false
  /\ startsWith (lit "Parse error") (sanitizedError message) = false.
Proof.
  unfold sanitizedError. cbv zeta.
  destruct (_ || _ || _) eqn:Hc.
  - repeat split; [discriminate | reflexivity..].
  - apply orb_false_iff in Hc as [Hc H3]. apply orb_false_iff in Hc as [H1 H2].
    repeat split; try assumption.
    destruct message as [[|c t]|]; discriminate.
Qed.

(** X23.  Layer 1 of the [Mermaid] component never warns about a chart that
    was generated from a JSON description: what the sanitizer makes of
    the generated code still starts with the word [graph], whatever the
    direction, the ids and the labels are. *)
Theorem generated_chart_passes_layer1 data :
  snd (layer1 (generateMermaidFromJSON data)) = mkValidation true None
  /\ startsWith (lit "graph") (fst (layer1 (generateMermaidFromJSON data))) = true.
Proof.
  pose proof (sanitized_generated_starts data) as Hs.
  split; [|exact Hs].
  unfold layer1. cbv zeta. cbn [snd].
  exact (proj1 (typed_graph _ (firstWord_graph _ Hs))).
Qed.

End ViewFurther.
(** * Properties of the chat export *)

Section ExportFurther.

(** X24.  The label of the file name holds ASCII letters, digits, dots,
    underscores and hyphens only, and a label that is cleaned already
    stays as it is. *)
Theorem filename_label_is_clean label :
  forallb isFilenameChar (sanitizeFilenameLabel label) = true
  /\ sanitizeFilenameLabel (sanitizeFilenameLabel label) = sanitizeFilenameLabel label.
Proof.
  pose proof (sanitizeFilenameLabel_clean label) as Hc.
  split; [exact Hc|].
  unfold sanitizeFilenameLabel at 1. rewrite replaceAll_plus_class.
  apply collapseClass_none.
  eapply forallb_impl; [|exact Hc]. intros c ->. reflexivity.
Qed.

(** X25.  The name of the exported file holds ASCII letters, digits, dots,
    underscores and hyphens only, when the time stamp is made of digits,
    letters, hyphens, colons and dots, as the ISO format of a date is. *)
Theorem export_filename_is_clean label exportedAt :
  forallb (fun c => isFilenameChar c || (c =? 58)%N) exportedAt = true ->
  forallb isFilenameChar (buildChatExportFilename label exportedAt) = true.
Proof.
  intros Hiso. unfold buildChatExportFilename. cbv zeta.
  rewrite !forallb_app.
  rewrite (sanitizeFilenameLabel_clean label).
  rewrite replaceAll_class.
  change (replaceClass ?p (fun _ _ => lit "-") ?s)
    with (replaceClass p (fun (_ : str) (_ : caps) => [45%N]) s).
  rewrite replaceClass_map.
  replace (forallb isFilenameChar (map _ exportedAt)) with true; [reflexivity|].
  symmetry. rewrite forallb_forall. intros y Hy.
  apply in_map_iff in Hy as (c & <- & Hc).
  rewrite forallb_forall in Hiso. specialize (Hiso c Hc).
  destruct (inClass (lit ":.") c) eqn:Hcls; [reflexivity|].
  apply orb_true_iff in Hiso as [H|H]; [exact H|].
  apply N.eqb_eq in H. subst c. discriminate.
Qed.

Lemma export_filename_is_clean_witness :
  forallb isFilenameChar
    (buildChatExportFilename (lit "octo cat/hello world")
                             (lit "2026-11-03T07:55:00.000Z")) = true.
Proof. apply export_filename_is_clean. reflexivity. Defined.

(** X26.  The messages of the export are numbered by role: a message stands
    under [User Query n] or [AI Response n], where [n] counts the
    messages of its role up to it, itself included, and the header gives
    the number of all messages. *)
Theorem chat_headings_numbered title contextLabel messages exportedAt :
  chatLines title contextLabel messages exportedAt
  = [ lit "# " ++ title;
      [];
      lit "- Context: " ++ contextLabel;
      lit "- Exported: " ++ exportedAt;
      lit "- Messages: " ++ decimal (length messages);
      [] ]
    ++ concat (imap (fun i m =>
                       messageLines (countRole (m_role m) (take (S i) messages)) m)
                    messages).
Proof.
  unfold chatLines. cbv zeta. rewrite fold_pushMessage. cbn [app].
  do 7 f_equal. apply imap_ext. intros i m Hm. destruct (m_role m); reflexivity.
Qed.

(** X27.  The loop over the charts of a message ends, whatever the message is
    and whatever the renderer and the converter do: every match of the
    pattern takes three backticks at least, so the search moves on. *)
Theorem charts_conversion_ends renderMermaid convertMermaidJson now encodeURIComponent content :
  is_Some (convertChartsToImages renderMermaid convertMermaidJson now
                                 encodeURIComponent content).
Proof. apply convertLoop_ends. lia. Qed.

(** X28.  A message in which no chart opens, that is, without three backticks
    followed by [mermaid], is returned as it is. *)
Theorem text_without_chart_is_kept renderMermaid convertMermaidJson now encodeURIComponent content :
  includes (ticks 3 ++ lit "mermaid") content = false ->
  convertChartsToImages renderMermaid convertMermaidJson now encodeURIComponent content
  = Some content.
Proof.
  intros Hi. unfold convertChartsToImages. cbn [convertLoop].
  rewrite execFrom_none; [reflexivity|].
  intros k. destruct (matchAt chartPattern (drop k content) (0 + k)) as [[n c]|] eqn:Hm;
    [|reflexivity].
  apply matchAt_chartPattern in Hm as [Hs _].
  rewrite (includes_drop_none _ _ Hi k) in Hs. discriminate.
Qed.

Lemma text_without_chart_is_kept_witness :
  convertChartsToImages (fun code _ => Some code) None (fun _ => []) (fun s => Some s)
    (lit "```js" ++ [NL] ++ lit "mermaid" ++ [NL] ++ lit "```")
  = Some (lit "```js" ++ [NL] ++ lit "mermaid" ++ [NL] ++ lit "```").
Proof. apply text_without_chart_is_kept. reflexivity. Defined.

(** X29.  When the renderer fails on every chart, the message comes back as it
    was: what stands between the charts and the charts themselves are
    written back in their order. *)
Theorem failed_charts_are_kept renderMermaid convertMermaidJson now encodeURIComponent content :
  (forall code id, renderMermaid code id = None) ->
  convertChartsToImages renderMermaid convertMermaidJson now encodeURIComponent content
  = Some content.
Proof.
  intros Hfail. unfold convertChartsToImages.
  rewrite convertLoop_failing; [reflexivity | exact Hfail | lia].
Qed.

Lemma failed_charts_are_kept_witness :
  convertChartsToImages (fun _ _ => None) None (fun _ => []) (fun s => Some s)
    (lit "see ```mermaid" ++ [NL] ++ lit "graph TD" ++ [NL] ++ lit "``` above")
  = Some (lit "see ```mermaid" ++ [NL] ++ lit "graph TD" ++ [NL] ++ lit "``` above").
Proof. apply failed_charts_are_kept. reflexivity. Defined.

End ExportFurther.
(** * The input of the search box *)

Section ActionsFurther.

Variables Profile Repo Tree : Type.
Variable getProfile : str -> option Profile.
Variable getRepo : str -> str -> option Repo.
Variable getRepoFileTree : str -> str -> option Tree.

(** X30.  The number of slashes decides what [fetchGitHubData] does with its
    input.  Without a slash the whole input is the user name, the empty
    input too.  With one slash the input is an owner and a repository,
    either of which may be empty, and both requests must succeed.  With
    two slashes or more the input is refused and no request is made. *)
Theorem fetch_by_slashes input :
  match occurrences 47%N input with
  | 0 =>
      fetchGitHubData _ _ _ getProfile getRepo getRepoFileTree input
      = match getProfile input with
        | Some profile => FetchedProfile _ _ _ profile
        | None => FetchError _ _ _ (lit "User not found")
        end
  | 1 =>
      exists owner repo,
        input = owner ++ lit "/" ++ repo /\ (47%N ∉ owner) /\ (47%N ∉ repo)
        /\ fetchGitHubData _ _ _ getProfile getRepo getRepoFileTree input
           = match getRepo owner repo, getRepoFileTree owner repo with
             | Some repoData, Some fileTree => FetchedRepo _ _ _ repoData fileTree
             | _, _ => FetchError _ _ _ (lit "Repository not found")
             end
  | _ =>
      fetchGitHubData _ _ _ getProfile getRepo getRepoFileTree input
      = FetchError _ _ _ (lit "Invalid input format")
  end.
Proof.
  pose proof (splitOn_length 47%N input) as Hlen.
  unfold fetchGitHubData. cbv zeta.
  destruct (occurrences 47%N input) as [|[|n]] eqn:Hocc.
  - rewrite Hlen. simpl Nat.eqb. cbv iota.
    destruct (splitOn 47%N input) as [|a [|b ls]] eqn:Hs; try discriminate.
    pose proof (join_splitOn 47%N input) as Hj. rewrite Hs in Hj. simpl in Hj.
    subst a. reflexivity.
  - rewrite Hlen. simpl Nat.eqb. cbv iota.
    destruct (splitOn 47%N input) as [|a [|b [|c ls]]] eqn:Hs; try discriminate.
    destruct (splitOn_two _ _ _ _ Hs) as (Hi & Ha & Hb).
    exists a, b. repeat split; auto.
  - rewrite Hlen. reflexivity.
Qed.

End ActionsFurther.
